(** * Stage 2 of simdjson: the structural parser

    A shallow embedding of [src/generic/stage2/structural_parser.h]: the
    goto state machine of [structural_parser::parse], its [finish] check and
    the static entry point that resumes a streaming parse session.

    The parser walks the array of structural indexes produced by stage 1 and
    drives a builder through callbacks.  The embedding keeps the memory the
    parser reads (the padded buffer and the index array) as lists, a read
    outside of them as undefined behaviour, the cursor as an index into the
    index array, and every builder callback as a function that receives the
    parser by reference and may therefore change it. *)

From Stdlib Require Import ZArith List Bool Lia.
From Stdlib Require Import Strings.Byte.
Import ListNotations.

Local Open Scope Z_scope.

(** ** Machine integers and memory *)

(** The value kept by a [uint32_t] that is assigned [z]. *)
Definition uint32_t (z : Z) : Z := z mod 2 ^ 32.

(** [a[i]] for an array held in a list: [None] is a read outside of the
    allocation, which C++ leaves undefined. *)
Definition index {A : Type} (a : list A) (i : Z) : option A :=
  if i <? 0 then None else nth_error a (Z.to_nat i).

(** The double quote, which a key or a string value starts with. *)
Definition quote : byte := x22.

Definition byte_is (c expected : byte) : bool := Byte.eqb c expected.

Declare Scope parser_scope.
Delimit Scope parser_scope with parser.
Infix "==" := byte_is (at level 70, no associativity) : parser_scope.
Local Open Scope parser_scope.

(** ** Error codes *)

(** Modelled from the spec: the error-code surface of section 6; the enum
    [error_code] is declared in a header outside of the excerpt.  [SUCCESS]
    is the only code that tests false in [if (error)]. *)
Inductive error_code : Type :=
| SUCCESS
| EMPTY
| TAPE_ERROR
| INCORRECT_TYPE
| NUMBER_ERROR
| STRING_ERROR
| UTF8_ERROR
| DEPTH_ERROR.

Definition is_error (e : error_code) : bool :=
  match e with
  | SUCCESS => false
  | _ => true
  end.

(** ** The parse session *)

(** The fields of [dom_parser_implementation] that stage 2 uses.
    [structural_indexes] is the whole allocation, of which the first
    [n_structural_indexes] entries are the structurals of the document. *)
Record dom_parser_implementation : Type := {
  input_buf : list byte;
  structural_indexes : list Z;
  n_structural_indexes : Z;
  next_structural_index : Z
}.

(** [struct structural_parser : structural_iterator].  [next_structural] is
    the pointer into [dom_parser.structural_indexes], kept as the index it
    points at; [buf] is the iterator's pointer to the input. *)
Record structural_parser : Type := {
  buf : list byte;
  next_structural : Z;
  dom_parser : dom_parser_implementation;
  depth : Z
}.

Definition with_next_structural (p : structural_parser) (i : Z) : structural_parser :=
  {| buf := buf p; next_structural := i; dom_parser := dom_parser p; depth := depth p |}.

Definition with_next_structural_index (p : structural_parser) (i : Z) : structural_parser :=
  {| buf := buf p;
     next_structural := next_structural p;
     dom_parser :=
       {| input_buf := input_buf (dom_parser p);
          structural_indexes := structural_indexes (dom_parser p);
          n_structural_indexes := n_structural_indexes (dom_parser p);
          next_structural_index := i |};
     depth := depth p |}.

(** Modelled from the spec: the constructor of [structural_iterator], whose
    header is outside of the excerpt: the cursor starts at the given
    structural index and the buffer is the session's; [depth{0}] is the
    member initialiser of [structural_parser]. *)
Definition new_structural_parser (dp : dom_parser_implementation)
    (start_structural_index : Z) : structural_parser :=
  {| buf := input_buf dp;
     next_structural := start_structural_index;
     dom_parser := dp;
     depth := 0 |}.

(** Modelled from the spec: [at_end() -> bool], true iff the cursor equals
    [n_structural_indexes] (section 4.1). *)
Definition at_end (p : structural_parser) : bool :=
  next_structural p =? n_structural_indexes (dom_parser p).

(** ** Builder events *)

(** The callbacks of the builder contract, with the pointers they receive
    kept as offsets into the buffer.  [try_resume_array] is overloaded in
    the source; the overload that takes the value is
    [try_resume_array_value]. *)
Inductive event : Type :=
| start_document
| root_primitive (value : Z)
| empty_object
| start_object
| empty_object_field (key : Z)
| start_object_field (key : Z)
| empty_array_field (key : Z)
| start_array_field (key : Z)
| primitive_field (key value : Z)
| end_object
| empty_array
| start_array
| primitive (value : Z)
| end_array
| try_resume_object
| try_resume_array_value (value : Z)
| try_resume_array
| try_end_array
| try_end_object
| end_document.

(** A builder of state type [T]: what each callback returns, and what it
    leaves in the parser, which it receives by reference, and in itself. *)
Definition Builder (T : Type) : Type :=
  event -> structural_parser -> T -> error_code * (structural_parser * T).

(** ** finish *)

Definition finish (STREAMING : bool) (p : structural_parser)
  : error_code * structural_parser :=
  let p := with_next_structural_index p (uint32_t (next_structural p)) in
  if negb (depth p =? 0) then (TAPE_ERROR, p)
  else if negb STREAMING
          && negb (next_structural_index (dom_parser p)
                   =? n_structural_indexes (dom_parser p))
  then (TAPE_ERROR, p)
  else (SUCCESS, p).

(** ** The state machine *)

Inductive label : Type :=
| generic_object_begin
| object_colon
| object_value
| object_next
| generic_array_begin
| array_value
| array_next
| generic_next
| document_end.

Inductive outcome : Type :=
| returns (e : error_code)
| undefined
| out_of_fuel.

Section Driver.

Context {T : Type}.
Variable builder_call : Builder T.

(** The parser, the builder it drives and the local [value] of [parse],
    with two histories that the code does not keep: the callbacks invoked
    so far with what each returned, and the position the cursor took after
    each [advance], [advance_char] and [next_structural--]. *)
Record machine : Type := {
  parser : structural_parser;
  builder : T;
  value : Z;
  trace : list (event * error_code);
  moves : list Z
}.

Inductive result (A : Type) : Type :=
| Continue (a : A) (m : machine)
| Return (e : error_code) (m : machine)
| Undefined (m : machine).

Arguments Continue {A} a m.
Arguments Return {A} e m.
Arguments Undefined {A} m.

Definition M (A : Type) : Type := machine -> result A.

Definition ret {A : Type} (a : A) : M A := fun m => Continue a m.

Definition bind {A B : Type} (c : M A) (k : A -> M B) : M B :=
  fun m =>
    match c m with
    | Continue a m' => k a m'
    | Return e m' => Return e m'
    | Undefined m' => Undefined m'
    end.

Notation "x <- c ;; k" := (bind c (fun x => k))
  (at level 61, c at next level, right associativity).
Notation "c ;; k" := (bind c (fun _ => k))
  (at level 61, right associativity).

Definition return_ {A : Type} (e : error_code) : M A := fun m => Return e m.

Definition goto (l : label) : M label := ret l.

Definition with_parser (m : machine) (p : structural_parser) : machine :=
  {| parser := p; builder := builder m; value := value m; trace := trace m;
     moves := moves m |}.

(** The cursor is set to [i] by the driver. *)
Definition move_to (m : machine) (i : Z) : machine :=
  {| parser := with_next_structural (parser m) i;
     builder := builder m; value := value m; trace := trace m;
     moves := moves m ++ [i] |}.

(** Modelled from the spec: [advance()], which returns the pointer to
    [buf[indexes[cursor]]] and then increments the cursor (section 4.1).
    The pointer is computed, not followed. *)
Definition advance : M Z :=
  fun m =>
    match index (structural_indexes (dom_parser (parser m))) (next_structural (parser m)) with
    | Some i =>
        Continue i (move_to m (next_structural (parser m) + 1))
    | None => Undefined m
    end.

(** [*p] for a pointer into the buffer. *)
Definition deref (p : Z) : M byte :=
  fun m =>
    match index (buf (parser m)) p with
    | Some c => Continue c m
    | None => Undefined m
    end.

(** Modelled from the spec: [advance_char()], the same as [advance] but
    returning the byte. *)
Definition advance_char : M byte :=
  p <- advance ;; deref p.

Definition set_value (v : Z) : M unit :=
  fun m =>
    Continue tt {| parser := parser m; builder := builder m; value := v;
                   trace := trace m; moves := moves m |}.

Definition get_value : M Z := fun m => Continue (value m) m.

(** [*(value = advance())] *)
Definition advance_value : M byte :=
  v <- advance ;; set_value v ;; deref v.

(** [next_structural--] *)
Definition back_up : M unit :=
  fun m =>
    Continue tt (move_to m (next_structural (parser m) - 1)).

(** Modelled from the spec: the macro [SIMDJSON_TRY], defined outside of
    the excerpt, around a builder callback: a non-success code is returned
    from [parse] at once (section 4.3). *)
Definition TRY (ev : event) : M unit :=
  fun m =>
    let '(e, (p, b)) := builder_call ev (parser m) (builder m) in
    let m' := {| parser := p; builder := b; value := value m;
                 trace := trace m ++ [(ev, e)]; moves := moves m |} in
    if is_error e then Return e m' else Continue tt m'.

(** [return finish<STREAMING>()] *)
Definition return_finish {A : Type} (STREAMING : bool) : M A :=
  fun m =>
    let '(e, p) := finish STREAMING (parser m) in
    Return e (with_parser m p).

(** One state of [parse], from its label to the [goto] or [return] that
    leaves it. *)
Definition step (STREAMING : bool) (l : label) : M label :=
  match l with
  | generic_object_begin =>
      c <- advance_value ;;
      if c == "}" then TRY empty_object ;; goto generic_next
      else if c == quote then TRY start_object ;; goto object_colon
      else return_ TAPE_ERROR
  | object_colon =>
      c <- advance_char ;;
      if negb (c == ":") then return_ TAPE_ERROR
      else goto object_value
  | object_value =>
      key <- get_value ;;
      c <- advance_value ;;
      if c == "{" then
        c <- advance_value ;;
        if c == "}" then TRY (empty_object_field key) ;; goto object_next
        else if c == quote then TRY (start_object_field key) ;; goto object_colon
        else return_ TAPE_ERROR
      else if c == "[" then
        c <- advance_value ;;
        if c == "]" then TRY (empty_array_field key) ;; goto object_next
        else TRY (start_array_field key) ;; goto array_value
      else
        v <- get_value ;;
        TRY (primitive_field key v) ;; goto object_next
  | object_next =>
      c <- advance_char ;;
      if c == "," then
        c <- advance_value ;;
        if negb (c == quote) then return_ TAPE_ERROR
        else goto object_colon
      else if c == "}" then TRY end_object ;; goto generic_next
      else return_ TAPE_ERROR
  | generic_array_begin =>
      c <- advance_value ;;
      if c == "]" then TRY empty_array ;; goto generic_next
      else TRY start_array ;; goto array_value
  | array_value =>
      v <- get_value ;;
      c <- deref v ;;
      if c == "{" then
        c <- advance_value ;;
        if c == "}" then TRY empty_object ;; goto array_next
        else if c == quote then TRY start_object ;; goto object_colon
        else return_ TAPE_ERROR
      else if c == "[" then
        c <- advance_value ;;
        if c == "]" then TRY empty_array ;; goto array_next
        else TRY start_array ;; goto array_value
      else
        v <- get_value ;;
        TRY (primitive v) ;; goto array_next
  | array_next =>
      c <- advance_char ;;
      if c == "," then
        v <- advance ;; set_value v ;; goto array_value
      else if c == "]" then TRY end_array ;; goto generic_next
      else return_ TAPE_ERROR
  | generic_next =>
      c <- advance_char ;;
      if c == "," then
        c <- advance_value ;;
        if c == quote then
          v <- get_value ;;
          c <- advance_char ;;
          if c == ":" then TRY try_resume_object ;; goto object_value
          else if c == "," then TRY (try_resume_array_value v) ;; goto array_value
          else if c == "]" then
            TRY (try_resume_array_value v) ;; TRY end_array ;; goto generic_next
          else return_ TAPE_ERROR
        else if c == "[" then TRY try_resume_array ;; goto generic_array_begin
        else if c == "{" then TRY try_resume_array ;; goto generic_object_begin
        else TRY try_resume_array ;; goto array_value
      else if c == "]" then TRY try_end_array ;; goto generic_next
      else if c == "}" then TRY try_end_object ;; goto generic_next
      else back_up ;; goto document_end
  | document_end =>
      TRY end_document ;;
      return_finish STREAMING
  end.

(** [buf[dom_parser.structural_indexes[dom_parser.n_structural_indexes - 1]]] *)
Definition last_structural_char : M byte :=
  fun m =>
    match index (structural_indexes (dom_parser (parser m)))
                (uint32_t (n_structural_indexes (dom_parser (parser m)) - 1)) with
    | Some i => deref i m
    | None => Undefined m
    end.

Definition is_at_end : M bool := fun m => Continue (at_end (parser m)) m.

(** The document start and the first value, up to the first [goto]. *)
Definition first_value (STREAMING : bool) : M label :=
  e <- is_at_end ;;
  if e then return_ EMPTY
  else
    TRY start_document ;;
    c <- advance_value ;;
    if c == "{" then goto generic_object_begin
    else if c == "[" then
      (if negb STREAMING then
         c <- last_structural_char ;;
         if negb (c == "]") then return_ TAPE_ERROR else ret tt
       else ret tt) ;;
      goto generic_array_begin
    else
      v <- get_value ;;
      TRY (root_primitive v) ;; goto document_end.

(** The jumps of [parse]: at most [fuel] states are run. *)
Fixpoint run (STREAMING : bool) (fuel : nat) (l : label) (m : machine)
  : outcome * machine :=
  match fuel with
  | O => (out_of_fuel, m)
  | S fuel' =>
      match step STREAMING l m with
      | Continue l' m' => run STREAMING fuel' l' m'
      | Return e m' => (returns e, m')
      | Undefined m' => (undefined, m')
      end
  end.

(** [structural_parser::parse<STREAMING>(builder)] *)
Definition parse_from (STREAMING : bool) (fuel : nat) (m : machine)
  : outcome * machine :=
  match first_value STREAMING m with
  | Continue l m' => run STREAMING fuel l m'
  | Return e m' => (returns e, m')
  | Undefined m' => (undefined, m')
  end.

(** The static [structural_parser::parse<STREAMING>(dom_parser, builder)].
    The local [value] is not initialised in the source; it is assigned by
    the first [advance] before it is read. *)
Definition parse (STREAMING : bool) (fuel : nat)
    (dp : dom_parser_implementation) (b : T) : outcome * machine :=
  parse_from STREAMING fuel
    {| parser := new_structural_parser dp
                   (if STREAMING then next_structural_index dp else 0);
       builder := b;
       value := 0;
       trace := [];
       moves := [] |}.

End Driver.

Arguments Continue {T A} a m.
Arguments Return {T A} e m.
Arguments Undefined {T A} m.
Arguments machine T : clear implicits.
Arguments result T A : clear implicits.
Arguments M T A : clear implicits.

(** ** Reasoning about the driver *)

Section Logic.

Context {T : Type}.
Variable B : Builder T.

(** What holds when a part of [parse] is left: [Q] on falling through, [R]
    on leaving [parse]. *)
Definition triple {A : Type} (P : machine T -> Prop) (c : M T A)
    (Q : A -> machine T -> Prop) (R : outcome -> machine T -> Prop) : Prop :=
  forall m, P m ->
    match c m with
    | Continue a m' => Q a m'
    | Return e m' => R (returns e) m'
    | Undefined m' => R undefined m'
    end.

Definition label_is_document_end (l : label) : bool :=
  match l with
  | document_end => true
  | _ => false
  end.

(** The structural byte the cursor of [m] stands on. *)
Definition structural_byte (m : machine T) (c : byte) : Prop :=
  exists i,
    index (structural_indexes (dom_parser (parser m))) (next_structural (parser m)) = Some i
    /\ index (buf (parser m)) i = Some c.

(** The byte that sends [generic_next] to [document_end]. *)
Definition ends_document (c : byte) : Prop :=
  (c == ",") = false /\ (c == "]") = false /\ (c == "}") = false.

(** [I] is kept by the walk, [J] holds on arrival at [document_end] from
    the first value, and [R] holds of every way [parse] is left before
    [document_end]. *)
Record invariant (I J : machine T -> Prop)
    (R : outcome -> machine T -> Prop) : Prop := {
  inv_advance : forall m i,
    I m ->
    index (structural_indexes (dom_parser (parser m))) (next_structural (parser m)) = Some i ->
    I (move_to m (next_structural (parser m) + 1));
  inv_set_value : forall m v,
    I m ->
    I {| parser := parser m; builder := builder m; value := v;
         trace := trace m; moves := moves m |};
  inv_call : forall ev,
    ev <> end_document -> triple I (TRY B ev) (fun _ => I) R;
  inv_tape_error : forall m, I m -> R (returns TAPE_ERROR) m;
  inv_empty : forall m, I m -> R (returns EMPTY) m;
  inv_undefined : forall m, I m -> R undefined m;
  inv_no_fuel : forall m, I m -> R out_of_fuel m;
  inv_root : forall m, I m -> J m
}.

(** [R] holds of every way [parse] is left at [document_end]. *)
Definition ends (STREAMING : bool) (J : machine T -> Prop)
    (R : outcome -> machine T -> Prop) : Prop :=
  (forall m, J m -> R out_of_fuel m)
  /\ triple J (step B STREAMING document_end) (fun _ _ => False) R.

(** [J] holds when [generic_next] has read a byte that ends the document
    and has backed up. *)
Definition backs_up (I J : machine T -> Prop) : Prop :=
  forall m c,
    I m -> structural_byte m c -> ends_document c ->
    J (move_to (move_to m (next_structural (parser m) + 1))
               (next_structural (parser m) + 1 - 1)).

(** What the invariant is on arrival at a label. *)
Definition at_label (I J : machine T -> Prop) (l : label) (m : machine T) : Prop :=
  if label_is_document_end l then J m else I m.

End Logic.

(** ** What is asked of a builder *)

Section BuilderProperties.

Context {T : Type}.
Variable B : Builder T.

(** No callback changes the given part of the parser. *)
Definition keeps {X : Type} (field : structural_parser -> X) : Prop :=
  forall ev p b, field (fst (snd (B ev p b))) = field p.

(** The callbacks of a document that is a scalar. *)
Definition root_event (ev : event) : Prop :=
  ev = start_document \/ (exists v, ev = root_primitive v) \/ ev = end_document.

(** The callbacks of a document that is a scalar succeed and leave the
    parser as they found it. *)
Definition quiet_at_root : Prop :=
  forall ev p b,
    root_event ev -> fst (B ev p b) = SUCCESS /\ fst (snd (B ev p b)) = p.

(** Every callback succeeds and leaves the parser as it found it, but for
    its depth. *)
Definition accepting : Prop :=
  forall ev p b,
    fst (B ev p b) = SUCCESS
    /\ buf (fst (snd (B ev p b))) = buf p
    /\ next_structural (fst (snd (B ev p b))) = next_structural p
    /\ dom_parser (fst (snd (B ev p b))) = dom_parser p.

(** The state [parse] is left in when [end_document] has returned
    [SUCCESS] with the parser at depth 0 and [finish] has found every
    structural consumed. *)
Definition parsed_to_end (m : machine T) : Prop :=
  depth (parser m) = 0
  /\ next_structural_index (dom_parser (parser m))
     = n_structural_indexes (dom_parser (parser m))
  /\ exists m0 p,
       B end_document (parser m0) (builder m0) = (SUCCESS, (p, builder m))
       /\ depth p = 0
       /\ parser m = with_next_structural_index p (uint32_t (next_structural p))
       /\ trace m = trace m0 ++ [(end_document, SUCCESS)].

(** Every callback invoked so far has returned [SUCCESS]. *)
Definition clean (m : machine T) : Prop :=
  Forall (fun x => snd x = SUCCESS) (trace m).

(** The last callback invoked is the first to have failed, and [parse] has
    returned its code. *)
Definition stopped_by_builder (o : outcome) (m : machine T) : Prop :=
  exists t ev e,
    trace m = t ++ [(ev, e)]
    /\ Forall (fun x => snd x = SUCCESS) t
    /\ e <> SUCCESS
    /\ o = returns e.

(** What [finish] returns when its depth check does not fire. *)
Definition cursor_verdict (STREAMING : bool) (p : structural_parser) : error_code :=
  if STREAMING then SUCCESS
  else if next_structural_index (dom_parser p) =? n_structural_indexes (dom_parser p)
       then SUCCESS
       else TAPE_ERROR.

(** The depth is 0 and [end_document] has not been called. *)
Definition at_depth_zero (m : machine T) : Prop :=
  depth (parser m) = 0 /\ ~ In end_document (map fst (trace m)).

(** The depth is 0, and a call in which [end_document] succeeded returned
    what the position of the cursor alone decides. *)
Definition depth_check_idle (STREAMING : bool) (o : outcome) (m : machine T) : Prop :=
  depth (parser m) = 0
  /\ forall t, trace m = t ++ [(end_document, SUCCESS)] ->
       o = returns (cursor_verdict STREAMING (parser m)).

End BuilderProperties.

(** ** Builders *)

(** A builder that accepts every event and touches nothing. *)
Definition noop_builder : Builder unit :=
  fun _ p b => (SUCCESS, (p, b)).

(** A builder that rejects the elements of arrays as malformed numbers. *)
Definition number_error_builder : Builder unit :=
  fun ev p b =>
    match ev with
    | primitive _ => (NUMBER_ERROR, (p, b))
    | _ => (SUCCESS, (p, b))
    end.

Definition with_depth (p : structural_parser) (d : Z) : structural_parser :=
  {| buf := buf p; next_structural := next_structural p;
     dom_parser := dom_parser p; depth := d |}.

(** Modelled from the spec: a builder that maintains the nesting depth of
    section 3, incremented on each entered container and decremented on each
    closed container; it is the part of the tape builder, which is outside
    of the excerpt, that [finish] depends on. *)
Definition depth_builder : Builder unit :=
  fun ev p b =>
    match ev with
    | start_object | start_array
    | start_object_field _ | start_array_field _ =>
        (SUCCESS, (with_depth p (uint32_t (depth p + 1)), b))
    | end_object | end_array | try_end_object | try_end_array =>
        (SUCCESS, (with_depth p (uint32_t (depth p - 1)), b))
    | _ => (SUCCESS, (p, b))
    end.

(** ** The positions of the cursor *)

Fixpoint nondecreasing (l : list Z) : Prop :=
  match l with
  | a :: (b :: _) as rest => a <= b /\ nondecreasing rest
  | _ => True
  end.

Section Cursor.

Context {T : Type}.

(** The machine a part of [parse] is left with. *)
Definition machine_of {A : Type} (r : result T A) : machine T :=
  match r with
  | Continue _ m => m
  | Return _ m => m
  | Undefined m => m
  end.

(** The cursor has not moved back since it was at [start], and is where
    its last move has put it. *)
Definition walking (start : Z) (m : machine T) : Prop :=
  nondecreasing (start :: moves m)
  /\ last (start :: moves m) start = next_structural (parser m).

(** The cursor has moved back once, by one, as its last move: it went to
    [c + 1] over a structural byte that ends the document, and back to [c],
    where it is. *)
Definition backed_up (start : Z) (m : machine T) : Prop :=
  exists before c byte,
    moves m = before ++ [c + 1; c]
    /\ nondecreasing (start :: before ++ [c + 1])
    /\ next_structural (parser m) = c
    /\ structural_byte m byte
    /\ ends_document byte.

End Cursor.

(** ** Termination *)

Section Rank.

Context {T : Type}.

(** The entries of the index array from the cursor on. *)
Definition remaining (m : machine T) : nat :=
  Z.to_nat (Z.of_nat (length (structural_indexes (dom_parser (parser m))))
            - next_structural (parser m)).

(** A bound on the number of states still to run. *)
Definition rank (l : label) (m : machine T) : nat :=
  match l with
  | document_end => 0
  | array_value => 2 * remaining m + 2
  | _ => 2 * remaining m + 1
  end.

(** The cursor is where it was when the state was entered. *)
Definition not_advanced (k : Z) (len : nat) (m : machine T) : Prop :=
  next_structural (parser m) = k
  /\ length (structural_indexes (dom_parser (parser m))) = len.

(** The cursor has advanced, within the index array, since the state was
    entered. *)
Definition advanced (k : Z) (len : nat) (m : machine T) : Prop :=
  k + 1 <= next_structural (parser m)
  /\ length (structural_indexes (dom_parser (parser m))) = len
  /\ 0 <= k < Z.of_nat len.

End Rank.

(** ** Comparing builders *)

(** A machine without the state of its builder and without its depth. *)
Definition erase {T : Type} (m : machine T) : machine unit :=
  {| parser := with_depth (parser m) 0; builder := tt; value := value m;
     trace := trace m; moves := moves m |}.

Definition erase_result {T A : Type} (r : result T A) : result unit A :=
  match r with
  | Continue a m => Continue a (erase m)
  | Return e m => Return e (erase m)
  | Undefined m => Undefined (erase m)
  end.

(** What [finish] makes of the [SUCCESS] of a call when the depth it finds
    is [d]. *)
Definition checked_at_depth (d : Z) (o : outcome) : outcome :=
  match o with
  | returns SUCCESS => returns (if d =? 0 then SUCCESS else TAPE_ERROR)
  | _ => o
  end.

(** [c] does to a machine what [c'] does to it once its builder is
    replaced by [noop_builder]. *)
Definition simulates {T A : Type} (c : M T A) (c' : M unit A) : Prop :=
  forall m, erase_result (c m) = c' (erase m).

(** ** Inputs *)

(** Modelled from the spec: what stage 1, which is outside of the excerpt,
    hands to stage 2 (sections 3, 4.1 and 6): the document followed by 64
    bytes of padding, and the structural indexes followed by an entry that
    points at the first padding byte, so that one [advance] after the last
    real index is safe and yields the sentinel. *)
Definition stage1 (document : list byte) (indexes : list Z) : dom_parser_implementation :=
  let len := Z.of_nat (length document) in
  {| input_buf := document ++ repeat x00 64;
     structural_indexes := indexes ++ [len];
     n_structural_indexes := Z.of_nat (length indexes);
     next_structural_index := 0 |}.

(** [{"a":1,"b":[true,null]}] *)
Definition scenario1_document : list byte :=
  ["{"; quote; "a"; quote; ":"; "1"; ",";
   quote; "b"; quote; ":"; "["; "t"; "r"; "u"; "e"; ","; "n"; "u"; "l"; "l"; "]"; "}"]%byte.

Definition scenario1 : dom_parser_implementation :=
  stage1 scenario1_document [0; 1; 4; 5; 6; 7; 10; 11; 12; 16; 17; 21; 22].

(** The callbacks invoked during a call, in order. *)
Definition events {T : Type} (r : outcome * machine T) : list event :=
  map fst (trace (snd r)).

(** [[[1]], an array that is not closed. *)
Definition unclosed_array : dom_parser_implementation :=
  stage1 ["["; "["; "1"; "]"]%byte [0; 1; 2; 3].

(** [1 2], two documents. *)
Definition two_numbers : dom_parser_implementation :=
  stage1 ["1"; " "; "2"]%byte [0; 2].

(** [[1,2], an array cut short. *)
Definition truncated_array : dom_parser_implementation :=
  stage1 ["["; "1"; ","; "2"]%byte [0; 1; 2; 3].

(** [1 2 3], three documents for a streaming session. *)
Definition one_two_three : dom_parser_implementation :=
  stage1 ["1"; " "; "2"; " "; "3"]%byte [0; 2; 4].

(** The session as a call leaves it to the next call. *)
Definition session {T : Type} (r : outcome * machine T) : dom_parser_implementation :=
  dom_parser (parser (snd r)).

(** The streaming call that follows the call that gave [r]. *)
Definition parse_next {T : Type} (B : Builder T) (fuel : nat)
    (r : outcome * machine T) : outcome * machine T :=
  parse B true fuel (session r) (builder (snd r)).

(** [[],1], an empty array and then a comma and a number. *)
Definition array_comma_number : dom_parser_implementation :=
  stage1 ["["; "]"; ","; "1"]%byte [0; 1; 2; 3].

(** [[],1]], an empty array and then a comma, a number and a bracket. *)
Definition array_comma_number_bracket : dom_parser_implementation :=
  stage1 ["["; "]"; ","; "1"; "]"]%byte [0; 1; 2; 3; 4].

(** [{"a":1} 2], an object and then a number. *)
Definition object_number : dom_parser_implementation :=
  stage1 ["{"; quote; "a"; quote; ":"; "1"; "}"; " "; "2"]%byte [0; 1; 4; 5; 6; 8].

(** [[[1],"a","b"]], strings after a nested array. *)
Definition nested_then_strings : dom_parser_implementation :=
  stage1 ["["; "["; "1"; "]"; ","; quote; "a"; quote; ",";
          quote; "b"; quote; "]"]%byte
         [0; 1; 2; 3; 4; 5; 8; 9; 12].

(** ** Documents, as the specification has them *)

(** The structural bytes of a session, in order. *)
Definition structural_bytes (dp : dom_parser_implementation) : list (option byte) :=
  map (fun i => index (input_buf dp) i)
      (firstn (Z.to_nat (n_structural_indexes dp)) (structural_indexes dp)).

(** A byte that starts a scalar: a structural byte that is no bracket,
    brace, comma or colon. *)
Definition starts_scalar (c : byte) : bool :=
  negb ((c == "{") || (c == "}") || (c == "[") || (c == "]")
        || (c == ",") || (c == ":")).

Inductive value_kind : Type :=
| scalar
| empty_container
| container.

(** The state that follows an element of an array: [generic_next] after
    a container that is not empty, [array_next] after a scalar, and after
    an empty container the state that the separator before it was read in,
    since [generic_next] sends a bracket or a brace to the states that
    come back to it.  [generic] tells [generic_next]. *)
Definition then_generic (generic : bool) (k : value_kind) : bool :=
  match k with
  | scalar => false
  | empty_container => generic
  | container => true
  end.

(** The grammar of JSON over structural bytes, after section 4.2.
    [take_value] takes one value off the front of [ts] and gives its kind
    and what is left; [take_members] takes the rest of an object from the
    colon that follows a key; [take_elements] takes the rest of an array
    from its first element, and [take_tail] from the separator that
    follows an element, [generic] telling whether that separator is read
    by [generic_next].  When [strict] is set, a string that follows a
    separator read by [generic_next] is taken only as the last element of
    its array: then a string which is not the last element and comes
    after a container that is not empty, with nothing or only empty
    containers in between, is not taken. *)
Fixpoint take_value (strict : bool) (fuel : nat) (ts : list byte)
  : option (value_kind * list byte) :=
  match fuel with
  | O => None
  | S fuel' =>
      match ts with
      | [] => None
      | c :: rest =>
          if c == "{" then
            match rest with
            | [] => None
            | c' :: rest' =>
                if c' == "}" then Some (empty_container, rest')
                else if c' == quote then
                  match take_members strict fuel' rest' with
                  | Some remains => Some (container, remains)
                  | None => None
                  end
                else None
            end
          else if c == "[" then
            match rest with
            | [] => None
            | c' :: rest' =>
                if c' == "]" then Some (empty_container, rest')
                else
                  match take_elements strict fuel' rest with
                  | Some remains => Some (container, remains)
                  | None => None
                  end
            end
          else if starts_scalar c then Some (scalar, rest)
          else None
      end
  end
with take_members (strict : bool) (fuel : nat) (ts : list byte)
  : option (list byte) :=
  match fuel with
  | O => None
  | S fuel' =>
      match ts with
      | colon :: rest =>
          if colon == ":" then
            match take_value strict fuel' rest with
            | Some (_, c :: rest') =>
                if c == "}" then Some rest'
                else if c == "," then
                  match rest' with
                  | key :: rest'' =>
                      if key == quote then take_members strict fuel' rest''
                      else None
                  | [] => None
                  end
                else None
            | _ => None
            end
          else None
      | [] => None
      end
  end
with take_elements (strict : bool) (fuel : nat) (ts : list byte)
  : option (list byte) :=
  match fuel with
  | O => None
  | S fuel' =>
      match take_value strict fuel' ts with
      | Some (k, rest) => take_tail strict fuel' (then_generic false k) rest
      | None => None
      end
  end
with take_tail (strict : bool) (fuel : nat) (generic : bool)
    (ts : list byte) : option (list byte) :=
  match fuel with
  | O => None
  | S fuel' =>
      match ts with
      | [] => None
      | c :: rest =>
          if c == "]" then Some rest
          else if c == "," then
            match rest with
            | [] => None
            | c' :: rest' =>
                if strict && generic && (c' == quote) then
                  match rest' with
                  | c'' :: rest'' => if c'' == "]" then Some rest'' else None
                  | [] => None
                  end
                else
                  match take_value strict fuel' rest with
                  | Some (k, rest1) =>
                      take_tail strict fuel' (then_generic generic k) rest1
                  | None => None
                  end
            end
          else None
      end
  end.

(** The input holds one complete top-level value followed by residual
    structurals. *)
Definition value_then_residual (strict : bool) (dp : dom_parser_implementation)
    (value residual : list byte) (k : value_kind) : Prop :=
  structural_bytes dp = map Some (value ++ residual)
  /\ (exists fuel, take_value strict fuel (value ++ residual) = Some (k, residual))
  /\ residual <> [].

(** ** The walk over structural bytes *)

(** What a state of [parse] does when every callback succeeds, told on the
    structural bytes from the cursor on, [ts], and on the byte [vb] that
    [value] points at: the state it jumps to, the structural bytes then
    left, and the byte [value] then points at. *)
Definition token_step (l : label) (ts : list byte) (vb : byte)
  : option (label * list byte * byte) :=
  match l with
  | generic_object_begin =>
      match ts with
      | c :: ts1 =>
          if c == "}" then Some (generic_next, ts1, c)
          else if c == quote then Some (object_colon, ts1, c)
          else None
      | [] => None
      end
  | object_colon =>
      match ts with
      | c :: ts1 => if negb (c == ":") then None else Some (object_value, ts1, vb)
      | [] => None
      end
  | object_value =>
      match ts with
      | c :: ts1 =>
          if c == "{" then
            match ts1 with
            | c1 :: ts2 =>
                if c1 == "}" then Some (object_next, ts2, c1)
                else if c1 == quote then Some (object_colon, ts2, c1)
                else None
            | [] => None
            end
          else if c == "[" then
            match ts1 with
            | c1 :: ts2 =>
                if c1 == "]" then Some (object_next, ts2, c1)
                else Some (array_value, ts2, c1)
            | [] => None
            end
          else Some (object_next, ts1, c)
      | [] => None
      end
  | object_next =>
      match ts with
      | c :: ts1 =>
          if c == "," then
            match ts1 with
            | c1 :: ts2 =>
                if negb (c1 == quote) then None else Some (object_colon, ts2, c1)
            | [] => None
            end
          else if c == "}" then Some (generic_next, ts1, vb)
          else None
      | [] => None
      end
  | generic_array_begin =>
      match ts with
      | c :: ts1 =>
          if c == "]" then Some (generic_next, ts1, c)
          else Some (array_value, ts1, c)
      | [] => None
      end
  | array_value =>
      if vb == "{" then
        match ts with
        | c :: ts1 =>
            if c == "}" then Some (array_next, ts1, c)
            else if c == quote then Some (object_colon, ts1, c)
            else None
        | [] => None
        end
      else if vb == "[" then
        match ts with
        | c :: ts1 =>
            if c == "]" then Some (array_next, ts1, c)
            else Some (array_value, ts1, c)
        | [] => None
        end
      else Some (array_next, ts, vb)
  | array_next =>
      match ts with
      | c :: ts1 =>
          if c == "," then
            match ts1 with
            | c1 :: ts2 => Some (array_value, ts2, c1)
            | [] => None
            end
          else if c == "]" then Some (generic_next, ts1, vb)
          else None
      | [] => None
      end
  | generic_next =>
      match ts with
      | c :: ts1 =>
          if c == "," then
            match ts1 with
            | c1 :: ts2 =>
                if c1 == quote then
                  match ts2 with
                  | c2 :: ts3 =>
                      if c2 == ":" then Some (object_value, ts3, c1)
                      else if c2 == "," then Some (array_value, ts3, c1)
                      else if c2 == "]" then Some (generic_next, ts3, c1)
                      else None
                  | [] => None
                  end
                else if c1 == "[" then Some (generic_array_begin, ts2, c1)
                else if c1 == "{" then Some (generic_object_begin, ts2, c1)
                else Some (array_value, ts2, c1)
            | [] => None
            end
          else if c == "]" then Some (generic_next, ts1, vb)
          else if c == "}" then Some (generic_next, ts1, vb)
          else Some (document_end, ts, vb)
      | [] => None
      end
  | document_end => None
  end.

(** The states [token_step] leads through. *)
Inductive token_steps
  : label * list byte * byte -> label * list byte * byte -> Prop :=
| token_steps_done (s : label * list byte * byte) : token_steps s s
| token_steps_next (l : label) (ts : list byte) (vb : byte)
    (s1 s2 : label * list byte * byte) :
    token_step l ts vb = Some s1 ->
    token_steps s1 s2 ->
    token_steps (l, ts, vb) s2.

(** The machine [m], of a call on [dp] with [noop_builder], has its
    cursor before the structural bytes [ts], the last of [all], and its
    [value] at a byte [vb]. *)
Definition represents (dp : dom_parser_implementation) (all ts : list byte)
    (vb : byte) (m : machine unit) : Prop :=
  exists k : nat,
    parser m = with_next_structural (new_structural_parser dp 0) (Z.of_nat k)
    /\ skipn k all = ts
    /\ index (input_buf dp) (value m) = Some vb.

(** The state a value leaves an array in, and an object. *)
Definition after_element (k : value_kind) : label :=
  match k with
  | container => generic_next
  | _ => array_next
  end.

(** The state that reads the separator after an element. *)
Definition separator (generic : bool) : label :=
  if generic then generic_next else array_next.

Definition after_member (k : value_kind) : label :=
  match k with
  | container => generic_next
  | _ => object_next
  end.

(** What the grammar, with [fuel], promises of the walk: a value that is
    taken is walked, from the state that meets it to the state that
    follows it, with what is left of the structural bytes. *)
Definition walks (fuel : nat) : Prop :=
  (forall c ts k rest,
      take_value true fuel (c :: ts) = Some (k, rest) ->
      exists vb', token_steps (array_value, ts, c) (after_element k, rest, vb'))
  /\ (forall ts vb k rest,
        take_value true fuel ts = Some (k, rest) ->
        exists vb', token_steps (object_value, ts, vb) (after_member k, rest, vb'))
  /\ (forall c ts vb k rest,
        (c == "{") = true ->
        take_value true fuel (c :: ts) = Some (k, rest) ->
        exists vb', token_steps (generic_object_begin, ts, vb) (generic_next, rest, vb'))
  /\ (forall c ts vb k rest,
        (c == "[") = true ->
        take_value true fuel (c :: ts) = Some (k, rest) ->
        exists vb', token_steps (generic_array_begin, ts, vb) (generic_next, rest, vb'))
  /\ (forall ts vb rest,
        take_members true fuel ts = Some rest ->
        exists vb', token_steps (object_colon, ts, vb) (generic_next, rest, vb'))
  /\ (forall c key ts vb rest,
        (c == ",") = true ->
        (key == quote) = true ->
        take_members true fuel ts = Some rest ->
        exists vb',
          token_steps (generic_next, c :: key :: ts, vb) (generic_next, rest, vb'))
  /\ (forall c ts rest,
        take_elements true fuel (c :: ts) = Some rest ->
        exists vb', token_steps (array_value, ts, c) (generic_next, rest, vb'))
  /\ (forall generic ts vb rest,
        take_tail true fuel generic ts = Some rest ->
        exists vb', token_steps (separator generic, ts, vb) (generic_next, rest, vb')).

(** ** The scenarios of the specification *)

(** The callbacks that section 8 lists for [{"a":1,"b":[true,null]}]:
    [sd, so, saf("a"), p(1), pf("b"), sa, p(true), p(null), ea, eo, ed],
    where the field of ["a"] is started by one of the two callbacks that
    start a field and the value passed with ["b"] is left open. *)
Definition scenario1_events_as_specified (evs : list event) : Prop :=
  exists (start_field : Z -> event) (v : Z),
    (start_field = start_object_field \/ start_field = start_array_field)
    /\ evs = [start_document; start_object; start_field 1; primitive 5;
              primitive_field 7 v; start_array; primitive 12; primitive 17;
              end_array; end_object; end_document].

(** ** The phases of a call *)

(** The callbacks of the states of [parse] from [generic_object_begin] to
    [generic_next]: all but [start_document], [root_primitive] and
    [end_document], which the start of the document, the first value and
    [document_end] invoke. *)
Definition is_inner_event (ev : event) : bool :=
  match ev with
  | start_document | root_primitive _ | end_document => false
  | _ => true
  end.

Section Phases.

Context {T : Type}.
Variable B : Builder T.
Variable STREAMING : bool.

(** What a call goes through: [I0] holds when [parse] is entered, [I1]
    once [start_document] has returned, [I2] once the first structural has
    been read, [I] in the states from [generic_object_begin] to
    [generic_next], [J] on arrival at [document_end], and [R] of every way
    [parse] is left. *)
Record phases (I0 I1 I2 I J : machine T -> Prop)
    (R : outcome -> machine T -> Prop) : Prop := {
  ph_empty : forall m, I0 m -> R (returns EMPTY) m;
  ph_start : triple I0 (TRY B start_document) (fun _ => I1) R;
  ph_first : forall m i,
    I1 m ->
    index (structural_indexes (dom_parser (parser m))) (next_structural (parser m)) = Some i ->
    I2 (move_to m (next_structural (parser m) + 1));
  ph_first_unread : forall m, I1 m -> R undefined m;
  ph_first_value : forall m v,
    I2 m ->
    I2 {| parser := parser m; builder := builder m; value := v;
          trace := trace m; moves := moves m |};
  ph_first_undefined : forall m, I2 m -> R undefined m;
  ph_outer_array : forall m, I2 m -> R (returns TAPE_ERROR) m;
  ph_enter : forall m, I2 m -> I m;
  ph_root_primitive : forall v, triple I2 (TRY B (root_primitive v)) (fun _ => J) R;
  ph_advance : forall m i,
    I m ->
    index (structural_indexes (dom_parser (parser m))) (next_structural (parser m)) = Some i ->
    I (move_to m (next_structural (parser m) + 1));
  ph_set_value : forall m v,
    I m ->
    I {| parser := parser m; builder := builder m; value := v;
         trace := trace m; moves := moves m |};
  ph_call : forall ev,
    is_inner_event ev = true -> triple I (TRY B ev) (fun _ => I) R;
  ph_back_up : backs_up I J;
  ph_tape_error : forall m, I m -> R (returns TAPE_ERROR) m;
  ph_undefined : forall m, I m -> R undefined m;
  ph_no_fuel : forall m, I m -> R out_of_fuel m;
  ph_no_fuel_end : forall m, J m -> R out_of_fuel m;
  ph_end : triple J (step B STREAMING document_end) (fun _ _ => False) R
}.

End Phases.

(** ** The order of the callbacks *)

(** The callbacks of a call, as the driver orders them: none; or
    [start_document], at most one [root_primitive] and at most one
    [end_document]; or [start_document], callbacks of the states of
    [parse], and at most one [end_document]. *)
Definition in_order (evs : list event) : Prop :=
  evs = []
  \/ (exists v, evs = [start_document; root_primitive v]
                \/ evs = [start_document; root_primitive v; end_document])
  \/ (exists body,
        Forall (fun ev => is_inner_event ev = true) body
        /\ (evs = start_document :: body
            \/ evs = start_document :: body ++ [end_document])).

Section Callbacks.

Context {T : Type}.

(** [start_document] has been invoked, and nothing else. *)
Definition started (m : machine T) : Prop := map fst (trace m) = [start_document].

(** [start_document] has been invoked, and then callbacks of the states
    of [parse] only. *)
Definition inside (m : machine T) : Prop :=
  exists body,
    map fst (trace m) = start_document :: body
    /\ Forall (fun ev => is_inner_event ev = true) body.

(** The callbacks invoked when [document_end] is reached. *)
Definition ending (m : machine T) : Prop :=
  inside m \/ exists v, map fst (trace m) = [start_document; root_primitive v].

(** ** The session *)



End Callbacks.

(** ** The two modes *)

(** What the non-streaming call makes of the result of the streaming
    call: a [SUCCESS] that leaves structurals is a [TAPE_ERROR]. *)
Definition residual_check {T : Type} (r : outcome * machine T) : outcome * machine T :=
  match fst r with
  | returns SUCCESS =>
      if next_structural_index (dom_parser (parser (snd r)))
         =? n_structural_indexes (dom_parser (parser (snd r)))
      then r
      else (returns TAPE_ERROR, snd r)
  | _ => r
  end.

(** ** The progress of a streaming session *)

(** The session [dp] with [next_structural_index] set to [k]. *)
Definition resumed_at (dp : dom_parser_implementation) (k : Z)
  : dom_parser_implementation :=
  {| input_buf := input_buf dp;
     structural_indexes := structural_indexes dp;
     n_structural_indexes := n_structural_indexes dp;
     next_structural_index := k |}.

Section Progress.

Context {T : Type}.
Variable dp : dom_parser_implementation.

(** The cursor is where the session starts. *)
Definition at_start (m : machine T) : Prop :=
  next_structural (parser m) = next_structural_index dp
  /\ dom_parser (parser m) = dp.

(** The cursor is past the structural the session starts at, and not past
    the index array. *)
Definition moved_on (m : machine T) : Prop :=
  next_structural_index dp + 1 <= next_structural (parser m)
    <= Z.of_nat (length (structural_indexes dp))
  /\ dom_parser (parser m) = dp.

(** A call that returns [SUCCESS] has moved the session on. *)
Definition session_moved_on (o : outcome) (m : machine T) : Prop :=
  o = returns SUCCESS ->
  exists k,
    next_structural_index dp < k <= Z.of_nat (length (structural_indexes dp))
    /\ dom_parser (parser m) = resumed_at dp k.

End Progress.

(** ** The memory of a session, read through the index array *)

(** The index array of [dp] leads to the bytes [all], in order: entry [k]
    of the array is an offset into the buffer, at which the byte is the
    [k]-th of [all]. *)
Definition indexed (dp : dom_parser_implementation) (all : list byte) : Prop :=
  forall (k : nat) (c : byte),
    nth_error all k = Some c ->
    exists i,
      index (structural_indexes dp) (Z.of_nat k) = Some i
      /\ index (input_buf dp) i = Some c.

(** ** Padding *)

(** A byte of padding: no structural character and no quote. *)
Definition is_padding (c : byte) : bool :=
  starts_scalar c && negb (c == quote).

(** The bytes [ts] end with two bytes of padding. *)
Fixpoint padded (ts : list byte) : bool :=
  match ts with
  | [] => false
  | c :: ts' =>
      match ts' with
      | [] => false
      | [p] => is_padding c && is_padding p
      | _ => padded ts'
      end
  end.

(** The bytes [ts] are one byte of padding. *)
Definition one_padding (ts : list byte) : bool :=
  match ts with
  | [p] => is_padding p
  | _ => false
  end.

(** The structural bytes [ts] from the cursor on, and the byte [vb] that
    [value] points at, with which the state [l] reads no further than the
    two bytes of padding at the end of [ts]. *)
Definition in_bounds (l : label) (ts : list byte) (vb : byte) : Prop :=
  match l with
  | object_value | generic_array_begin => padded ts = true
  | array_value =>
      padded ts = true \/ (one_padding ts = true /\ (vb == "[") = false)
  | document_end => True
  | _ => padded ts = true \/ one_padding ts = true
  end.

(** [[1,], an array cut after a comma, as stage 1 hands it over, and with
    a second index entry that points at the padding. *)
Definition array_cut_after_comma : dom_parser_implementation :=
  stage1 ["["; "1"; ","]%byte [0; 1; 2].

Definition array_cut_after_comma_padded : dom_parser_implementation :=
  {| input_buf := input_buf array_cut_after_comma;
     structural_indexes := [0; 1; 2; 3; 3];
     n_structural_indexes := 3;
     next_structural_index := 0 |}.

(** [{"a":], an object cut after a colon. *)
Definition object_cut_after_colon : dom_parser_implementation :=
  stage1 ["{"; quote; "a"; quote; ":"]%byte [0; 1; 4].

(** ** A session of streaming calls *)

(** [calls] streaming calls in a row, each on the session and with the
    builder that the call before it has left. *)
Fixpoint session_calls {T : Type} (B : Builder T) (fuel : nat) (calls : nat)
    (dp : dom_parser_implementation) (b : T) : list (outcome * machine T) :=
  match calls with
  | O => []
  | S calls' =>
      let r := parse B true fuel dp b in
      r :: session_calls B fuel calls' (session r) (builder (snd r))
  end.

(** Where each of the documents [docs] ends, counted in structurals from
    [start]. *)
Fixpoint document_ends (start : Z) (docs : list (list byte)) : list Z :=
  match docs with
  | [] => []
  | d :: docs' =>
      (start + Z.of_nat (length d))
        :: document_ends (start + Z.of_nat (length d)) docs'
  end.

(** The structural bytes [doc] are one complete value that [parse]
    walks. *)
Definition one_value (doc : list byte) : Prop :=
  exists fuel k, take_value true fuel doc = Some (k, []).

(** ** Where a code comes from *)

(** The code a call returns is one of the three that the driver gives,
    [EMPTY] before any callback, [TAPE_ERROR], or [SUCCESS] after
    [end_document] has returned [SUCCESS], or else it is the error that
    the last callback has returned. *)
Definition from_driver_or_last_callback {T : Type} (o : outcome) (m : machine T)
  : Prop :=
  match o with
  | returns e =>
      (e = EMPTY /\ trace m = [])
      \/ e = TAPE_ERROR
      \/ (e = SUCCESS /\ exists t, trace m = t ++ [(end_document, SUCCESS)])
      \/ (e <> SUCCESS /\ exists t ev, trace m = t ++ [(ev, e)])
  | _ => True
  end.

(** ** The pointers handed to the builder *)

(** What the pointers of a callback point at in the buffer [bf]: a key at
    a quote, the string that [try_resume_array] is given at a quote, and
    a value at a byte of the buffer. *)
Definition pointers_ok (bf : list byte) (ev : event) : Prop :=
  match ev with
  | root_primitive v | primitive v => exists c, index bf v = Some c
  | empty_object_field key | start_object_field key
  | empty_array_field key | start_array_field key => index bf key = Some quote
  | primitive_field key v =>
      index bf key = Some quote /\ exists c, index bf v = Some c
  | try_resume_array_value v => index bf v = Some quote
  | _ => True
  end.

Section Pointers.

Context {T : Type}.
Variable bf : list byte.

(** The buffer is [bf], the pointers handed out so far are right, and
    [value] points at the byte [vk], when one is given. *)
Definition known (vk : option byte) (m : machine T) : Prop :=
  buf (parser m) = bf
  /\ Forall (fun x => pointers_ok bf (fst x)) (trace m)
  /\ match vk with
     | Some c => index bf (value m) = Some c
     | None => True
     end.

(** The pointers handed out during the call are right. *)
Definition pointers_so_far (o : outcome) (m : machine T) : Prop :=
  Forall (fun x => pointers_ok bf (fst x)) (trace m).

(** What is known of [value] on arrival at a state: in [object_colon]
    and [object_value] it points at the quote of a key. *)
Definition key_at (l : label) : option byte :=
  match l with
  | object_colon | object_value => Some quote
  | _ => None
  end.

End Pointers.

Arguments known T bf vk m : clear implicits.
Arguments pointers_so_far T bf o m : clear implicits.

(** ** The nesting that the callbacks tell *)

(** What a callback tells of the nesting: 1 when a container is entered,
    -1 when one is left, 0 otherwise. *)
Definition opens (ev : event) : Z :=
  match ev with
  | start_object | start_array | start_object_field _ | start_array_field _ => 1
  | end_object | end_array | try_end_object | try_end_array => -1
  | _ => 0
  end.

(** The containers entered and not left, by the callbacks [evs]. *)
Definition balance (evs : list event) : Z :=
  fold_right (fun ev z => opens ev + z) 0 evs.

(** The builder keeps in [depth] the nesting that its callbacks tell. *)
Definition counts_depth {T : Type} (B : Builder T) : Prop :=
  forall ev p b,
    depth (fst (snd (B ev p b)))
    = if opens ev =? 0 then depth p else uint32_t (depth p + opens ev).

(** What the callbacks of a state tell of the nesting, when every one of
    them succeeds: the sum of [opens] over the callbacks that the state
    invokes on the structural bytes [ts] with [value] at the byte [vb]. *)
Definition token_balance (l : label) (ts : list byte) (vb : byte) : Z :=
  match l with
  | generic_object_begin =>
      match ts with
      | c :: _ => if c == "}" then 0 else 1
      | [] => 0
      end
  | object_value =>
      match ts with
      | c :: ts1 =>
          if c == "{" then
            match ts1 with
            | c1 :: _ => if c1 == "}" then 0 else 1
            | [] => 0
            end
          else if c == "[" then
            match ts1 with
            | c1 :: _ => if c1 == "]" then 0 else 1
            | [] => 0
            end
          else 0
      | [] => 0
      end
  | object_next =>
      match ts with
      | c :: _ => if c == "," then 0 else -1
      | [] => 0
      end
  | generic_array_begin =>
      match ts with
      | c :: _ => if c == "]" then 0 else 1
      | [] => 0
      end
  | array_value =>
      if vb == "{" then
        match ts with
        | c :: _ => if c == "}" then 0 else 1
        | [] => 0
        end
      else if vb == "[" then
        match ts with
        | c :: _ => if c == "]" then 0 else 1
        | [] => 0
        end
      else 0
  | array_next =>
      match ts with
      | c :: _ => if c == "," then 0 else -1
      | [] => 0
      end
  | generic_next =>
      match ts with
      | c :: ts1 =>
          if c == "," then
            match ts1 with
            | c1 :: ts2 =>
                if c1 == quote then
                  match ts2 with
                  | c2 :: _ => if c2 == "]" then -1 else 0
                  | [] => 0
                  end
                else 0
            | [] => 0
            end
          else if c == "]" then -1
          else if c == "}" then -1
          else 0
      | [] => 0
      end
  | _ => 0
  end.

(** The states [token_step] leads through, with what their callbacks
    tell of the nesting. *)
Inductive balanced_steps
  : label * list byte * byte -> label * list byte * byte -> Z -> Prop :=
| balanced_done (s : label * list byte * byte) : balanced_steps s s 0
| balanced_next (l : label) (ts : list byte) (vb : byte)
    (s1 s2 : label * list byte * byte) (z : Z) :
    token_step l ts vb = Some s1 ->
    balanced_steps s1 s2 z ->
    balanced_steps (l, ts, vb) s2 (token_balance l ts vb + z).

(** What the grammar, with [fuel], promises of the nesting: the callbacks
    of the walk of a value tell as many containers entered as left, and
    those of the walk of the rest of a container tell one more left. *)
Definition walks_balanced (fuel : nat) : Prop :=
  (forall c ts k rest,
      take_value true fuel (c :: ts) = Some (k, rest) ->
      exists vb', balanced_steps (array_value, ts, c) (after_element k, rest, vb') 0)
  /\ (forall ts vb k rest,
        take_value true fuel ts = Some (k, rest) ->
        exists vb', balanced_steps (object_value, ts, vb) (after_member k, rest, vb') 0)
  /\ (forall c ts vb k rest,
        (c == "{") = true ->
        take_value true fuel (c :: ts) = Some (k, rest) ->
        exists vb',
          balanced_steps (generic_object_begin, ts, vb) (generic_next, rest, vb') 0)
  /\ (forall c ts vb k rest,
        (c == "[") = true ->
        take_value true fuel (c :: ts) = Some (k, rest) ->
        exists vb',
          balanced_steps (generic_array_begin, ts, vb) (generic_next, rest, vb') 0)
  /\ (forall ts vb rest,
        take_members true fuel ts = Some rest ->
        exists vb', balanced_steps (object_colon, ts, vb) (generic_next, rest, vb') (-1))
  /\ (forall c key ts vb rest,
        (c == ",") = true ->
        (key == quote) = true ->
        take_members true fuel ts = Some rest ->
        exists vb',
          balanced_steps (generic_next, c :: key :: ts, vb) (generic_next, rest, vb')
            (-1))
  /\ (forall c ts rest,
        take_elements true fuel (c :: ts) = Some rest ->
        exists vb', balanced_steps (array_value, ts, c) (generic_next, rest, vb') (-1))
  /\ (forall generic ts vb rest,
        take_tail true fuel generic ts = Some rest ->
        exists vb',
          balanced_steps (separator generic, ts, vb) (generic_next, rest, vb') (-1)).

(** The depth of the parser is the nesting that the callbacks have told,
    as a [uint32_t]. *)
Definition depth_as_told {T : Type} (m : machine T) : Prop :=
  depth (parser m) = uint32_t (balance (map fst (trace m))).

(** [[[1],{}]], containers in an array. *)
Definition containers_in_array : dom_parser_implementation :=
  stage1 ["["; "["; "1"; "]"; ","; "{"; "}"; "]"]%byte [0; 1; 2; 3; 4; 5; 6; 7].

(** ** The depth and the callbacks *)

(** Every callback of [B] keeps [P], which relates the callbacks invoked
    so far with the codes they have returned, the state of the builder and
    the depth of the parser. *)
Definition maintains {T : Type} (B : Builder T)
    (P : list (event * error_code) -> T -> Z -> Prop) : Prop :=
  forall ev p b t,
    P t b (depth p) ->
    P (t ++ [(ev, fst (B ev p b))]) (snd (snd (B ev p b)))
      (depth (fst (snd (B ev p b)))).

(** [P] holds of the machine. *)
Definition depth_holds {T : Type}
    (P : list (event * error_code) -> T -> Z -> Prop) (m : machine T) : Prop :=
  P (trace m) (builder m) (depth (parser m)).

(** [{"x":1], an object that is not closed. *)
Definition unclosed_object : dom_parser_implementation :=
  stage1 ["{"; quote; "x"; quote; ":"; "1"]%byte [0; 1; 4; 5].

(** ** The one step back *)

(** The callbacks of a call that has come to [document_end] from
    [generic_next]: [start_document], callbacks of the states of [parse],
    and [end_document]. *)
Definition through_generic_next (evs : list event) : Prop :=
  exists body,
    evs = start_document :: body ++ [end_document]
    /\ Forall (fun ev => is_inner_event ev = true) body.

Section CursorPath.

Context {T : Type}.

(** The cursor has not moved back and [start_document] has been invoked,
    and nothing else. *)
Definition walking_started (start : Z) (m : machine T) : Prop :=
  walking start m /\ started m.

(** The cursor has not moved back, in the states of [parse]. *)
Definition walking_inside (start : Z) (m : machine T) : Prop :=
  walking start m /\ inside m.

(** On arrival at [document_end]: from [generic_next], the cursor has
    moved back once; from the first value, a scalar, it has not. *)
Definition arrived (start : Z) (m : machine T) : Prop :=
  (backed_up start m /\ inside m)
  \/ (walking start m
      /\ exists v, map fst (trace m) = [start_document; root_primitive v]).

(** How a call has moved the cursor: forwards only, unless it has come
    to [document_end] from [generic_next], and then forwards and once
    back, as its last move. *)
Definition cursor_path (start : Z) (o : outcome) (m : machine T) : Prop :=
  (walking start m /\ ~ through_generic_next (map fst (trace m)))
  \/ (backed_up start m
      /\ (through_generic_next (map fst (trace m))
          \/ (o = out_of_fuel /\ inside m))).

End CursorPath.

(** The cursor has moved back by one, somewhere among [positions]. *)
Definition one_step_back (positions : list Z) : Prop :=
  exists before c after, positions = before ++ [c + 1; c] ++ after.

(** ** Documents that are not walked *)

(** [[0,[1],[],"a","b"]], strings after a container and an empty one. *)
Definition number_containers_strings : dom_parser_implementation :=
  stage1 ["["; "0"; ","; "["; "1"; "]"; ","; "["; "]"; ",";
          quote; "a"; quote; ","; quote; "b"; quote; "]"]%byte
         [0; 1; 2; 3; 4; 5; 6; 7; 8; 9; 10; 13; 14; 17].

(** The structural bytes of [number_containers_strings]. *)
Definition number_containers_strings_bytes : list byte :=
  ["["; "0"; ","; "["; "1"; "]"; ","; "["; "]"; ","; quote; ","; quote; "]"]%byte.

(** From [s] the driver comes to [array_next] before a byte that is
    neither a comma nor a closing bracket. *)
Definition stops_at_an_element (s : label * list byte * byte) : Prop :=
  exists x ts vb,
    token_steps s (array_next, x :: ts, vb)
    /\ (x == ",") = false
    /\ (x == "]") = false.

(** What the grammar, with [fuel], tells of a value of JSON that is not
    taken when [strict] is set: its walk stops at an element. *)
Definition stops (fuel : nat) : Prop :=
  (forall c ts k rest,
      take_value false fuel (c :: ts) = Some (k, rest) ->
      take_value true fuel (c :: ts) = None ->
      stops_at_an_element (array_value, ts, c))
  /\ (forall ts vb k rest,
        take_value false fuel ts = Some (k, rest) ->
        take_value true fuel ts = None ->
        stops_at_an_element (object_value, ts, vb))
  /\ (forall c ts vb k rest,
        (c == "{") = true ->
        take_value false fuel (c :: ts) = Some (k, rest) ->
        take_value true fuel (c :: ts) = None ->
        stops_at_an_element (generic_object_begin, ts, vb))
  /\ (forall c ts vb k rest,
        (c == "[") = true ->
        take_value false fuel (c :: ts) = Some (k, rest) ->
        take_value true fuel (c :: ts) = None ->
        stops_at_an_element (generic_array_begin, ts, vb))
  /\ (forall ts vb rest,
        take_members false fuel ts = Some rest ->
        take_members true fuel ts = None ->
        stops_at_an_element (object_colon, ts, vb))
  /\ (forall c key ts vb rest,
        (c == ",") = true ->
        (key == quote) = true ->
        take_members false fuel ts = Some rest ->
        take_members true fuel ts = None ->
        stops_at_an_element (generic_next, c :: key :: ts, vb))
  /\ (forall c ts rest,
        take_elements false fuel (c :: ts) = Some rest ->
        take_elements true fuel (c :: ts) = None ->
        stops_at_an_element (array_value, ts, c))
  /\ (forall generic ts vb rest,
        take_tail false fuel generic ts = Some rest ->
        take_tail true fuel generic ts = None ->
        stops_at_an_element (separator generic, ts, vb)).

(** * Properties of the driver *)

(** ** Rules of the logic *)

Section Rules.

Context {T : Type}.

Lemma triple_ret {A : Type} (P : machine T -> Prop) (a : A) Q R :
  (forall m, P m -> Q a m) -> triple P (ret a) Q R.
Proof. intros H m Hm. now apply H. Qed.

Lemma triple_bind {A C : Type} (P : machine T -> Prop) (c : M T A)
    (k : A -> M T C) Q' Q R :
  triple P c Q' R ->
  (forall a, triple (Q' a) (k a) Q R) ->
  triple P (bind c k) Q R.
Proof.
  intros Hc Hk m Hm. unfold bind.
  specialize (Hc m Hm).
  destruct (c m) as [a m' | e m' | m']; auto.
  now apply Hk.
Qed.

Lemma triple_if {A : Type} (P : machine T -> Prop) (b : bool)
    (c1 c2 : M T A) Q R :
  (b = true -> triple P c1 Q R) ->
  (b = false -> triple P c2 Q R) ->
  triple P (if b then c1 else c2) Q R.
Proof. destruct b; auto. Qed.

Lemma triple_weaken {A : Type} (P P' : machine T -> Prop) (c : M T A)
    (Q Q' : A -> machine T -> Prop) R :
  triple P' c Q' R ->
  (forall m, P m -> P' m) ->
  (forall a m, Q' a m -> Q a m) ->
  triple P c Q R.
Proof.
  intros Hc HP HQ m Hm. specialize (Hc m (HP m Hm)).
  destruct (c m); auto.
Qed.

End Rules.

Lemma label_eq_document_end (l : label) : l = document_end \/ l <> document_end.
Proof. destruct l; first [now left | now right]. Qed.

(** ** Invariants of the walk *)

Section Invariant.

Context {T : Type}.
Variable B : Builder T.
Variable STREAMING : bool.
Variables I J : machine T -> Prop.
Variable R : outcome -> machine T -> Prop.
Hypothesis Inv : invariant B I J R.

Lemma triple_advance : triple I advance (fun _ => I) R.
Proof.
  intros m Hm. unfold advance.
  destruct (index _ _) as [i|] eqn:Hi.
  - now apply (inv_advance _ _ _ _ Inv m i).
  - now apply (inv_undefined _ _ _ _ Inv).
Qed.

Lemma triple_deref (p : Z) : triple I (deref p) (fun _ => I) R.
Proof.
  intros m Hm. unfold deref.
  destruct (index _ _); auto.
  now apply (inv_undefined _ _ _ _ Inv).
Qed.

Lemma triple_set_value (v : Z) : triple I (set_value v) (fun _ => I) R.
Proof. intros m Hm. now apply (inv_set_value _ _ _ _ Inv). Qed.

Lemma triple_get_value : triple I get_value (fun _ => I) R.
Proof. intros m Hm. exact Hm. Qed.

Lemma triple_advance_char : triple I advance_char (fun _ => I) R.
Proof.
  unfold advance_char.
  apply triple_bind with (Q' := fun _ => I).
  - apply triple_advance.
  - intros p. apply triple_deref.
Qed.

Lemma triple_advance_value : triple I advance_value (fun _ => I) R.
Proof.
  unfold advance_value.
  apply triple_bind with (Q' := fun _ => I); [apply triple_advance | intros v].
  apply triple_bind with (Q' := fun _ => I); [apply triple_set_value | intros _].
  apply triple_deref.
Qed.

Lemma triple_return_tape_error {A : Type} (Q : A -> machine T -> Prop) :
  triple I (return_ TAPE_ERROR) Q R.
Proof. intros m Hm. now apply (inv_tape_error _ _ _ _ Inv). Qed.

Lemma triple_goto (l : label) : triple I (goto l) (at_label I J) R.
Proof.
  apply triple_ret. intros m Hm. unfold at_label.
  destruct (label_is_document_end l); auto.
  now apply (inv_root _ _ _ _ Inv).
Qed.

Lemma triple_TRY (ev : event) :
  ev <> end_document -> triple I (TRY B ev) (fun _ => I) R.
Proof. apply (inv_call _ _ _ _ Inv). Qed.

(** The reads of [advance_char], remembered for the back-up. *)
Lemma triple_advance_char_read :
  triple I advance_char
    (fun c m' => I m' /\
       exists m, I m /\ structural_byte m c
                 /\ m' = move_to m (next_structural (parser m) + 1))
    R.
Proof.
  intros m Hm. unfold advance_char, bind, advance.
  destruct (index (structural_indexes _) _) as [i|] eqn:Hi;
    [|now apply (inv_undefined _ _ _ _ Inv)].
  unfold deref. cbn [parser move_to with_next_structural buf].
  destruct (index (buf (parser m)) i) as [c|] eqn:Hc.
  - split; [now apply (inv_advance _ _ _ _ Inv m i)|].
    exists m. repeat split; auto. now exists i.
  - apply (inv_undefined _ _ _ _ Inv).
    now apply (inv_advance _ _ _ _ Inv m i).
Qed.

Lemma triple_back_up (c : byte) :
  backs_up I J ->
  ends_document c ->
  triple (fun m' => exists m, I m /\ structural_byte m c
                     /\ m' = move_to m (next_structural (parser m) + 1))
         back_up (fun _ => J) R.
Proof.
  intros Hback Hc m' (m & Hm & Hb & ->). unfold back_up.
  cbn [parser move_to with_next_structural next_structural].
  now apply (Hback m c).
Qed.

Ltac walk :=
  repeat first
    [ apply triple_goto
    | apply triple_return_tape_error
    | apply triple_if; intros ?
    | apply triple_bind with (Q' := fun _ => I);
      [ first [ apply triple_advance_value | apply triple_advance_char
              | apply triple_advance | apply triple_deref
              | apply triple_get_value | apply triple_set_value
              | apply triple_TRY; discriminate ]
      | intros ? ] ].

(** Every state but [document_end] keeps the invariant; only
    [generic_next] backs up. *)
Lemma step_invariant (l : label) :
  l <> document_end ->
  (l = generic_next -> backs_up I J) ->
  triple I (step B STREAMING l) (at_label I J) R.
Proof.
  intros Hl Hback. destruct l; try congruence; cbn [step]; try solve [walk].
  specialize (Hback eq_refl).
  (* generic_next *)
  apply triple_bind with (1 := triple_advance_char_read). intros c.
  repeat (apply triple_if; intros ?);
    try (apply triple_weaken with (P' := I) (Q' := at_label I J);
         [ solve [walk] | now intros m [Hm _] | auto ]).
  apply triple_bind with (Q' := fun _ => J).
  - apply triple_weaken with (2 := fun m H => proj2 H) (3 := fun _ m H => H).
    apply triple_back_up; [assumption|]. repeat split; assumption.
  - intros _. apply triple_ret. auto.
Qed.

Lemma first_value_invariant :
  triple I (first_value B STREAMING) (at_label I J) R.
Proof.
  unfold first_value.
  apply triple_bind with (Q' := fun _ => I); [now intros m Hm | intros e].
  apply triple_if; intros _.
  { intros m Hm. now apply (inv_empty _ _ _ _ Inv). }
  walk.
  apply triple_bind with (Q' := fun _ => I); [|intros _; walk].
  apply triple_if; intros _; [|now apply triple_ret].
  apply triple_bind with (Q' := fun _ => I).
  - intros m Hm. unfold last_structural_char.
    destruct (index _ _); [now apply triple_deref|].
    now apply (inv_undefined _ _ _ _ Inv).
  - intros c. walk. now apply triple_ret.
Qed.

(** Whatever the fuel, [parse] is left in a state [R] allows. *)
Lemma run_invariant (fuel : nat) :
  backs_up I J ->
  ends B STREAMING J R ->
  forall l m, at_label I J l m ->
    R (fst (run B STREAMING fuel l m)) (snd (run B STREAMING fuel l m)).
Proof.
  intros Hback [Hfuel Hend].
  induction fuel as [|fuel IH]; intros l m Hm; cbn [run fst snd].
  - unfold at_label in Hm.
    destruct (label_is_document_end l); auto.
    now apply (inv_no_fuel _ _ _ _ Inv).
  - destruct l;
      try (match goal with
           | |- context [step B STREAMING ?l m] =>
               let H := fresh in
               assert (H := step_invariant l ltac:(discriminate) (fun _ => Hback) m Hm);
               destruct (step B STREAMING l m); auto
           end).
    assert (H := Hend m Hm).
    destruct (step B STREAMING document_end m); [contradiction | auto | auto].
Qed.

Lemma parse_from_invariant (fuel : nat) (m : machine T) :
  backs_up I J ->
  ends B STREAMING J R ->
  I m ->
  R (fst (parse_from B STREAMING fuel m)) (snd (parse_from B STREAMING fuel m)).
Proof.
  intros Hback Hend Hm. unfold parse_from.
  assert (H := first_value_invariant m Hm).
  destruct (first_value B STREAMING m); auto.
  now apply run_invariant.
Qed.

End Invariant.

(** ** The end of the document *)

Section DocumentEnd.

Context {T : Type}.
Variable B : Builder T.

(** [document_end] calls [end_document] and returns what [finish] finds. *)
Lemma step_document_end (STREAMING : bool) (m : machine T) :
  step B STREAMING document_end m =
  let '(e, (p, b)) := B end_document (parser m) (builder m) in
  if is_error e then
    Return e {| parser := p; builder := b; value := value m;
                trace := trace m ++ [(end_document, e)]; moves := moves m |}
  else
    Return (fst (finish STREAMING p))
           {| parser := snd (finish STREAMING p); builder := b; value := value m;
              trace := trace m ++ [(end_document, e)]; moves := moves m |}.
Proof.
  cbn [step]. unfold bind, TRY, return_finish.
  destruct (B end_document (parser m) (builder m)) as [e [p b]].
  destruct (is_error e); [reflexivity|].
  cbn [parser]. now destruct (finish STREAMING p).
Qed.

Lemma is_error_false (e : error_code) : is_error e = false -> e = SUCCESS.
Proof. now destruct e. Qed.

Lemma is_error_true (e : error_code) : is_error e = true -> e <> SUCCESS.
Proof. now destruct e. Qed.

Lemma finish_success (STREAMING : bool) (p : structural_parser) :
  fst (finish STREAMING p) = SUCCESS ->
  depth p = 0
  /\ snd (finish STREAMING p) = with_next_structural_index p (uint32_t (next_structural p))
  /\ (STREAMING = false ->
      uint32_t (next_structural p) = n_structural_indexes (dom_parser p)).
Proof.
  unfold finish. cbn [depth with_next_structural_index dom_parser
                      next_structural_index n_structural_indexes].
  destruct (depth p =? 0) eqn:Hd; cbn [negb]; [|discriminate].
  apply Z.eqb_eq in Hd.
  destruct STREAMING; cbn [negb andb].
  - intros _. repeat split; auto. discriminate.
  - destruct (uint32_t (next_structural p) =? _) eqn:Hn; cbn [negb]; [|discriminate].
    apply Z.eqb_eq in Hn. intros _. repeat split; auto.
Qed.

Lemma success_invariant :
  invariant B (fun _ => True) (fun _ => True)
    (fun o m => o = returns SUCCESS -> parsed_to_end B m).
Proof.
  constructor; auto; try discriminate.
  intros ev _ m _. unfold TRY.
  destruct (B ev (parser m) (builder m)) as [e [p b]].
  destruct (is_error e) eqn:He; auto.
  intros [= ->]. discriminate.
Qed.

Lemma success_ends :
  ends B false (fun _ => True)
    (fun o m => o = returns SUCCESS -> parsed_to_end B m).
Proof.
  split; [discriminate|].
  - intros m _. rewrite step_document_end.
    destruct (B end_document (parser m) (builder m)) as [e [p b]] eqn:HB.
    destruct (is_error e) eqn:He.
    + intros [= ->]. discriminate.
    + apply is_error_false in He. subst e. intros [= Hf].
      destruct (finish_success false p Hf) as (Hd & Hp & Hn).
      specialize (Hn eq_refl).
      unfold parsed_to_end. cbn [parser builder trace]. rewrite Hp.
      cbn [with_next_structural_index depth dom_parser next_structural_index
           n_structural_indexes].
      repeat split; auto.
      exists m, p. repeat split; auto.
Qed.

(** [SUCCESS] is returned by [document_end] only. *)
Lemma success_is_not_returned_early :
  invariant B (fun _ => True) (fun _ => True) (fun o _ => o <> returns SUCCESS).
Proof.
  constructor; auto; try discriminate.
  intros ev _ m _. unfold TRY.
  destruct (B ev (parser m) (builder m)) as [e [p b]].
  destruct (is_error e) eqn:He; auto.
  intros [= ->]. discriminate.
Qed.

End DocumentEnd.

(** C1. If [parse] returns [SUCCESS] in non-streaming mode, then
    [end_document] was the last callback, it returned [SUCCESS] leaving the
    parser at depth 0, and [finish] left [dom_parser.next_structural_index]
    equal to [dom_parser.n_structural_indexes]; this for every builder,
    every input and every bound on the number of states run. *)
Theorem parse_success_depth_zero_and_all_consumed
    (T : Type) (B : Builder T) (fuel : nat) (dp : dom_parser_implementation)
    (b : T) (m : machine T) :
  parse B false fuel dp b = (returns SUCCESS, m) ->
  parsed_to_end B m.
Proof.
  intros H.
  assert (Hinv := parse_from_invariant B false _ _ _ (success_invariant B) fuel
                    {| parser := new_structural_parser dp 0; builder := b;
                       value := 0; trace := []; moves := [] |}
                    (fun _ _ _ _ _ => Logic.I) (success_ends B) Logic.I).
  unfold parse in H. cbn [negb] in *. rewrite H in Hinv. now apply Hinv.
Qed.

Lemma parse_success_depth_zero_and_all_consumed_witness :
  parse noop_builder false 100 scenario1 tt
  = (returns SUCCESS, snd (parse noop_builder false 100 scenario1 tt))
  /\ parsed_to_end noop_builder (snd (parse noop_builder false 100 scenario1 tt)).
Proof.
  split.
  - vm_compute. reflexivity.
  - apply (parse_success_depth_zero_and_all_consumed unit noop_builder 100 scenario1 tt).
    vm_compute. reflexivity.
Defined.

(** ** Errors of the builder *)

Section BuilderErrors.

Context {T : Type}.
Variable B : Builder T.

Lemma clean_or_stopped_invariant :
  invariant B clean clean (fun o m => clean m \/ stopped_by_builder o m).
Proof.
  constructor; auto.
  intros ev _ m Hm. unfold TRY.
  destruct (B ev (parser m) (builder m)) as [e [p b]].
  destruct (is_error e) eqn:He.
  - right. exists (trace m), ev, e. cbn [trace].
    repeat split; auto. now apply is_error_true.
  - apply is_error_false in He. subst e.
    unfold clean. cbn [trace]. apply Forall_app. split; auto.
Qed.

Lemma clean_or_stopped_ends (STREAMING : bool) :
  ends B STREAMING clean (fun o m => clean m \/ stopped_by_builder o m).
Proof.
  split; [auto|].
  - intros m Hm. rewrite step_document_end.
    destruct (B end_document (parser m) (builder m)) as [e [p b]].
    destruct (is_error e) eqn:He.
    + right. exists (trace m), end_document, e. cbn [trace].
      repeat split; auto. now apply is_error_true.
    + apply is_error_false in He. subst e. left.
      unfold clean. cbn [trace]. apply Forall_app. split; auto.
Qed.

(** A failure recorded in the history of a call that is clean or was
    stopped by the builder is the last entry, and is what was returned. *)
Lemma failure_is_last (o : outcome) (m : machine T) t1 ev e t2 :
  clean m \/ stopped_by_builder o m ->
  trace m = t1 ++ (ev, e) :: t2 ->
  e <> SUCCESS ->
  t2 = [] /\ o = returns e.
Proof.
  intros [Hc | (t & ev' & e' & Ht & Hok & He' & Ho)] Htr He.
  - unfold clean in Hc. rewrite Htr in Hc.
    apply Forall_app in Hc as [_ Hc]. inversion Hc; subst. contradiction.
  - rewrite Ht in Htr.
    destruct (exists_last (l := (ev, e) :: t2) ltac:(discriminate))
      as (t2' & x & Hx).
    rewrite Hx, app_assoc in Htr.
    apply app_inj_tail in Htr as [-> <-].
    destruct t2' as [|y t2'].
    + cbn in Hx. injection Hx as <- <-. auto.
    + cbn in Hx. injection Hx as <- _.
      apply Forall_app in Hok as [_ Hok]. inversion Hok; subst. contradiction.
Qed.

End BuilderErrors.

(** C7. When a callback that [parse] invokes returns a code [e] other than
    [SUCCESS], no further callback is invoked and [parse] returns [e]: in
    the history of any call, an entry with such a code is the last one and
    its code is the result of the call. *)
Theorem builder_error_short_circuits
    (T : Type) (B : Builder T) (STREAMING : bool) (fuel : nat)
    (dp : dom_parser_implementation) (b : T)
    (t1 t2 : list (event * error_code)) (ev : event) (e : error_code) :
  trace (snd (parse B STREAMING fuel dp b)) = t1 ++ (ev, e) :: t2 ->
  e <> SUCCESS ->
  t2 = [] /\ fst (parse B STREAMING fuel dp b) = returns e.
Proof.
  apply failure_is_last.
  apply (parse_from_invariant B STREAMING _ _ _ (clean_or_stopped_invariant B)).
  - now intros m c Hm _ _.
  - apply clean_or_stopped_ends.
  - constructor.
Qed.

Lemma builder_error_short_circuits_witness :
  trace (snd (parse number_error_builder false 100 scenario1 tt))
  = [(start_document, SUCCESS); (start_object, SUCCESS);
     (primitive_field 1 5, SUCCESS); (start_array_field 7, SUCCESS)]
    ++ (primitive 12, NUMBER_ERROR) :: []
  /\ NUMBER_ERROR <> SUCCESS
  /\ @nil (event * error_code) = []
  /\ fst (parse number_error_builder false 100 scenario1 tt) = returns NUMBER_ERROR.
Proof.
  split; [vm_compute; reflexivity|]. split; [discriminate|].
  apply (builder_error_short_circuits unit number_error_builder false 100
           scenario1 tt
           [(start_document, SUCCESS); (start_object, SUCCESS);
            (primitive_field 1 5, SUCCESS); (start_array_field 7, SUCCESS)]
           [] (primitive 12) NUMBER_ERROR).
  - vm_compute. reflexivity.
  - discriminate.
Defined.

(** ** The operations of the driver, run *)

Section Operations.

Context {T : Type}.
Variable B : Builder T.

Lemma byte_is_true (c d : byte) : (c == d) = true <-> c = d.
Proof.
  unfold byte_is. split.
  - apply Byte.byte_dec_bl.
  - apply Byte.byte_dec_lb.
Qed.

Lemma byte_is_false (c d : byte) : (c == d) = false <-> c <> d.
Proof.
  split.
  - intros H Heq. apply byte_is_true in Heq. congruence.
  - intros H. destruct (c == d) eqn:E; auto.
    apply byte_is_true in E. contradiction.
Qed.

Lemma TRY_success (ev : event) (m : machine T) p b :
  B ev (parser m) (builder m) = (SUCCESS, (p, b)) ->
  TRY B ev m =
  Continue tt {| parser := p; builder := b; value := value m;
                 trace := trace m ++ [(ev, SUCCESS)]; moves := moves m |}.
Proof. intros H. unfold TRY. now rewrite H. Qed.

Lemma advance_value_reads (m : machine T) (i : Z) (c : byte) :
  index (structural_indexes (dom_parser (parser m))) (next_structural (parser m)) = Some i ->
  index (buf (parser m)) i = Some c ->
  advance_value m =
  Continue c {| parser := with_next_structural (parser m) (next_structural (parser m) + 1);
                builder := builder m; value := i; trace := trace m;
                moves := moves m ++ [next_structural (parser m) + 1] |}.
Proof.
  intros Hi Hc. unfold advance_value, bind, advance. rewrite Hi.
  unfold set_value, deref, move_to. cbn [parser builder value trace moves].
  cbn [with_next_structural buf]. now rewrite Hc.
Qed.

(** The document start, one operation at a time. *)
Lemma first_value_unfold (STREAMING : bool) (m : machine T) :
  first_value B STREAMING m =
  if at_end (parser m) then Return EMPTY m
  else
    match TRY B start_document m with
    | Continue _ m1 =>
        match advance_value m1 with
        | Continue c m2 =>
            if c == "{" then Continue generic_object_begin m2
            else if c == "[" then
              if STREAMING then Continue generic_array_begin m2
              else
                match last_structural_char m2 with
                | Continue c' m3 =>
                    if c' == "]" then Continue generic_array_begin m3
                    else Return TAPE_ERROR m3
                | Return e m3 => Return e m3
                | Undefined m3 => Undefined m3
                end
            else
              match TRY B (root_primitive (value m2)) m2 with
              | Continue _ m3 => Continue document_end m3
              | Return e m3 => Return e m3
              | Undefined m3 => Undefined m3
              end
        | Return e m2 => Return e m2
        | Undefined m2 => Undefined m2
        end
    | Return e m1 => Return e m1
    | Undefined m1 => Undefined m1
    end.
Proof.
  unfold first_value, bind, is_at_end, return_, goto, ret, get_value.
  destruct (at_end (parser m)); [reflexivity|].
  destruct (TRY B start_document m) as [[] m1 | e m1 | m1]; try reflexivity.
  destruct (advance_value m1) as [c m2 | e m2 | m2]; try reflexivity.
  destruct (c == "{"); [reflexivity|].
  destruct (c == "["); [|now destruct (TRY B (root_primitive (value m2)) m2)].
  destruct STREAMING; cbn [negb]; [reflexivity|].
  destruct (last_structural_char m2) as [c' m3 | e m3 | m3]; try reflexivity.
  now destruct (c' == "]").
Qed.

End Operations.

(** ** The start of the document *)

Lemma parse_at_end
    (T : Type) (B : Builder T) (STREAMING : bool) (fuel : nat)
    (dp : dom_parser_implementation) (b : T) :
  at_end (new_structural_parser dp
            (if STREAMING then next_structural_index dp else 0)) = true ->
  parse B STREAMING fuel dp b =
  (returns EMPTY,
   {| parser := new_structural_parser dp
                  (if STREAMING then next_structural_index dp else 0);
      builder := b; value := 0; trace := []; moves := [] |}).
Proof.
  intros H. unfold parse, parse_from, first_value, bind, is_at_end.
  cbn [parser]. now rewrite H.
Qed.

(** C8. When the cursor is at the end of the structural indexes as [parse]
    starts, which is the case of a call on no structurals at all, [parse]
    returns [EMPTY] and has invoked no callback: the history of callbacks is
    empty, and the builder and the parser are as they were given. *)
Theorem parse_at_end_returns_EMPTY
    (T : Type) (B : Builder T) (STREAMING : bool) (fuel : nat)
    (dp : dom_parser_implementation) (b : T) :
  at_end (new_structural_parser dp
            (if STREAMING then next_structural_index dp else 0)) = true ->
  parse B STREAMING fuel dp b =
  (returns EMPTY,
   {| parser := new_structural_parser dp
                  (if STREAMING then next_structural_index dp else 0);
      builder := b; value := 0; trace := []; moves := [] |}).
Proof. apply parse_at_end. Qed.

Lemma parse_at_end_returns_EMPTY_witness :
  at_end (new_structural_parser (stage1 [] []) 0) = true
  /\ parse noop_builder false 100 (stage1 [] []) tt =
     (returns EMPTY,
      {| parser := new_structural_parser (stage1 [] []) 0;
         builder := tt; value := 0; trace := []; moves := [] |}).
Proof.
  split; [reflexivity|].
  apply (parse_at_end_returns_EMPTY unit noop_builder false 100 (stage1 [] []) tt).
  reflexivity.
Defined.

(** A session without structurals is at its end from the start. *)
Lemma no_structurals_at_end (dp : dom_parser_implementation) :
  n_structural_indexes dp = 0 ->
  at_end (new_structural_parser dp 0) = true.
Proof. intros H. unfold at_end. cbn. rewrite H. reflexivity. Qed.

(** ** finish *)

(** What [finish] leaves, whatever it returns. *)
Lemma finish_leaves (STREAMING : bool) (p : structural_parser) :
  snd (finish STREAMING p)
  = with_next_structural_index p (uint32_t (next_structural p)).
Proof.
  unfold finish.
  destruct (negb _); [reflexivity|]. destruct (_ && _); reflexivity.
Qed.

Lemma finish_unclosed (STREAMING : bool) (p : structural_parser) :
  depth p <> 0 -> fst (finish STREAMING p) = TAPE_ERROR.
Proof.
  intros Hd. unfold finish. cbn [depth with_next_structural_index].
  apply Z.eqb_neq in Hd. now rewrite Hd.
Qed.

Lemma finish_residual (p : structural_parser) :
  depth p = 0 ->
  uint32_t (next_structural p) <> n_structural_indexes (dom_parser p) ->
  fst (finish false p) = TAPE_ERROR.
Proof.
  intros Hd Hn. unfold finish.
  cbn [depth with_next_structural_index dom_parser next_structural_index
       n_structural_indexes].
  apply Z.eqb_eq in Hd. apply Z.eqb_neq in Hn. now rewrite Hd, Hn.
Qed.

(** C10. [finish] stores the position of the cursor in
    [dom_parser.next_structural_index] whatever it then returns: the parser
    it leaves is the one it was given with that field written, also when the
    depth check or the check for residual structurals makes it return
    [TAPE_ERROR], so that a failed call does change the session. *)
Theorem finish_writes_index_before_checks :
  (forall (STREAMING : bool) (p : structural_parser),
     snd (finish STREAMING p)
     = with_next_structural_index p (uint32_t (next_structural p)))
  /\ (forall (STREAMING : bool) (p : structural_parser),
        depth p <> 0 ->
        fst (finish STREAMING p) = TAPE_ERROR
        /\ next_structural_index (dom_parser (snd (finish STREAMING p)))
           = uint32_t (next_structural p))
  /\ (forall p : structural_parser,
        depth p = 0 ->
        uint32_t (next_structural p) <> n_structural_indexes (dom_parser p) ->
        fst (finish false p) = TAPE_ERROR
        /\ next_structural_index (dom_parser (snd (finish false p)))
           = uint32_t (next_structural p)).
Proof.
  split; [exact finish_leaves|]. split.
  - intros s p Hd. rewrite finish_leaves. split; [|reflexivity].
    now apply finish_unclosed.
  - intros p Hd Hn. rewrite finish_leaves. split; [|reflexivity].
    now apply finish_residual.
Qed.

Lemma finish_writes_index_before_checks_witness :
  (depth (with_depth (new_structural_parser two_numbers 1) 1) <> 0
   /\ fst (finish true (with_depth (new_structural_parser two_numbers 1) 1)) = TAPE_ERROR
   /\ next_structural_index
        (dom_parser (snd (finish true (with_depth (new_structural_parser two_numbers 1) 1))))
      = uint32_t 1)
  /\ (depth (new_structural_parser two_numbers 1) = 0
      /\ uint32_t 1 <> n_structural_indexes two_numbers
      /\ fst (finish false (new_structural_parser two_numbers 1)) = TAPE_ERROR
      /\ next_structural_index
           (dom_parser (snd (finish false (new_structural_parser two_numbers 1))))
         = uint32_t 1).
Proof.
  destruct finish_writes_index_before_checks as (_ & Hdepth & Hresidual).
  split.
  - split; [discriminate|].
    apply (Hdepth true (with_depth (new_structural_parser two_numbers 1) 1)).
    discriminate.
  - split; [reflexivity|]. split; [discriminate|].
    apply (Hresidual (new_structural_parser two_numbers 1)).
    + reflexivity.
    + discriminate.
Defined.

(** A failed call on [1 2] leaves the session's index at 1. *)
Example residual_error_moves_session_index :
  fst (parse noop_builder false 100 two_numbers tt) = returns TAPE_ERROR
  /\ next_structural_index two_numbers = 0
  /\ next_structural_index
       (dom_parser (parser (snd (parse noop_builder false 100 two_numbers tt)))) = 1.
Proof. vm_compute. repeat split; reflexivity. Qed.

(** ** The depth *)

Section Depth.

Context {T : Type}.
Variable B : Builder T.
Hypothesis keeps_depth : keeps B depth.

Lemma finish_at_depth_zero (STREAMING : bool) (p : structural_parser) :
  depth p = 0 ->
  fst (finish STREAMING p) = cursor_verdict STREAMING (snd (finish STREAMING p))
  /\ depth (snd (finish STREAMING p)) = 0.
Proof.
  intros Hd.
  rewrite finish_leaves. split; [|exact Hd].
  unfold finish, cursor_verdict.
  cbn [depth with_next_structural_index dom_parser next_structural_index
       n_structural_indexes].
  apply Z.eqb_eq in Hd. rewrite Hd. cbn [negb].
  destruct STREAMING; cbn [negb andb]; [reflexivity|].
  destruct (uint32_t (next_structural p) =? n_structural_indexes (dom_parser p));
    reflexivity.
Qed.

Lemma at_depth_zero_idle (STREAMING : bool) (o : outcome) (m : machine T) :
  at_depth_zero m -> depth_check_idle STREAMING o m.
Proof.
  intros [Hd Hno]. split; [exact Hd|].
  intros t Ht. exfalso. apply Hno. rewrite Ht, map_app. apply in_or_app.
  right. now left.
Qed.

Lemma depth_invariant (STREAMING : bool) :
  invariant B at_depth_zero at_depth_zero (@depth_check_idle T STREAMING).
Proof.
  constructor; auto using at_depth_zero_idle.
  intros ev Hev m [Hd Hno]. unfold TRY.
  assert (Hk := keeps_depth ev (parser m) (builder m)).
  destruct (B ev (parser m) (builder m)) as [e [p b]]. cbn [fst snd] in Hk.
  destruct (is_error e).
  - split; cbn [parser trace]; [congruence|].
    intros t Ht. apply app_inj_tail in Ht as [_ [= Hev' _]]. contradiction.
  - split; cbn [parser trace]; [congruence|].
    rewrite map_app. intros Hin. apply in_app_or in Hin as [Hin | [Hin | []]]; auto.
Qed.

Lemma depth_ends (STREAMING : bool) :
  ends B STREAMING at_depth_zero (@depth_check_idle T STREAMING).
Proof.
  split; [auto using at_depth_zero_idle|].
  intros m [Hd Hno]. rewrite step_document_end.
  assert (Hk := keeps_depth end_document (parser m) (builder m)).
  destruct (B end_document (parser m) (builder m)) as [e [p b]]. cbn [fst snd] in Hk.
  destruct (is_error e) eqn:He.
  - split; cbn [parser trace]; [congruence|].
    intros t Ht. apply app_inj_tail in Ht as [_ [= ->]]. discriminate.
  - assert (Hp : depth p = 0) by congruence.
    destruct (finish_at_depth_zero STREAMING p Hp) as [Hv Hd'].
    split; cbn [parser trace]; [exact Hd'|].
    intros _ _. now rewrite Hv.
Qed.

End Depth.

(** With a builder that keeps the depth, it is 0 at the end of a call,
    and the cursor alone decides what [finish] returns. *)
Lemma parse_keeps_depth
    (T : Type) (B : Builder T) (Hk : keeps B depth) (STREAMING : bool) (fuel : nat)
    (dp : dom_parser_implementation) (b : T) :
  depth_check_idle STREAMING (fst (parse B STREAMING fuel dp b))
    (snd (parse B STREAMING fuel dp b)).
Proof.
  apply (parse_from_invariant B STREAMING _ _ _ (depth_invariant B Hk STREAMING)).
  - intros m c [Hd Hno] _ _. split; [exact Hd | exact Hno].
  - now apply depth_ends.
  - split; [reflexivity | intros []].
Qed.

Lemma noop_builder_keeps (X : Type) (field : structural_parser -> X) :
  keeps noop_builder field.
Proof. intros ev p b. reflexivity. Qed.

(** The array of [[[1]] that is left open goes unnoticed by a builder that
    leaves the depth alone, and is reported when the builder maintains it. *)
Example unclosed_array_needs_depth :
  fst (parse noop_builder false 100 unclosed_array tt) = returns SUCCESS
  /\ fst (parse depth_builder false 100 unclosed_array tt) = returns TAPE_ERROR
  /\ depth (parser (snd (parse depth_builder false 100 unclosed_array tt))) = 1
  /\ events (parse depth_builder false 100 unclosed_array tt)
     = [start_document; start_array; start_array; primitive 2; end_array;
        end_document].
Proof. vm_compute. repeat split; reflexivity. Qed.

(** ** Builders that accept everything *)

(** With a builder that accepts every event, the driver does what it does
    with [noop_builder], up to the depth that [finish] finds: the walk
    depends on the builder through the codes it returns and through what
    it leaves in the parser only, and reads the depth in [finish] only. *)

Section Accepting.

Context {T : Type}.
Variable B : Builder T.
Hypothesis B_accepting : accepting B.

Lemma simulates_ret {A : Type} (a : A) : simulates (T := T) (ret a) (ret a).
Proof. intros m. reflexivity. Qed.

Lemma simulates_bind {A C : Type} (c : M T A) (c' : M unit A)
    (k : A -> M T C) (k' : A -> M unit C) :
  simulates c c' ->
  (forall a, simulates (k a) (k' a)) ->
  simulates (bind c k) (bind c' k').
Proof.
  intros Hc Hk m. unfold bind. rewrite <- Hc.
  destruct (c m) as [a m' | e m' | m']; cbn [erase_result]; auto.
  apply Hk.
Qed.

Lemma simulates_if {A : Type} (b : bool) (c1 c2 : M T A) (c1' c2' : M unit A) :
  simulates c1 c1' -> simulates c2 c2' ->
  simulates (if b then c1 else c2) (if b then c1' else c2').
Proof. now destruct b. Qed.

Lemma simulates_advance : simulates (T := T) advance advance.
Proof.
  intros m. unfold advance. cbn [erase parser with_depth dom_parser next_structural].
  now destruct (index _ _).
Qed.

Lemma simulates_deref (p : Z) : simulates (T := T) (deref p) (deref p).
Proof.
  intros m. unfold deref. cbn [erase parser with_depth buf].
  now destruct (index _ _).
Qed.

Lemma simulates_set_value (v : Z) : simulates (T := T) (set_value v) (set_value v).
Proof. intros m. reflexivity. Qed.

Lemma simulates_get_value : simulates (T := T) get_value get_value.
Proof. intros m. reflexivity. Qed.

Lemma simulates_back_up : simulates (T := T) back_up back_up.
Proof. intros m. reflexivity. Qed.

Lemma simulates_return {A : Type} (e : error_code) :
  simulates (T := T) (A := A) (return_ e) (return_ e).
Proof. intros m. reflexivity. Qed.

Lemma simulates_is_at_end : simulates (T := T) is_at_end is_at_end.
Proof. intros m. reflexivity. Qed.

Lemma simulates_last_structural_char :
  simulates (T := T) last_structural_char last_structural_char.
Proof.
  intros m. unfold last_structural_char.
  cbn [erase parser with_depth dom_parser].
  destruct (index _ _); [apply simulates_deref | reflexivity].
Qed.

(** What an accepting builder leaves of the parser, the depth apart. *)
Lemma accepting_call (ev : event) (p : structural_parser) (b : T) :
  fst (B ev p b) = SUCCESS
  /\ with_depth (fst (snd (B ev p b))) 0 = with_depth p 0.
Proof.
  destruct (B_accepting ev p b) as (He & Hb & Hc & Hs). split; [exact He|].
  unfold with_depth. now rewrite Hb, Hc, Hs.
Qed.

Lemma simulates_TRY (ev : event) : simulates (TRY B ev) (TRY noop_builder ev).
Proof.
  intros m. unfold TRY. cbn [erase parser builder noop_builder].
  destruct (accepting_call ev (parser m) (builder m)) as [He Hp].
  destruct (B ev (parser m) (builder m)) as [e [p b]]. cbn [fst snd] in He, Hp.
  subst e. cbn [is_error erase_result]. unfold erase.
  cbn [parser value trace moves]. now rewrite Hp.
Qed.

Lemma simulates_advance_char : simulates (T := T) advance_char advance_char.
Proof.
  apply simulates_bind; [apply simulates_advance | apply simulates_deref].
Qed.

Lemma simulates_advance_value : simulates (T := T) advance_value advance_value.
Proof.
  apply simulates_bind; [apply simulates_advance | intros v].
  apply simulates_bind; [apply simulates_set_value | intros _].
  apply simulates_deref.
Qed.

Ltac simulate :=
  repeat first
    [ apply simulates_ret
    | apply simulates_return
    | apply simulates_TRY
    | apply simulates_advance_value
    | apply simulates_advance_char
    | apply simulates_advance
    | apply simulates_deref
    | apply simulates_get_value
    | apply simulates_set_value
    | apply simulates_back_up
    | apply simulates_is_at_end
    | apply simulates_last_structural_char
    | apply simulates_if
    | apply simulates_bind; [|intros ?] ].

Lemma simulates_step (STREAMING : bool) (l : label) :
  l <> document_end ->
  simulates (step B STREAMING l) (step noop_builder STREAMING l).
Proof. destruct l; try congruence; intros _; cbn [step]; unfold goto; simulate. Qed.

Lemma simulates_first_value (STREAMING : bool) :
  simulates (first_value B STREAMING) (first_value noop_builder STREAMING).
Proof. unfold first_value, goto. simulate. Qed.

(** [finish] reads the depth first. *)
Lemma finish_at_depth (STREAMING : bool) (p : structural_parser) :
  returns (fst (finish STREAMING p))
  = checked_at_depth (depth p) (returns (fst (finish STREAMING (with_depth p 0)))).
Proof.
  unfold finish.
  cbn [depth with_next_structural_index with_depth dom_parser next_structural
       next_structural_index n_structural_indexes]. cbn [Z.eqb negb].
  destruct (depth p =? 0) eqn:Hd; cbn [negb].
  - destruct (negb STREAMING && _); cbn [fst checked_at_depth]; now rewrite ?Hd.
  - destruct (negb STREAMING && _); cbn [fst checked_at_depth]; now rewrite ?Hd.
Qed.

(** The end of the document with [B] and with [noop_builder]. *)
Lemma document_end_accepting (STREAMING : bool) (m : machine T) :
  exists e m' e',
    step B STREAMING document_end m = Return e m'
    /\ step noop_builder STREAMING document_end (erase m) = Return e' (erase m')
    /\ returns e = checked_at_depth (depth (parser m')) (returns e').
Proof.
  rewrite !step_document_end.
  cbn [erase parser builder noop_builder is_error value trace moves].
  destruct (accepting_call end_document (parser m) (builder m)) as [He Hp].
  destruct (B end_document (parser m) (builder m)) as [e [p b]]. cbn [fst snd] in He, Hp.
  subst e. cbn [is_error].
  eexists _, _, _. split; [reflexivity|]. split.
  - rewrite <- Hp. f_equal. unfold erase. cbn [parser builder value trace moves].
    now rewrite !finish_leaves.
  - cbn [parser]. rewrite finish_leaves. cbn [with_next_structural_index depth].
    apply finish_at_depth.
Qed.

Lemma checked_early (d : Z) (o : outcome) :
  o <> returns SUCCESS -> checked_at_depth d o = o.
Proof. destruct o as [[] | |]; cbn; congruence. Qed.

Lemma run_accepting (STREAMING : bool) (fuel : nat) :
  forall l m,
    fst (run B STREAMING fuel l m)
    = checked_at_depth (depth (parser (snd (run B STREAMING fuel l m))))
        (fst (run noop_builder STREAMING fuel l (erase m)))
    /\ erase (snd (run B STREAMING fuel l m))
       = snd (run noop_builder STREAMING fuel l (erase m)).
Proof.
  induction fuel as [|fuel IH]; intros l m; cbn [run]; [split; reflexivity|].
  destruct (label_eq_document_end l) as [-> | Hl].
  - destruct (document_end_accepting STREAMING m) as (e & m' & e' & -> & -> & He).
    cbn [fst snd]. now split.
  - rewrite <- (simulates_step STREAMING l Hl m).
    assert (H := step_invariant B STREAMING _ _ _ (success_is_not_returned_early B)
                   l Hl (fun _ _ _ _ _ _ => Logic.I) m Logic.I).
    destruct (step B STREAMING l m) as [l' m' | e m' | m']; cbn [erase_result];
      [apply IH | | split; reflexivity].
    cbn [fst snd]. split; [|reflexivity]. symmetry. now apply checked_early.
Qed.

(** A call with an accepting builder invokes the callbacks and moves the
    cursor as the call with [noop_builder] does, and returns what it
    returns unless [finish] finds a depth other than 0. *)
Lemma parse_accepting (STREAMING : bool) (fuel : nat)
    (dp : dom_parser_implementation) (b : T) :
  fst (parse B STREAMING fuel dp b)
  = checked_at_depth (depth (parser (snd (parse B STREAMING fuel dp b))))
      (fst (parse noop_builder STREAMING fuel dp tt))
  /\ erase (snd (parse B STREAMING fuel dp b))
     = snd (parse noop_builder STREAMING fuel dp tt).
Proof.
  unfold parse, parse_from.
  set (start := new_structural_parser dp
                  (if STREAMING then next_structural_index dp else 0)).
  set (m0 := {| parser := start; builder := b; value := 0; trace := [];
                moves := [] |}).
  change {| parser := start; builder := tt; value := 0; trace := []; moves := [] |}
    with (erase m0).
  rewrite <- (simulates_first_value STREAMING).
  assert (H := first_value_invariant B STREAMING _ _ _
                 (success_is_not_returned_early B) m0 Logic.I).
  destruct (first_value B STREAMING m0) as [l' m' | e m' | m']; cbn [erase_result];
    [apply run_accepting | | split; reflexivity].
  cbn [fst snd]. split; [|reflexivity]. symmetry. now apply checked_early.
Qed.

End Accepting.

(** ** Fuel *)

Section Fuel.

Context {T : Type}.
Variable B : Builder T.

(** A call that has returned returns the same with more fuel. *)
Lemma run_more_fuel (STREAMING : bool) (fuel : nat) :
  forall (fuel' : nat) l m,
    (fuel <= fuel')%nat ->
    fst (run B STREAMING fuel l m) <> out_of_fuel ->
    run B STREAMING fuel' l m = run B STREAMING fuel l m.
Proof.
  induction fuel as [|fuel IH]; intros fuel' l m Hle Hdone.
  - now contradiction Hdone.
  - destruct fuel' as [|fuel']; [lia|]. cbn [run] in *.
    destruct (step B STREAMING l m); auto.
    apply IH; [lia | assumption].
Qed.

Lemma parse_more_fuel (STREAMING : bool) (fuel fuel' : nat)
    (dp : dom_parser_implementation) (b : T) :
  (fuel <= fuel')%nat ->
  fst (parse B STREAMING fuel dp b) <> out_of_fuel ->
  parse B STREAMING fuel' dp b = parse B STREAMING fuel dp b.
Proof.
  unfold parse, parse_from. intros Hle Hdone.
  destruct (first_value B STREAMING _); auto.
  now apply run_more_fuel.
Qed.

End Fuel.

(** ** Scenario 1 *)

(** C3, as the specification has it, fails: the driver reports the scalar
    field ["a"] by the single callback [primitive_field], starts the array
    of ["b"] by [start_array_field], and closes the object, which it meets
    after a nested array, by [try_end_object]; it invokes 9 callbacks, not
    the 11 listed. *)
Lemma scenario1_events_not_as_specified :
  ~ (scenario1_events_as_specified (events (parse noop_builder false 100 scenario1 tt))
     /\ fst (parse noop_builder false 100 scenario1 tt) = returns SUCCESS).
Proof.
  intros [(start_field & v & _ & H) _].
  apply (f_equal (@length event)) in H.
  vm_compute in H. discriminate.
Qed.

Lemma depth_builder_accepting : accepting depth_builder.
Proof. intros ev p b. destruct ev; cbn; repeat split. Qed.

(** C3, amended. Parsing [{"a":1,"b":[true,null]}] with a builder that
    accepts every event and leaves the cursor and the memory of the parser
    alone invokes, in this order, [start_document], [start_object],
    [primitive_field] with the key ["a"] and the value [1],
    [start_array_field] with the key ["b"], [primitive] with [true],
    [primitive] with [null], [end_array], [try_end_object] and
    [end_document], in either mode, once 13 states may be run; [parse]
    then returns [SUCCESS] if the builder has left the depth at 0, which it
    has when it leaves the depth alone, and [TAPE_ERROR] otherwise. *)
Theorem scenario1_events_and_success
    (T : Type) (B : Builder T) (STREAMING : bool) (fuel : nat) (b : T) :
  accepting B ->
  (13 <= fuel)%nat ->
  events (parse B STREAMING fuel scenario1 b)
  = [start_document; start_object; primitive_field 1 5; start_array_field 7;
     primitive 12; primitive 17; end_array; try_end_object; end_document]
  /\ (depth (parser (snd (parse B STREAMING fuel scenario1 b))) = 0 ->
      fst (parse B STREAMING fuel scenario1 b) = returns SUCCESS)
  /\ (depth (parser (snd (parse B STREAMING fuel scenario1 b))) <> 0 ->
      fst (parse B STREAMING fuel scenario1 b) = returns TAPE_ERROR)
  /\ (keeps B depth ->
      fst (parse B STREAMING fuel scenario1 b) = returns SUCCESS).
Proof.
  intros Ha Hfuel.
  assert (Hnoop : events (parse noop_builder STREAMING 13 scenario1 tt)
                  = [start_document; start_object; primitive_field 1 5;
                     start_array_field 7; primitive 12; primitive 17; end_array;
                     try_end_object; end_document]
                  /\ fst (parse noop_builder STREAMING 13 scenario1 tt) = returns SUCCESS).
  { destruct STREAMING; vm_compute; split; reflexivity. }
  destruct Hnoop as [Hev Hres].
  destruct (parse_accepting B Ha STREAMING 13 scenario1 b) as [Hfst Hsnd].
  rewrite Hres in Hfst. cbn [checked_at_depth] in Hfst.
  rewrite (parse_more_fuel B STREAMING 13 fuel scenario1 b Hfuel)
    by (rewrite Hfst; discriminate).
  assert (Hzero : depth (parser (snd (parse B STREAMING 13 scenario1 b))) = 0 ->
                  fst (parse B STREAMING 13 scenario1 b) = returns SUCCESS).
  { intros Hd. rewrite Hfst, Hd. reflexivity. }
  split; [|split; [exact Hzero|split]].
  - unfold events in *. rewrite <- Hsnd in Hev. exact Hev.
  - intros Hd. rewrite Hfst. apply Z.eqb_neq in Hd. now rewrite Hd.
  - intros Hk. apply Hzero.
    apply (parse_keeps_depth T B Hk STREAMING 13 scenario1 b).
Qed.

Lemma scenario1_events_and_success_witness :
  accepting depth_builder
  /\ (13 <= 13)%nat
  /\ events (parse depth_builder false 13 scenario1 tt)
     = [start_document; start_object; primitive_field 1 5; start_array_field 7;
        primitive 12; primitive 17; end_array; try_end_object; end_document]
  /\ depth (parser (snd (parse depth_builder false 13 scenario1 tt))) = 0
  /\ fst (parse depth_builder false 13 scenario1 tt) = returns SUCCESS.
Proof.
  split; [exact depth_builder_accepting|]. split; [lia|].
  destruct (scenario1_events_and_success unit depth_builder false 13 tt
              depth_builder_accepting (le_n 13)) as (Hev & Hzero & _ & _).
  split; [exact Hev|]. split; [vm_compute; reflexivity|].
  apply Hzero. vm_compute. reflexivity.
Defined.

(** ** The outer array *)

(** C4. In non-streaming mode, on an input whose first structural byte is
    ['['] and whose last structural byte is not [']'], [parse] returns
    [TAPE_ERROR] when it has invoked [start_document] only, which is taken
    to succeed and to leave the cursor and the memory of the parser alone.
    In streaming mode the last structural byte is not looked at: the same
    call goes on to [generic_array_begin]. *)
Theorem outer_array_is_checked_first
    (T : Type) (B : Builder T) (fuel : nat) (dp : dom_parser_implementation)
    (b b' : T) (p : structural_parser) (first last : Z) (c : byte) :
  n_structural_indexes dp <> 0 ->
  B start_document (new_structural_parser dp 0) b = (SUCCESS, (p, b')) ->
  buf p = input_buf dp ->
  next_structural p = 0 ->
  dom_parser p = dp ->
  index (structural_indexes dp) 0 = Some first ->
  index (input_buf dp) first = Some "["%byte ->
  index (structural_indexes dp) (uint32_t (n_structural_indexes dp - 1)) = Some last ->
  index (input_buf dp) last = Some c ->
  c <> "]"%byte ->
  let m := {| parser := with_next_structural p 1;
              builder := b'; value := first;
              trace := [(start_document, SUCCESS)]; moves := [1] |} in
  parse B false fuel dp b = (returns TAPE_ERROR, m)
  /\ (next_structural_index dp = 0 ->
      parse B true fuel dp b = run B true fuel generic_array_begin m).
Proof.
  intros Hn Hstart Hbuf Hcursor Hsession Hfirst Hopen Hlast Hc Hclosed m.
  apply Z.eqb_neq in Hn. apply byte_is_false in Hclosed.
  assert (Hread : forall STREAMING,
             first_value B STREAMING
               {| parser := new_structural_parser dp 0; builder := b; value := 0;
                  trace := []; moves := [] |}
             = if STREAMING then Continue generic_array_begin m
               else Return TAPE_ERROR m).
  { intros STREAMING. rewrite first_value_unfold. unfold at_end.
    cbn [parser new_structural_parser next_structural dom_parser].
    rewrite Z.eqb_sym, Hn.
    rewrite (TRY_success B start_document
               {| parser := new_structural_parser dp 0; builder := b; value := 0;
                  trace := []; moves := [] |} _ b' Hstart).
    cbn [value trace app moves].
    rewrite (advance_value_reads _ first "["%byte);
      cbn [parser]; rewrite ?Hsession, ?Hcursor, ?Hbuf; try assumption.
    cbn [builder value trace moves app Z.add Pos.add].
    change ("[" == "{") with false. change ("[" == "[") with true. cbv iota.
    destruct STREAMING; [reflexivity|].
    unfold last_structural_char, deref.
    cbn [parser with_next_structural dom_parser buf].
    rewrite Hsession, Hbuf, Hlast, Hc, Hclosed. reflexivity. }
  split.
  - unfold parse, parse_from. now rewrite (Hread false).
  - intros H0. unfold parse, parse_from. rewrite H0. now rewrite (Hread true).
Qed.

Lemma outer_array_is_checked_first_witness :
  n_structural_indexes truncated_array <> 0
  /\ depth_builder start_document (new_structural_parser truncated_array 0) tt
     = (SUCCESS, (new_structural_parser truncated_array 0, tt))
  /\ buf (new_structural_parser truncated_array 0) = input_buf truncated_array
  /\ next_structural (new_structural_parser truncated_array 0) = 0
  /\ dom_parser (new_structural_parser truncated_array 0) = truncated_array
  /\ index (structural_indexes truncated_array) 0 = Some 0
  /\ index (input_buf truncated_array) 0 = Some "["%byte
  /\ index (structural_indexes truncated_array)
           (uint32_t (n_structural_indexes truncated_array - 1)) = Some 3
  /\ index (input_buf truncated_array) 3 = Some "2"%byte
  /\ "2"%byte <> "]"%byte
  /\ let m := {| parser := with_next_structural (new_structural_parser truncated_array 0) 1;
                 builder := tt; value := 0;
                 trace := [(start_document, SUCCESS)]; moves := [1] |} in
     parse depth_builder false 100 truncated_array tt = (returns TAPE_ERROR, m)
     /\ (next_structural_index truncated_array = 0 ->
         parse depth_builder true 100 truncated_array tt
         = run depth_builder true 100 generic_array_begin m).
Proof.
  repeat (split; [first [reflexivity | discriminate]|]).
  apply (outer_array_is_checked_first unit depth_builder 100 truncated_array tt tt
           (new_structural_parser truncated_array 0) 0 3 "2"%byte);
    first [reflexivity | discriminate].
Defined.

(** In streaming mode the walk of [[1,2] gets to its elements. *)
Example truncated_array_streaming :
  events (parse noop_builder true 100 truncated_array tt)
  = [start_document; start_array; primitive 1; primitive 3]
  /\ fst (parse noop_builder true 100 truncated_array tt) = returns TAPE_ERROR
  /\ events (parse noop_builder false 100 truncated_array tt) = [start_document].
Proof. vm_compute. repeat split; reflexivity. Qed.

(** ** The cursor *)


Lemma nondecreasing_snoc (l : list Z) (d x : Z) :
  l <> [] ->
  nondecreasing l ->
  last l d <= x ->
  nondecreasing (l ++ [x]).
Proof.
  induction l as [|a l IH]; [congruence|]. intros _ Hl Hx.
  destruct l as [|a' l].
  - cbn in *. auto.
  - change ((a :: a' :: l) ++ [x]) with (a :: (a' :: l) ++ [x]).
    change (a <= a' /\ nondecreasing ((a' :: l) ++ [x])).
    destruct Hl as [Ha Hl]. split; [exact Ha|].
    apply IH; [discriminate | exact Hl | exact Hx].
Qed.

Section CursorMoves.

Context {T : Type}.
Variable B : Builder T.
Hypothesis keeps_cursor : keeps B next_structural.
Hypothesis keeps_buf : keeps B buf.
Hypothesis keeps_indexes : keeps B (fun p => structural_indexes (dom_parser p)).
Variable STREAMING : bool.
Variable start : Z.

Lemma walking_advance (m : machine T) :
  walking start m -> walking start (move_to m (next_structural (parser m) + 1)).
Proof.
  intros [Hmono Hlast]. unfold walking, move_to.
  cbn [moves parser with_next_structural next_structural].
  change (start :: moves m ++ [next_structural (parser m) + 1])
    with ((start :: moves m) ++ [next_structural (parser m) + 1]).
  split.
  - apply nondecreasing_snoc with (d := start); [discriminate | exact Hmono | lia].
  - apply last_last.
Qed.

Lemma walking_TRY (ev : event) (R : outcome -> machine T -> Prop) :
  (forall o m, walking start m -> R o m) ->
  triple (walking start) (TRY B ev) (fun _ => walking start) R.
Proof.
  intros HR m [Hmono Hlast]. unfold TRY.
  assert (Hk := keeps_cursor ev (parser m) (builder m)).
  destruct (B ev (parser m) (builder m)) as [e [p b]]. cbn [fst snd] in Hk.
  assert (Hw : walking start {| parser := p; builder := b; value := value m;
                                trace := trace m ++ [(ev, e)]; moves := moves m |}).
  { split; cbn [moves parser]; [exact Hmono | congruence]. }
  destruct (is_error e); auto.
Qed.

(** [document_end] moves nothing. *)
Lemma document_end_keeps (m : machine T) :
  match step B STREAMING document_end m with
  | Continue _ _ => False
  | Return _ m' | Undefined m' =>
      moves m' = moves m
      /\ next_structural (parser m') = next_structural (parser m)
      /\ buf (parser m') = buf (parser m)
      /\ structural_indexes (dom_parser (parser m'))
         = structural_indexes (dom_parser (parser m))
      /\ exists e, trace m' = trace m ++ [(end_document, e)]
  end.
Proof.
  rewrite step_document_end.
  assert (Hc := keeps_cursor end_document (parser m) (builder m)).
  assert (Hb := keeps_buf end_document (parser m) (builder m)).
  assert (Hi := keeps_indexes end_document (parser m) (builder m)).
  destruct (B end_document (parser m) (builder m)) as [e [p b]].
  cbn [fst snd] in Hc, Hb, Hi.
  destruct (is_error e); cbn [moves parser trace].
  - repeat split; auto. now exists e.
  - rewrite finish_leaves.
    cbn [with_next_structural_index next_structural buf dom_parser
         structural_indexes].
    repeat split; auto. now exists e.
Qed.

Lemma walking_document_end (R : outcome -> machine T -> Prop) :
  (forall o m, walking start m -> R o m) ->
  triple (walking start) (step B STREAMING document_end) (fun _ _ => False) R.
Proof.
  intros HR m [Hmono Hlast].
  assert (H := document_end_keeps m).
  destruct (step B STREAMING document_end m) as [l' m' | e m' | m']; auto;
    destruct H as (Hmoves & Hcursor & _); apply HR;
    (split; [now rewrite Hmoves | now rewrite Hmoves, Hcursor]).
Qed.

(** The walk, with whatever holds once the cursor has backed up. *)
Lemma walking_invariant (J : machine T -> Prop) :
  invariant B (walking start) (fun m => walking start m \/ J m)
    (fun _ => walking start).
Proof.
  constructor; auto.
  - intros m i Hm _. now apply walking_advance.
  - intros ev _. now apply walking_TRY.
Qed.

(** [generic_next], on a byte that ends the document, leaves the cursor
    one step back. *)
Lemma cursor_backed_up (m : machine T) (c : byte) :
  walking start m -> structural_byte m c -> ends_document c ->
  backed_up start
    (move_to (move_to m (next_structural (parser m) + 1))
             (next_structural (parser m) + 1 - 1)).
Proof.
  intros [Hmono Hlast] (i & Hi & Hbyte) Hends.
  replace (next_structural (parser m) + 1 - 1) with (next_structural (parser m)) by lia.
  exists (moves m), (next_structural (parser m)), c.
  unfold move_to. cbn [moves parser with_next_structural next_structural buf dom_parser].
  rewrite <- app_assoc. repeat split; auto.
  - change (start :: moves m ++ [next_structural (parser m) + 1])
      with ((start :: moves m) ++ [next_structural (parser m) + 1]).
    apply nondecreasing_snoc with (d := start); [discriminate | exact Hmono | lia].
  - now exists i.
  - apply Hends.
  - apply Hends.
  - apply Hends.
Qed.

Lemma cursor_backs_up :
  backs_up (walking start) (fun m : machine T => walking start m \/ backed_up start m).
Proof. intros m c Hm Hc Hends. right. now apply cursor_backed_up with (c := c). Qed.

(** A state other than [generic_next] leaves the cursor walking. *)
Lemma step_walks (l : label) (m : machine T) :
  l <> generic_next ->
  walking start m ->
  walking start (machine_of (step B STREAMING l m)).
Proof.
  intros Hl Hm.
  destruct (label_eq_document_end l) as [-> | Hend].
  - assert (H := walking_document_end (fun _ => walking start) (fun _ _ H => H) m Hm).
    destruct (step B STREAMING document_end m); [contradiction | exact H | exact H].
  - assert (H := step_invariant B STREAMING _ _ _ (walking_invariant (fun _ => False))
                   l Hend (fun E => False_ind _ (Hl E)) m Hm).
    destruct (step B STREAMING l m) as [l' m' | e m' | m']; cbn [machine_of]; auto.
    unfold at_label in H. destruct (label_is_document_end l'); tauto.
Qed.

(** [generic_next] leaves the cursor walking, or backs up once and goes to
    [document_end]. *)
Lemma generic_next_walks_or_backs_up (m : machine T) :
  walking start m ->
  walking start (machine_of (step B STREAMING generic_next m))
  \/ exists m',
       step B STREAMING generic_next m = Continue document_end m'
       /\ backed_up start m'.
Proof.
  intros Hm.
  assert (H := step_invariant B STREAMING _ _ _ (walking_invariant (backed_up start))
                 generic_next ltac:(discriminate) (fun _ => cursor_backs_up) m Hm).
  destruct (step B STREAMING generic_next m) as [l' m' | e m' | m'];
    cbn [machine_of]; auto.
  unfold at_label in H. destruct l'; cbn [label_is_document_end] in H; auto.
  destruct H as [H | H]; [now left | right]. now exists m'.
Qed.

End CursorMoves.

(** The cursor on scenario 1 goes to the sentinel and one step back; on a
    root scalar it never moves back. *)
Example scenario1_moves :
  moves (snd (parse noop_builder false 100 scenario1 tt))
  = [1; 2; 3; 4; 5; 6; 7; 8; 9; 10; 11; 12; 13; 14; 13]
  /\ moves (snd (parse noop_builder true 100 one_two_three tt)) = [1].
Proof. vm_compute. split; reflexivity. Qed.

(** ** Residual structurals *)

Section Residual.

Context {T : Type}.
Variable B : Builder T.

(** Only [document_end] depends on the mode. *)
Lemma step_mode_independent (l : label) (m : machine T) :
  l <> document_end -> step B true l m = step B false l m.
Proof. destruct l; first [reflexivity | congruence]. Qed.

(** A streaming walk that ends in [SUCCESS] short of the last structural
    ends in [TAPE_ERROR] when it is not streaming. *)
Lemma run_residual (fuel : nat) :
  forall l m m',
    run B true fuel l m = (returns SUCCESS, m') ->
    next_structural_index (dom_parser (parser m'))
      <> n_structural_indexes (dom_parser (parser m')) ->
    fst (run B false fuel l m) = returns TAPE_ERROR.
Proof.
  induction fuel as [|fuel IH]; intros l m m' Hrun Hleft; [discriminate|].
  cbn [run] in *.
  destruct (label_eq_document_end l) as [-> | Hl].
  - rewrite step_document_end in *.
    destruct (B end_document (parser m) (builder m)) as [e [p b]].
    destruct (is_error e) eqn:He.
    + injection Hrun as -> _. discriminate.
    + injection Hrun as Hf <-. cbn [parser] in Hleft.
      destruct (finish_success true p Hf) as (Hd & _ & _).
      rewrite finish_leaves in Hleft.
      cbn [with_next_structural_index dom_parser next_structural_index
           n_structural_indexes] in Hleft.
      cbn [fst]. f_equal. now apply finish_residual.
  - rewrite <- (step_mode_independent l m Hl).
    assert (H := step_invariant B true _ _ _ (success_is_not_returned_early B) l Hl
                   (fun _ _ _ _ _ _ => Logic.I) m Logic.I).
    destruct (step B true l m) as [l' m1 | e m1 | m1];
      [now apply IH with (m' := m') | | discriminate].
    injection Hrun as -> _. now contradiction H.
Qed.

Hypothesis keeps_buf : keeps B buf.
Hypothesis keeps_session : keeps B dom_parser.

Lemma TRY_keeps (ev : event) (m m' : machine T) :
  TRY B ev m = Continue tt m' ->
  buf (parser m') = buf (parser m) /\ dom_parser (parser m') = dom_parser (parser m).
Proof.
  unfold TRY.
  assert (Hb := keeps_buf ev (parser m) (builder m)).
  assert (Hs := keeps_session ev (parser m) (builder m)).
  destruct (B ev (parser m) (builder m)) as [e [p b]]. cbn [fst snd] in Hb, Hs.
  destruct (is_error e); [discriminate|].
  intros [= <-]. now split.
Qed.

Lemma advance_value_keeps (m m' : machine T) (c : byte) :
  advance_value m = Continue c m' ->
  buf (parser m') = buf (parser m) /\ dom_parser (parser m') = dom_parser (parser m).
Proof.
  unfold advance_value, bind, advance, set_value, deref.
  destruct (index (structural_indexes _) _); [|discriminate].
  cbn [parser move_to with_next_structural buf].
  destruct (index (buf (parser m)) z); [|discriminate].
  intros [= _ <-]. now split.
Qed.

(** A streaming call from the first structural that ends in [SUCCESS]
    short of the last structural ends in [TAPE_ERROR] when it is not
    streaming. *)
Lemma parse_residual (fuel : nat) (dp : dom_parser_implementation) (b : T)
    (m' : machine T) (last : Z) (c : byte) :
  next_structural_index dp = 0 ->
  index (structural_indexes dp) (uint32_t (n_structural_indexes dp - 1)) = Some last ->
  index (input_buf dp) last = Some c ->
  parse B true fuel dp b = (returns SUCCESS, m') ->
  next_structural_index (dom_parser (parser m'))
    <> n_structural_indexes (dom_parser (parser m')) ->
  fst (parse B false fuel dp b) = returns TAPE_ERROR.
Proof.
  intros H0 Hlast Hc. unfold parse, parse_from. rewrite H0.
  set (m0 := {| parser := new_structural_parser dp 0; builder := b; value := 0;
                trace := []; moves := [] |}).
  rewrite !first_value_unfold.
  destruct (at_end (parser m0)); [discriminate|].
  destruct (TRY B start_document m0) as [[] m1 | e m1 | m1] eqn:Htry;
    [ | intros [= -> _] _;
        assert (H := inv_call _ _ _ _ (success_is_not_returned_early B) start_document
                       ltac:(discriminate) m0 Logic.I);
        rewrite Htry in H; now contradiction H
      | discriminate ].
  destruct (TRY_keeps _ _ _ Htry) as [Hb1 Hs1].
  destruct (advance_value m1) as [c1 m2 | e m2 | m2] eqn:Hadv;
    [ | exfalso; revert Hadv; unfold advance_value, bind, advance, set_value, deref;
        repeat (destruct (index _ _)); discriminate
      | discriminate ].
  destruct (advance_value_keeps _ _ _ Hadv) as [Hb2 Hs2].
  destruct (c1 == "{"); [apply run_residual|].
  destruct (c1 == "[").
  - unfold last_structural_char, deref.
    rewrite Hs2, Hs1, Hb2, Hb1. cbn [m0 parser new_structural_parser dom_parser buf].
    rewrite Hlast, Hc.
    destruct (c == "]"); [apply run_residual | reflexivity].
  - destruct (TRY B (root_primitive (value m2)) m2) as [[] m3 | e m3 | m3] eqn:Htry';
      [ apply run_residual
      | intros [= -> _] _;
        assert (H := inv_call _ _ _ _ (success_is_not_returned_early B)
                       (root_primitive (value m2)) ltac:(discriminate) m2 Logic.I);
        rewrite Htry' in H; now contradiction H
      | discriminate ].
Qed.

End Residual.

(** C2, as the specification has it, fails: after the complete value [[]]
    the residual structurals [,] and [1] are not left for the next call.
    In streaming mode [generic_next] takes the comma for the separator of
    an enclosing array, reads on, and the call returns [TAPE_ERROR]. *)
Lemma residual_comma_is_not_left :
  ~ (value_then_residual false array_comma_number ["["; "]"]%byte [","; "1"]%byte
       empty_container ->
     fst (parse noop_builder false 100 array_comma_number tt) = returns TAPE_ERROR
     /\ fst (parse noop_builder true 100 array_comma_number tt) = returns SUCCESS).
Proof.
  intros H.
  assert (Hv : value_then_residual false array_comma_number
                 ["["; "]"]%byte [","; "1"]%byte empty_container).
  { split; [reflexivity|]. split; [now exists 1%nat | discriminate]. }
  destruct (H Hv) as [_ Hs]. vm_compute in Hs. discriminate.
Qed.

(** ** Documents that are a scalar *)

Section RootScalar.

Context {T : Type}.
Variable B : Builder T.
Hypothesis B_quiet : quiet_at_root B.

Lemma TRY_at_root (ev : event) (m : machine T) :
  root_event ev ->
  exists b,
    TRY B ev m =
    Continue tt {| parser := parser m; builder := b; value := value m;
                   trace := trace m ++ [(ev, SUCCESS)]; moves := moves m |}.
Proof.
  intros Hev. unfold TRY.
  destruct (B_quiet ev (parser m) (builder m) Hev) as [He Hp].
  destruct (B ev (parser m) (builder m)) as [e [p b]]. cbn [fst snd] in He, Hp.
  subst e p. now exists b.
Qed.

(** A call on a scalar: the three callbacks, and what [finish] finds one
    structural further. *)
Lemma root_scalar_call (STREAMING : bool) (fuel : nat)
    (dp : dom_parser_implementation) (b : T) (first : Z) (c : byte) :
  (1 <= fuel)%nat ->
  let start := if STREAMING then next_structural_index dp else 0 in
  start <> n_structural_indexes dp ->
  index (structural_indexes dp) start = Some first ->
  index (input_buf dp) first = Some c ->
  c <> "{"%byte ->
  c <> "["%byte ->
  exists b',
    parse B STREAMING fuel dp b
    = (returns (if STREAMING then SUCCESS
                else if uint32_t (start + 1) =? n_structural_indexes dp
                     then SUCCESS else TAPE_ERROR),
       {| parser := with_next_structural_index
                      (with_next_structural (new_structural_parser dp start) (start + 1))
                      (uint32_t (start + 1));
          builder := b'; value := first;
          trace := [(start_document, SUCCESS); (root_primitive first, SUCCESS);
                    (end_document, SUCCESS)];
          moves := [start + 1] |}).
Proof.
  intros Hfuel start Hend Hfirst Hc Hbrace Hbracket.
  apply byte_is_false in Hbrace, Hbracket. apply Z.eqb_neq in Hend.
  unfold parse, parse_from. fold start.
  rewrite first_value_unfold. unfold at_end.
  cbn [parser new_structural_parser next_structural dom_parser]. rewrite Hend.
  match goal with
  | |- context [TRY B start_document ?m] =>
      destruct (TRY_at_root start_document m (or_introl eq_refl)) as [b1 ->]
  end.
  cbn [parser builder value trace moves app].
  rewrite (advance_value_reads _ first c) by assumption.
  rewrite Hbrace, Hbracket.
  cbn [parser builder value trace moves app new_structural_parser next_structural].
  match goal with
  | |- context [TRY B (root_primitive first) ?m] =>
      destruct (TRY_at_root (root_primitive first) m
                  (or_intror (or_introl (ex_intro _ first eq_refl)))) as [b2 ->]
  end.
  cbn [parser builder value trace moves app].
  destruct fuel as [|fuel]; [lia|]. cbn [run step]. unfold bind.
  match goal with
  | |- context [TRY B end_document ?m] =>
      destruct (TRY_at_root end_document m (or_intror (or_intror eq_refl))) as [b3 ->]
  end.
  exists b3. unfold return_finish, with_parser.
  cbn [parser builder value trace moves app].
  match goal with
  | |- context [finish STREAMING ?p] =>
      assert (Hs := finish_leaves STREAMING p);
      assert (Hf : fst (finish STREAMING p)
                   = if STREAMING then SUCCESS
                     else if uint32_t (start + 1) =? n_structural_indexes dp
                          then SUCCESS else TAPE_ERROR);
      [|destruct (finish STREAMING p) as [e p']; cbn [fst snd] in Hs, Hf;
        subst e p'; reflexivity]
  end.
  unfold finish.
  cbn [depth with_next_structural_index with_next_structural new_structural_parser
       dom_parser next_structural next_structural_index n_structural_indexes].
  cbn [Z.eqb negb].
  destruct STREAMING; cbn [negb andb]; [reflexivity|].
  now destruct (uint32_t (start + 1) =? n_structural_indexes dp).
Qed.

End RootScalar.

Lemma depth_builder_quiet_at_root : quiet_at_root depth_builder.
Proof.
  intros ev p b [-> | [[v ->] | ->]]; split; reflexivity.
Qed.

(** ** Scenario 6: a streaming session *)

(** C5. On the streaming input [1 2 3], three consecutive calls of
    [parse<true>], with a builder whose callbacks for a scalar document
    succeed and leave the parser alone, each return [SUCCESS], having
    invoked [start_document], [root_primitive] and [end_document], with
    [root_primitive] on the bytes [1], [2] and [3] in turn: each call
    leaves in [next_structural_index] the position, 1, 2 and 3, at which
    the next one starts.  A fourth call returns [EMPTY] and invokes
    nothing. *)
Theorem streaming_one_two_three
    (T : Type) (B : Builder T) (fuel : nat) (b : T) :
  quiet_at_root B ->
  (1 <= fuel)%nat ->
  let call1 := parse B true fuel one_two_three b in
  let call2 := parse_next B fuel call1 in
  let call3 := parse_next B fuel call2 in
  let call4 := parse_next B fuel call3 in
  (fst call1 = returns SUCCESS
   /\ events call1 = [start_document; root_primitive 0; end_document]
   /\ index (input_buf one_two_three) 0 = Some "1"%byte
   /\ next_structural_index (session call1) = 1)
  /\ (fst call2 = returns SUCCESS
      /\ events call2 = [start_document; root_primitive 2; end_document]
      /\ index (input_buf one_two_three) 2 = Some "2"%byte
      /\ next_structural_index (session call2) = 2)
  /\ (fst call3 = returns SUCCESS
      /\ events call3 = [start_document; root_primitive 4; end_document]
      /\ index (input_buf one_two_three) 4 = Some "3"%byte
      /\ next_structural_index (session call3) = 3)
  /\ (fst call4 = returns EMPTY /\ events call4 = []).
Proof.
  intros Hq Hfuel. cbv zeta.
  destruct (root_scalar_call B Hq true fuel one_two_three b 0 "1"%byte Hfuel)
    as [b1 H1]; cbv zeta; try first [reflexivity | discriminate].
  rewrite H1.
  match goal with |- context [parse_next B fuel ?r] => set (r1 := r) end.
  destruct (root_scalar_call B Hq true fuel (session r1) (builder (snd r1))
              2 "2"%byte Hfuel)
    as [b2 H2]; cbv zeta; try first [reflexivity | discriminate].
  change (parse_next B fuel r1)
    with (parse B true fuel (session r1) (builder (snd r1))).
  rewrite H2.
  match goal with |- context [parse_next B fuel ?r] => set (r2 := r) end.
  destruct (root_scalar_call B Hq true fuel (session r2) (builder (snd r2))
              4 "3"%byte Hfuel)
    as [b3 H3]; cbv zeta; try first [reflexivity | discriminate].
  change (parse_next B fuel r2)
    with (parse B true fuel (session r2) (builder (snd r2))).
  rewrite H3.
  match goal with |- context [parse_next B fuel ?r] => set (r3 := r) end.
  unfold parse_next.
  rewrite (parse_at_end T B true fuel (session r3) (builder (snd r3)))
    by reflexivity.
  repeat split; reflexivity.
Qed.

Lemma streaming_one_two_three_witness :
  quiet_at_root depth_builder
  /\ (1 <= 1)%nat
  /\ let call1 := parse depth_builder true 1 one_two_three tt in
     let call2 := parse_next depth_builder 1 call1 in
     let call3 := parse_next depth_builder 1 call2 in
     let call4 := parse_next depth_builder 1 call3 in
     (fst call1 = returns SUCCESS
      /\ events call1 = [start_document; root_primitive 0; end_document]
      /\ index (input_buf one_two_three) 0 = Some "1"%byte
      /\ next_structural_index (session call1) = 1)
     /\ (fst call2 = returns SUCCESS
         /\ events call2 = [start_document; root_primitive 2; end_document]
         /\ index (input_buf one_two_three) 2 = Some "2"%byte
         /\ next_structural_index (session call2) = 2)
     /\ (fst call3 = returns SUCCESS
         /\ events call3 = [start_document; root_primitive 4; end_document]
         /\ index (input_buf one_two_three) 4 = Some "3"%byte
         /\ next_structural_index (session call3) = 3)
     /\ (fst call4 = returns EMPTY /\ events call4 = []).
Proof.
  split; [exact depth_builder_quiet_at_root|]. split; [lia|].
  apply (streaming_one_two_three unit depth_builder 1 tt).
  - exact depth_builder_quiet_at_root.
  - lia.
Defined.

(** What the driver does with the structurals that follow a container
    depends on the first of them.  After [{"a":1}] a number is left for the
    next call; after [[]] a comma is read on, and with a builder that
    accepts it even the non-streaming call on [[],1]] returns [SUCCESS]. *)
Example residual_after_a_container :
  (fst (parse noop_builder true 100 object_number tt) = returns SUCCESS
   /\ next_structural_index (session (parse noop_builder true 100 object_number tt)) = 5
   /\ fst (parse noop_builder false 100 object_number tt) = returns TAPE_ERROR)
  /\ (events (parse noop_builder true 100 array_comma_number tt)
      = [start_document; empty_array; try_resume_array; primitive 3]
      /\ fst (parse noop_builder true 100 array_comma_number tt) = returns TAPE_ERROR)
  /\ (fst (parse noop_builder false 100 array_comma_number_bracket tt) = returns SUCCESS
      /\ fst (parse depth_builder false 100 array_comma_number_bracket tt)
         = returns TAPE_ERROR).
Proof. vm_compute. repeat split; reflexivity. Qed.

(** A string that follows a nested array: [generic_next] has read the
    comma after it when it jumps to [array_value], and [array_next] then
    finds the next element where it looks for a comma. *)
Example string_after_nested_array :
  events (parse noop_builder true 100 nested_then_strings tt)
  = [start_document; start_array; start_array; primitive 2; end_array;
     try_resume_array_value 5; primitive 5]
  /\ fst (parse noop_builder true 100 nested_then_strings tt) = returns TAPE_ERROR.
Proof. vm_compute. split; reflexivity. Qed.

(** ** Termination *)

Lemma index_in_range {A : Type} (a : list A) (i : Z) (x : A) :
  index a i = Some x -> 0 <= i < Z.of_nat (length a).
Proof.
  unfold index. destruct (i <? 0) eqn:Hi; [discriminate|].
  apply Z.ltb_ge in Hi. intros H.
  assert (Hn : nth_error a (Z.to_nat i) <> None) by congruence.
  apply nth_error_Some in Hn. lia.
Qed.

Section Termination.

Context {T : Type}.
Variable B : Builder T.
Hypothesis keeps_cursor : keeps B next_structural.
Hypothesis keeps_length :
  keeps B (fun p => length (structural_indexes (dom_parser p))).
Variable STREAMING : bool.

Lemma advanced_invariant (k : Z) (len : nat) :
  invariant B (advanced k len) (fun _ => True) (fun _ _ => True).
Proof.
  constructor; auto.
  - intros m i (Hk & Hlen & Hrange) _. unfold advanced, move_to.
    cbn [parser with_next_structural next_structural dom_parser].
    repeat split; auto; lia.
  - intros ev _ m (Hk & Hlen & Hrange). unfold TRY.
    assert (Hc := keeps_cursor ev (parser m) (builder m)).
    assert (Hl := keeps_length ev (parser m) (builder m)).
    destruct (B ev (parser m) (builder m)) as [e [p b]]. cbn [fst snd] in Hc, Hl.
    destruct (is_error e); [exact Logic.I|].
    unfold advanced. cbn [parser]. repeat split; auto; try congruence; lia.
Qed.

Lemma not_advanced_TRY (k : Z) (len : nat) (ev : event) :
  triple (not_advanced k len) (TRY B ev) (fun _ => not_advanced k len)
    (fun _ _ => True).
Proof.
  intros m [Hk Hlen]. unfold TRY.
  assert (Hc := keeps_cursor ev (parser m) (builder m)).
  assert (Hl := keeps_length ev (parser m) (builder m)).
  destruct (B ev (parser m) (builder m)) as [e [p b]]. cbn [fst snd] in Hc, Hl.
  destruct (is_error e); [exact Logic.I|].
  split; cbn [parser]; congruence.
Qed.

Lemma advance_advances (k : Z) (len : nat) :
  triple (@not_advanced T k len) advance (fun _ => advanced k len) (fun _ _ => True).
Proof.
  intros m [Hk Hlen]. unfold advance.
  destruct (index _ _) as [i|] eqn:Hi; [|exact Logic.I].
  apply index_in_range in Hi. unfold advanced, move_to.
  cbn [parser with_next_structural next_structural dom_parser].
  repeat split; auto; lia.
Qed.

Lemma advance_char_advances (k : Z) (len : nat) :
  triple (@not_advanced T k len) advance_char (fun _ => advanced k len)
    (fun _ _ => True).
Proof.
  apply triple_bind with (1 := advance_advances k len). intros p.
  apply (triple_deref B _ _ _ (advanced_invariant k len)).
Qed.

Lemma advance_value_advances (k : Z) (len : nat) :
  triple (@not_advanced T k len) advance_value (fun _ => advanced k len)
    (fun _ _ => True).
Proof.
  apply triple_bind with (1 := advance_advances k len). intros v.
  apply triple_bind with (Q' := fun _ => advanced k len).
  - apply (triple_set_value B _ _ _ (advanced_invariant k len)).
  - intros _. apply (triple_deref B _ _ _ (advanced_invariant k len)).
Qed.

Ltac walk_on Inv :=
  repeat first
    [ apply (triple_goto _ _ _ _ Inv)
    | apply (triple_return_tape_error _ _ _ _ Inv)
    | apply triple_if; intros ?
    | eapply triple_bind;
      [ first [ apply (triple_advance_value _ _ _ _ Inv)
              | apply (triple_advance_char _ _ _ _ Inv)
              | apply (triple_advance _ _ _ _ Inv)
              | apply (triple_deref _ _ _ _ Inv)
              | apply triple_get_value
              | apply (triple_set_value _ _ _ _ Inv)
              | apply (triple_TRY _ _ _ _ Inv); discriminate ]
      | intros ? ] ].

(** The state a jump leads to has a smaller rank. *)
Lemma step_decreases (l : label) (m : machine T) :
  match step B STREAMING l m with
  | Continue l' m' => (rank l' m' < rank l m)%nat
  | _ => True
  end.
Proof.
  set (k := next_structural (parser m)).
  set (len := length (structural_indexes (dom_parser (parser m)))).
  assert (Hm : not_advanced k len m) by (split; reflexivity).
  assert (Hrank : forall l' (m' : machine T),
             l <> document_end ->
             at_label (advanced k len) (fun _ => True) l' m' ->
             (rank l' m' < rank l m)%nat).
  { intros l' m' Hl H. unfold at_label in H.
    destruct l'; cbn [label_is_document_end] in H;
      try (destruct H as (Hk & Hlen & Hrange));
      destruct l; try congruence; unfold rank, remaining; fold k len;
      try rewrite Hlen; lia. }
  assert (Hgo : forall (Q : label -> machine T -> Prop) (c : M T label),
             triple (not_advanced k len) c Q (fun _ _ => True) ->
             (forall l' m', Q l' m' -> (rank l' m' < rank l m)%nat) ->
             match c m with
             | Continue l' m' => (rank l' m' < rank l m)%nat
             | _ => True
             end).
  { intros Q c Hc HQ. specialize (Hc m Hm). destruct (c m); auto. }
  assert (Inv := advanced_invariant k len).
  destruct l; cbn [step];
    try (apply Hgo with (Q := at_label (advanced k len) (fun _ => True));
         [ eapply triple_bind;
           [ first [ apply advance_value_advances | apply advance_char_advances ]
           | intros ?; walk_on Inv ]
         | intros l' m'; apply Hrank; discriminate ]).
  - (* object_value *)
    apply Hgo with (Q := at_label (advanced k len) (fun _ => True));
      [|intros l' m'; apply Hrank; discriminate].
    apply triple_bind with (Q' := fun _ => not_advanced k len);
      [intros m1 H1; exact H1 | intros key].
    eapply triple_bind; [apply advance_value_advances | intros c; walk_on Inv].
  - (* array_value *)
    apply Hgo with (Q := fun l' m' =>
                     at_label (advanced k len) (fun _ => True) l' m'
                     \/ (l' = array_next /\ not_advanced k len m')).
    + apply triple_bind with (Q' := fun _ => not_advanced k len);
        [intros m1 H1; exact H1 | intros v].
      eapply triple_bind with (Q' := fun _ => not_advanced k len).
      { intros m1 H1. unfold deref. now destruct (index _ _). }
      intros c. repeat (apply triple_if; intros ?).
      * apply triple_weaken with (P' := not_advanced k len)
                                 (Q' := at_label (advanced k len) (fun _ => True));
          [|auto|intros; now left].
        eapply triple_bind; [apply advance_value_advances | intros c'; walk_on Inv].
      * apply triple_weaken with (P' := not_advanced k len)
                                 (Q' := at_label (advanced k len) (fun _ => True));
          [|auto|intros; now left].
        eapply triple_bind; [apply advance_value_advances | intros c'; walk_on Inv].
      * apply triple_bind with (Q' := fun _ => not_advanced k len);
          [intros m1 H1; exact H1 | intros v'].
        eapply triple_bind; [apply not_advanced_TRY | intros ?].
        apply triple_ret. intros m1 H1. right. now split.
    + intros l' m' [H | [-> [Hk Hlen]]].
      * apply Hrank; [discriminate | exact H].
      * unfold rank, remaining. rewrite Hk, Hlen. unfold k, len. lia.
  - (* generic_next: the back-up is left *)
    apply triple_bind with (Q' := fun _ _ => True); [now intros m1 Hm1|].
    intros _. apply triple_ret. intros m1 _. exact Logic.I.
  - (* document_end *)
    change (match step B STREAMING document_end m with
            | Continue l' m' => (rank l' m' < rank document_end m)%nat
            | _ => True
            end).
    rewrite step_document_end.
    destruct (B end_document (parser m) (builder m)) as [e [p b]].
    now destruct (is_error e).
Qed.

(** With fuel above the rank, the walk does not run out of fuel. *)
Lemma run_terminates (fuel : nat) :
  forall l m,
    (rank l m < fuel)%nat ->
    fst (run B STREAMING fuel l m) <> out_of_fuel.
Proof.
  induction fuel as [|fuel IH]; intros l m Hrank; [lia|].
  cbn [run]. assert (H := step_decreases l m).
  destruct (step B STREAMING l m) as [l' m' | e m' | m']; try discriminate.
  apply IH. lia.
Qed.

(** [parse] returns, or reads outside of the memory it was given, within
    a number of states that the size of the index array bounds. *)
Lemma parse_terminates (fuel : nat) (dp : dom_parser_implementation) (b : T) :
  (2 * length (structural_indexes dp) + 2 < fuel)%nat ->
  fst (parse B STREAMING fuel dp b) <> out_of_fuel.
Proof.
  intros Hfuel. unfold parse, parse_from.
  set (m0 := {| parser := _; builder := b; value := 0; trace := []; moves := [] |}).
  assert (H : triple (fun m => length (structural_indexes (dom_parser (parser m)))
                             = length (structural_indexes dp))
                (first_value B STREAMING)
                (fun l m => (rank l m < fuel)%nat) (fun _ _ => True)).
  { intros m Hlen. rewrite first_value_unfold.
    destruct (at_end (parser m)); [exact Logic.I|].
    assert (H1 := not_advanced_TRY (next_structural (parser m)) _ start_document m
                    (conj eq_refl Hlen)).
    destruct (TRY B start_document m) as [[] m1 | e m1 | m1]; try exact Logic.I.
    assert (H2 := advance_value_advances (next_structural (parser m)) _ m1 H1).
    destruct (advance_value m1) as [c m2 | e m2 | m2]; try exact Logic.I.
    assert (Hany : forall l, (rank l m2 < fuel)%nat).
    { intros l. destruct H2 as (Hk & Hl & Hr).
      destruct l; unfold rank, remaining; try rewrite Hl; lia. }
    destruct (c == "{"); [apply Hany|].
    destruct (c == "[").
    - destruct STREAMING; [apply Hany|].
      unfold last_structural_char, deref.
      destruct (index (structural_indexes _) _); [|exact Logic.I].
      destruct (index (buf _) _); [|exact Logic.I].
      destruct (_ == "]"); [apply Hany | exact Logic.I].
    - destruct (TRY B (root_primitive (value m2)) m2) as [[] m3 | e m3 | m3];
        try exact Logic.I.
      cbn [rank]. lia. }
  specialize (H m0 eq_refl).
  destruct (first_value B STREAMING m0) as [l m1 | e m1 | m1]; try discriminate.
  now apply run_terminates.
Qed.

End Termination.

(** ** The walk of a value *)

(** The driver is followed on the structural bytes alone: first each state
    of [parse], run with [noop_builder], is shown to do what [token_step]
    tells, and then [token_step] is followed through a value by induction
    on the grammar. *)

(** The structural bytes of a session are read through its index array. *)
Lemma structural_bytes_indexed (dp : dom_parser_implementation) (all : list byte) :
  structural_bytes dp = map Some all -> indexed dp all.
Proof.
  intros Hreads k c Hc.
  assert (H := f_equal (fun l => nth_error l k) Hreads). cbv beta in H.
  unfold structural_bytes in H. rewrite !nth_error_map, Hc, nth_error_firstn in H.
  destruct (Nat.ltb k (Z.to_nat (n_structural_indexes dp))); [|discriminate].
  destruct (nth_error (structural_indexes dp) k) as [i|] eqn:Hi; [|discriminate].
  cbn [option_map] in H. injection H as H.
  exists i. split; [|exact H].
  unfold index. replace (Z.of_nat k <? 0) with false by (symmetry; apply Z.ltb_ge; lia).
  now rewrite Nat2Z.id.
Qed.

Section TokenMachine.

Variable dp : dom_parser_implementation.
Variable all : list byte.
Hypothesis dp_reads : indexed dp all.
Variable STREAMING : bool.

(** The structural byte at a position of the cursor. *)
Lemma reads_at (k : nat) (c : byte) (ts : list byte) :
  skipn k all = c :: ts ->
  exists i,
    index (structural_indexes dp) (Z.of_nat k) = Some i
    /\ index (input_buf dp) i = Some c
    /\ skipn (S k) all = ts.
Proof.
  intros Hk.
  assert (Hc : nth_error all k = Some c).
  { rewrite <- hd_error_skipn, Hk. reflexivity. }
  assert (Hts : skipn (S k) all = ts).
  { change (S k) with (1 + k)%nat. rewrite <- skipn_skipn, Hk. reflexivity. }
  destruct (dp_reads k c Hc) as (i & Hi & Hb).
  exists i. repeat split; auto.
Qed.

Lemma bind_Continue {A C : Type} (c : M unit A) (k : A -> M unit C)
    (m m' : machine unit) (a : A) :
  c m = Continue a m' -> bind c k m = k a m'.
Proof. intros H. unfold bind. now rewrite H. Qed.

Lemma rep_advance (c vb : byte) (ts : list byte) (m : machine unit) :
  represents dp all (c :: ts) vb m ->
  exists i m',
    advance m = Continue i m'
    /\ index (input_buf dp) i = Some c
    /\ represents dp all ts vb m'.
Proof.
  intros (k & Hp & Hk & Hv).
  destruct (reads_at k c ts Hk) as (i & Hi & Hc & Hts).
  exists i, (move_to m (next_structural (parser m) + 1)). unfold advance.
  rewrite Hp. cbn [with_next_structural new_structural_parser dom_parser next_structural].
  rewrite Hi. repeat split; auto.
  exists (S k). unfold move_to. cbn [parser value]. rewrite Hp.
  repeat split; auto. unfold with_next_structural. cbn. f_equal. lia.
Qed.

Lemma rep_advance_char (c vb : byte) (ts : list byte) (m : machine unit) :
  represents dp all (c :: ts) vb m ->
  exists m', advance_char m = Continue c m' /\ represents dp all ts vb m'.
Proof.
  intros H. destruct (rep_advance c vb ts m H) as (i & m' & Ha & Hc & Hrep).
  exists m'. split; [|exact Hrep].
  unfold advance_char. rewrite (bind_Continue _ _ _ _ _ Ha). unfold deref.
  destruct Hrep as (k & Hp & _). rewrite Hp.
  cbn [with_next_structural new_structural_parser buf]. now rewrite Hc.
Qed.

Lemma rep_set_value (i : Z) (c vb : byte) (ts : list byte) (m : machine unit) :
  index (input_buf dp) i = Some c ->
  represents dp all ts vb m ->
  exists m', set_value i m = Continue tt m' /\ represents dp all ts c m'.
Proof.
  intros Hc (k & Hp & Hk & _). eexists. split; [reflexivity|].
  exists k. cbn [parser value]. now repeat split.
Qed.

Lemma rep_advance_value (c vb : byte) (ts : list byte) (m : machine unit) :
  represents dp all (c :: ts) vb m ->
  exists m', advance_value m = Continue c m' /\ represents dp all ts c m'.
Proof.
  intros H. destruct (rep_advance c vb ts m H) as (i & m1 & Ha & Hc & Hrep).
  destruct (rep_set_value i c vb ts m1 Hc Hrep) as (m2 & Hs & Hrep2).
  exists m2. split; [|exact Hrep2].
  unfold advance_value. rewrite (bind_Continue _ _ _ _ _ Ha).
  rewrite (bind_Continue _ _ _ _ _ Hs). unfold deref.
  destruct Hrep2 as (k & Hp & _). rewrite Hp.
  cbn [with_next_structural new_structural_parser buf]. now rewrite Hc.
Qed.

Lemma rep_TRY (ev : event) (vb : byte) (ts : list byte) (m : machine unit) :
  represents dp all ts vb m ->
  exists m', TRY noop_builder ev m = Continue tt m' /\ represents dp all ts vb m'.
Proof.
  intros (k & Hp & Hk & Hv). eexists. split; [reflexivity|].
  exists k. cbn [parser value]. now repeat split.
Qed.

Lemma rep_deref (vb : byte) (ts : list byte) (m : machine unit) :
  represents dp all ts vb m -> deref (value m) m = Continue vb m.
Proof.
  intros (k & Hp & Hk & Hv). unfold deref. rewrite Hp.
  cbn [with_next_structural new_structural_parser buf]. now rewrite Hv.
Qed.

(** The byte that ends the document is left for the next call. *)
Lemma rep_back_up (c vb : byte) (ts : list byte) (m : machine unit) :
  represents dp all (c :: ts) vb m ->
  exists m1 m2,
    advance_char m = Continue c m1
    /\ back_up m1 = Continue tt m2
    /\ represents dp all (c :: ts) vb m2.
Proof.
  intros H. destruct (rep_advance_char c vb ts m H) as (m1 & Ha & Hrep).
  exists m1, (move_to m1 (next_structural (parser m1) - 1)).
  repeat split; auto.
  destruct H as (k & Hp & Hk & Hv). destruct Hrep as (k1 & Hp1 & Hk1 & Hv1).
  assert (Hm1 : parser m1 = with_next_structural (new_structural_parser dp 0)
                              (Z.of_nat k + 1)).
  { revert Ha. unfold advance_char, bind, advance.
    destruct (index (structural_indexes _) _); [|discriminate].
    unfold deref. cbn [parser move_to].
    destruct (index (buf _) _); [|discriminate].
    intros [= _ <-]. cbn [parser move_to]. rewrite Hp. reflexivity. }
  exists k. unfold move_to. cbn [parser value]. rewrite Hm1.
  repeat split; auto. unfold with_next_structural. cbn. f_equal. lia.
Qed.

Ltac exec :=
  repeat first
    [ match goal with
      | H : represents _ _ (_ :: _) _ ?m |- context [bind advance_value _ ?m] =>
          let m' := fresh "m" in
          let E := fresh "E" in
          let H' := fresh "Hrep" in
          destruct (rep_advance_value _ _ _ _ H) as (m' & E & H');
          rewrite (bind_Continue _ _ _ _ _ E); clear E H
      | H : represents _ _ (_ :: _) _ ?m |- context [bind advance_char _ ?m] =>
          let m' := fresh "m" in
          let E := fresh "E" in
          let H' := fresh "Hrep" in
          destruct (rep_advance_char _ _ _ _ H) as (m' & E & H');
          rewrite (bind_Continue _ _ _ _ _ E); clear E H
      | H : represents _ _ _ _ ?m |- context [bind (TRY noop_builder ?ev) _ ?m] =>
          let m' := fresh "m" in
          let E := fresh "E" in
          let H' := fresh "Hrep" in
          destruct (rep_TRY ev _ _ _ H) as (m' & E & H');
          rewrite (bind_Continue _ _ _ _ _ E); clear E H
      | |- context [bind get_value ?k ?m] =>
          change (bind get_value k m) with (k (value m) m); cbv beta
      | H : represents _ _ _ _ ?m |- context [bind (deref (value ?m)) _ ?m] =>
          rewrite (bind_Continue _ _ _ _ _ (rep_deref _ _ _ H))
      | H : (_ == _) = _ |- _ => rewrite H
      end
    | progress cbn [negb] ].

Ltac arrive := eexists; split; [reflexivity | assumption].

(** A state of [parse] does what [token_step] tells. *)
Lemma step_follows_tokens (l l' : label) (ts ts' : list byte) (vb vb' : byte)
    (m : machine unit) :
  represents dp all ts vb m ->
  token_step l ts vb = Some (l', ts', vb') ->
  exists m',
    step noop_builder STREAMING l m = Continue l' m'
    /\ represents dp all ts' vb' m'.
Proof.
  intros Hrep.
  destruct l; cbn [token_step step].
  - (* generic_object_begin *)
    destruct ts as [|c ts1]; [discriminate|].
    destruct (c == "}") eqn:H1; [|destruct (c == quote) eqn:H2; [|discriminate]];
      intros [= <- <- <-]; exec; arrive.
  - (* object_colon *)
    destruct ts as [|c ts1]; [discriminate|].
    destruct (c == ":") eqn:H1; cbn [negb]; [|discriminate].
    intros [= <- <- <-]; exec; arrive.
  - (* object_value *)
    destruct ts as [|c ts1]; [discriminate|].
    destruct (c == "{") eqn:H1; [|destruct (c == "[") eqn:H2].
    + destruct ts1 as [|c1 ts2]; [discriminate|].
      destruct (c1 == "}") eqn:H3; [|destruct (c1 == quote) eqn:H4; [|discriminate]];
        intros [= <- <- <-]; exec; arrive.
    + destruct ts1 as [|c1 ts2]; [discriminate|].
      destruct (c1 == "]") eqn:H3;
        intros [= <- <- <-]; exec; arrive.
    + intros [= <- <- <-]; exec; arrive.
  - (* object_next *)
    destruct ts as [|c ts1]; [discriminate|].
    destruct (c == ",") eqn:H1; [|destruct (c == "}") eqn:H2; [|discriminate]].
    + destruct ts1 as [|c1 ts2]; [discriminate|].
      destruct (c1 == quote) eqn:H3; cbn [negb]; [|discriminate].
      intros [= <- <- <-]; exec; arrive.
    + intros [= <- <- <-]; exec; arrive.
  - (* generic_array_begin *)
    destruct ts as [|c ts1]; [discriminate|].
    destruct (c == "]") eqn:H1;
      intros [= <- <- <-]; exec; arrive.
  - (* array_value *)
    destruct (vb == "{") eqn:H1; [|destruct (vb == "[") eqn:H2].
    + destruct ts as [|c ts1]; [discriminate|].
      destruct (c == "}") eqn:H3; [|destruct (c == quote) eqn:H4; [|discriminate]];
        intros [= <- <- <-]; exec; arrive.
    + destruct ts as [|c ts1]; [discriminate|].
      destruct (c == "]") eqn:H3;
        intros [= <- <- <-]; exec; arrive.
    + intros [= <- <- <-]; exec; arrive.
  - (* array_next *)
    destruct ts as [|c ts1]; [discriminate|].
    destruct (c == ",") eqn:H1; [|destruct (c == "]") eqn:H2; [|discriminate]].
    + destruct ts1 as [|c1 ts2]; [discriminate|].
      intros [= <- <- <-]. exec.
      destruct (rep_advance _ _ _ _ Hrep0) as (i & m1 & Ha & Hc & Hrep1).
      rewrite (bind_Continue _ _ _ _ _ Ha).
      destruct (rep_set_value i c1 _ _ m1 Hc Hrep1) as (m2 & Hs & Hrep2).
      rewrite (bind_Continue _ _ _ _ _ Hs).
      arrive.
    + intros [= <- <- <-]; exec; arrive.
  - (* generic_next *)
    destruct ts as [|c ts1]; [discriminate|].
    destruct (c == ",") eqn:H1;
      [|destruct (c == "]") eqn:H2; [|destruct (c == "}") eqn:H3]].
    + destruct ts1 as [|c1 ts2]; [discriminate|].
      destruct (c1 == quote) eqn:H4;
        [|destruct (c1 == "[") eqn:H5; [|destruct (c1 == "{") eqn:H6]].
      * destruct ts2 as [|c2 ts3]; [discriminate|].
        destruct (c2 == ":") eqn:H7;
          [|destruct (c2 == ",") eqn:H8;
            [|destruct (c2 == "]") eqn:H9; [|discriminate]]];
          intros [= <- <- <-]; exec; arrive.
      * intros [= <- <- <-]; exec; arrive.
      * intros [= <- <- <-]; exec; arrive.
      * intros [= <- <- <-]; exec; arrive.
    + intros [= <- <- <-]; exec; arrive.
    + intros [= <- <- <-]; exec; arrive.
    + intros [= <- <- <-].
      destruct (rep_back_up _ _ _ _ Hrep) as (m1 & m2 & Ha & Hb & Hrep2).
      rewrite (bind_Continue _ _ _ _ _ Ha). rewrite H1, H2, H3.
      rewrite (bind_Continue _ _ _ _ _ Hb).
      arrive.
  - discriminate.
Qed.

(** A walk on the structural bytes is a number of states of [parse]. *)
Lemma run_follows_tokens (s s' : label * list byte * byte) :
  token_steps s s' ->
  forall m,
    represents dp all (snd (fst s)) (snd s) m ->
    exists (n : nat) (m' : machine unit),
      (forall fuel,
          run noop_builder STREAMING (n + fuel) (fst (fst s)) m
          = run noop_builder STREAMING fuel (fst (fst s')) m')
      /\ represents dp all (snd (fst s')) (snd s') m'.
Proof.
  induction 1 as [s | l ts vb [[l1 ts1] vb1] s2 Hstep Hsteps IH]; intros m Hrep.
  - exists 0%nat, m. split; [reflexivity | exact Hrep].
  - cbn [fst snd] in *.
    destruct (step_follows_tokens l l1 ts ts1 vb vb1 m Hrep Hstep) as (m1 & Hm1 & Hrep1).
    destruct (IH m1 Hrep1) as (n & m2 & Hrun & Hrep2).
    exists (S n), m2. split; [|exact Hrep2].
    intros fuel. cbn [Nat.add run]. rewrite Hm1. apply Hrun.
Qed.

End TokenMachine.

(** ** The grammar, walked *)

Lemma token_steps_trans (s1 s2 s3 : label * list byte * byte) :
  token_steps s1 s2 -> token_steps s2 s3 -> token_steps s1 s3.
Proof.
  induction 1 as [s | l ts vb s' s'' Hstep Hsteps IH]; auto.
  intros H3. eapply token_steps_next; eauto.
Qed.

Lemma byte_is_other (c a b : byte) :
  (c == a) = true -> (a == b) = false -> (c == b) = false.
Proof. intros Ha Hb. apply byte_is_true in Ha. now subst c. Qed.

Lemma starts_scalar_spec (c : byte) :
  starts_scalar c = true ->
  (c == "{") = false /\ (c == "}") = false /\ (c == "[") = false
  /\ (c == "]") = false /\ (c == ",") = false /\ (c == ":") = false.
Proof.
  unfold starts_scalar.
  destruct (c == "{"), (c == "}"), (c == "["), (c == "]"), (c == ","), (c == ":");
    cbn; intros H; try discriminate; repeat split.
Qed.

(** One jump on the structural bytes, decided by the tests at hand. *)
Ltac decide_bytes :=
  repeat first
    [ match goal with
      | H : (?c == ?a) = _ |- context [?c == ?a] => rewrite H
      | H : (?c == ?a) = true |- context [?c == ?b] =>
          rewrite (byte_is_other c a b H eq_refl)
      end
    | progress cbn [negb andb orb] ].

Ltac jump :=
  eapply token_steps_next; [cbn [token_step]; decide_bytes; reflexivity|].

(** The kind of a value, from its first byte. *)
Lemma take_kind (strict : bool) (fuel : nat) (c : byte) (ts : list byte)
    (k : value_kind) (rest : list byte) :
  take_value strict fuel (c :: ts) = Some (k, rest) ->
  (c == "{") = false -> (c == "[") = false ->
  k = scalar.
Proof.
  destruct fuel as [|fuel]; [discriminate|]. cbn [take_value].
  intros H Hbrace Hbracket. rewrite Hbrace, Hbracket in H.
  destruct (starts_scalar c); [|discriminate]. now injection H as <- _.
Qed.

Lemma container_then_generic (strict : bool) (fuel : nat) (c : byte)
    (ts : list byte) (k : value_kind) (rest : list byte) :
  take_value strict fuel (c :: ts) = Some (k, rest) ->
  (c == "{") = true \/ (c == "[") = true ->
  then_generic true k = true.
Proof.
  destruct fuel as [|fuel]; [discriminate|]. cbn [take_value].
  intros H Hc.
  destruct k; [|reflexivity|reflexivity].
  exfalso. destruct (c == "{").
  - destruct ts as [|c1 ts1]; [discriminate|].
    destruct (c1 == "}"); [discriminate|].
    destruct (c1 == quote); [|discriminate].
    destruct (take_members strict fuel ts1); discriminate.
  - destruct Hc as [Hc | Hc]; [discriminate|]. rewrite Hc in H.
    destruct ts as [|c1 ts1]; [discriminate|].
    destruct (c1 == "]"); [discriminate|].
    destruct (take_elements strict fuel (c1 :: ts1)); discriminate.
Qed.

Lemma walks_all (fuel : nat) : walks fuel.
Proof.
  induction fuel as [|fuel IH].
  { unfold walks. repeat split; intros; discriminate. }
  destruct IH as (IHE & IHV & IHO & IHA & IHM & IHMG & IHEL & IHT).
  (* the members of an object, from the value of one of them *)
  assert (members : forall ts vb rest,
             match take_value true fuel ts with
             | Some (_, c :: rest') =>
                 if c == "}" then Some rest'
                 else if c == "," then
                   match rest' with
                   | key :: rest'' =>
                       if key == quote then take_members true fuel rest'' else None
                   | [] => None
                   end
                 else None
             | _ => None
             end = Some rest ->
             exists vb', token_steps (object_value, ts, vb) (generic_next, rest, vb')).
  { intros ts vb rest H.
    destruct (take_value true fuel ts) as [[k [|c rest']]|] eqn:Hv; try discriminate.
    destruct (IHV ts vb k (c :: rest') Hv) as [vb1 Hsteps].
    destruct (c == "}") eqn:Hclose.
    - injection H as <-. exists vb1.
      eapply token_steps_trans; [exact Hsteps|].
      destruct k; cbn [after_member]; jump; apply token_steps_done.
    - destruct (c == ",") eqn:Hcomma; [|discriminate].
      destruct rest' as [|key rest'']; [discriminate|].
      destruct (key == quote) eqn:Hkey; [|discriminate].
      destruct k; cbn [after_member] in Hsteps.
      + destruct (IHM rest'' key rest H) as [vb2 Hm]. exists vb2.
        eapply token_steps_trans; [exact Hsteps|]. jump. exact Hm.
      + destruct (IHM rest'' key rest H) as [vb2 Hm]. exists vb2.
        eapply token_steps_trans; [exact Hsteps|]. jump. exact Hm.
      + destruct (IHMG c key rest'' vb1 rest Hcomma Hkey H) as [vb2 Hm]. exists vb2.
        eapply token_steps_trans; [exact Hsteps | exact Hm]. }
  unfold walks. repeat split.
  - (* an element of an array *)
    intros c ts k rest. cbn [take_value].
    destruct (c == "{") eqn:Hbrace; [|destruct (c == "[") eqn:Hbracket].
    + destruct ts as [|c1 ts1]; [discriminate|].
      destruct (c1 == "}") eqn:H1; [|destruct (c1 == quote) eqn:H2; [|discriminate]].
      * intros [= <- <-]. eexists. cbn [after_element]. jump. apply token_steps_done.
      * destruct (take_members true fuel ts1) as [remains|] eqn:Hm; [|discriminate].
        intros [= <- <-]. destruct (IHM ts1 c1 remains Hm) as [vb2 Hsteps].
        exists vb2. cbn [after_element]. jump. exact Hsteps.
    + destruct ts as [|c1 ts1]; [discriminate|].
      destruct (c1 == "]") eqn:H1.
      * intros [= <- <-]. eexists. cbn [after_element]. jump. apply token_steps_done.
      * destruct (take_elements true fuel (c1 :: ts1)) as [remains|] eqn:He;
          [|discriminate].
        intros [= <- <-]. destruct (IHEL c1 ts1 remains He) as [vb2 Hsteps].
        exists vb2. cbn [after_element]. jump. exact Hsteps.
    + destruct (starts_scalar c) eqn:Hs; [|discriminate].
      intros [= <- <-]. eexists. cbn [after_element]. jump. apply token_steps_done.
  - (* the value of a member *)
    intros ts vb k rest. cbn [take_value].
    destruct ts as [|c ts1]; [discriminate|].
    destruct (c == "{") eqn:Hbrace; [|destruct (c == "[") eqn:Hbracket].
    + destruct ts1 as [|c1 ts2]; [discriminate|].
      destruct (c1 == "}") eqn:H1; [|destruct (c1 == quote) eqn:H2; [|discriminate]].
      * intros [= <- <-]. eexists. cbn [after_member]. jump. apply token_steps_done.
      * destruct (take_members true fuel ts2) as [remains|] eqn:Hm; [|discriminate].
        intros [= <- <-]. destruct (IHM ts2 c1 remains Hm) as [vb2 Hsteps].
        exists vb2. cbn [after_member]. jump. exact Hsteps.
    + destruct ts1 as [|c1 ts2]; [discriminate|].
      destruct (c1 == "]") eqn:H1.
      * intros [= <- <-]. eexists. cbn [after_member]. jump. apply token_steps_done.
      * destruct (take_elements true fuel (c1 :: ts2)) as [remains|] eqn:He;
          [|discriminate].
        intros [= <- <-]. destruct (IHEL c1 ts2 remains He) as [vb2 Hsteps].
        exists vb2. cbn [after_member]. jump. exact Hsteps.
    + destruct (starts_scalar c) eqn:Hs; [|discriminate].
      intros [= <- <-]. eexists. cbn [after_member]. jump. apply token_steps_done.
  - (* an object, its brace read *)
    intros c ts vb k rest Hc. cbn [take_value]. rewrite Hc.
    destruct ts as [|c1 ts1]; [discriminate|].
    destruct (c1 == "}") eqn:H1; [|destruct (c1 == quote) eqn:H2; [|discriminate]].
    + intros [= <- <-]. eexists. jump. apply token_steps_done.
    + destruct (take_members true fuel ts1) as [remains|] eqn:Hm; [|discriminate].
      intros [= <- <-]. destruct (IHM ts1 c1 remains Hm) as [vb2 Hsteps].
      exists vb2. jump. exact Hsteps.
  - (* an array, its bracket read *)
    intros c ts vb k rest Hc. cbn [take_value].
    rewrite (byte_is_other c "[" "{" Hc eq_refl), Hc.
    destruct ts as [|c1 ts1]; [discriminate|].
    destruct (c1 == "]") eqn:H1.
    + intros [= <- <-]. eexists. jump. apply token_steps_done.
    + destruct (take_elements true fuel (c1 :: ts1)) as [remains|] eqn:He;
        [|discriminate].
      intros [= <- <-]. destruct (IHEL c1 ts1 remains He) as [vb2 Hsteps].
      exists vb2. jump. exact Hsteps.
  - (* the members, from the colon of the first *)
    intros ts vb rest. cbn [take_members].
    destruct ts as [|colon ts1]; [discriminate|].
    destruct (colon == ":") eqn:Hcolon; [|discriminate].
    intros H. destruct (members ts1 vb rest H) as [vb1 Hsteps].
    exists vb1. jump. exact Hsteps.
  - (* the members, from the comma that generic_next reads *)
    intros c key ts vb rest Hc Hkey. cbn [take_members].
    destruct ts as [|colon ts1]; [discriminate|].
    destruct (colon == ":") eqn:Hcolon; [|discriminate].
    intros H. destruct (members ts1 key rest H) as [vb1 Hsteps].
    exists vb1. jump. exact Hsteps.
  - (* the elements, from the first *)
    intros c ts rest. cbn [take_elements].
    destruct (take_value true fuel (c :: ts)) as [[k rest1]|] eqn:Hv; [|discriminate].
    intros Ht. destruct (IHE c ts k rest1 Hv) as [vb1 Hsteps].
    destruct (IHT (then_generic false k) rest1 vb1 rest Ht) as [vb2 Htail].
    exists vb2. eapply token_steps_trans; [exact Hsteps|].
    destruct k; exact Htail.
  - (* the elements, from a separator *)
    intros generic ts vb rest. cbn [take_tail].
    destruct ts as [|c ts1]; [discriminate|].
    destruct (c == "]") eqn:Hclose.
    { intros [= <-]. exists vb.
      destruct generic; cbn [separator]; jump; apply token_steps_done. }
    destruct (c == ",") eqn:Hcomma; [|discriminate].
    destruct ts1 as [|c1 ts2]; [discriminate|].
    cbn [andb].
    destruct generic; cbn [andb separator].
    + (* generic_next *)
      destruct (c1 == quote) eqn:Hquote.
      { destruct ts2 as [|c2 ts3]; [discriminate|].
        destruct (c2 == "]") eqn:Hend; [|discriminate].
        intros [= <-]. exists c1. jump. apply token_steps_done. }
      destruct (take_value true fuel (c1 :: ts2)) as [[k rest1]|] eqn:Hv;
        [|discriminate].
      intros Ht.
      destruct (c1 == "[") eqn:Hbracket; [|destruct (c1 == "{") eqn:Hbrace].
      * destruct (IHA c1 ts2 c1 k rest1 Hbracket Hv) as [vb1 Hsteps].
        rewrite (container_then_generic true fuel c1 ts2 k rest1 Hv) in Ht
          by (right; exact Hbracket).
        destruct (IHT true rest1 vb1 rest Ht) as [vb2 Htail].
        exists vb2. jump. eapply token_steps_trans; eassumption.
      * destruct (IHO c1 ts2 c1 k rest1 Hbrace Hv) as [vb1 Hsteps].
        rewrite (container_then_generic true fuel c1 ts2 k rest1 Hv) in Ht
          by (left; exact Hbrace).
        destruct (IHT true rest1 vb1 rest Ht) as [vb2 Htail].
        exists vb2. jump. eapply token_steps_trans; eassumption.
      * destruct (IHE c1 ts2 k rest1 Hv) as [vb1 Hsteps].
        assert (Hk := take_kind true fuel c1 ts2 k rest1 Hv Hbrace Hbracket).
        subst k. cbn [then_generic after_element] in Ht, Hsteps.
        destruct (IHT false rest1 vb1 rest Ht) as [vb2 Htail].
        exists vb2. jump. eapply token_steps_trans; eassumption.
    + (* array_next *)
      destruct (take_value true fuel (c1 :: ts2)) as [[k rest1]|] eqn:Hv;
        [|discriminate].
      intros Ht.
      destruct (IHE c1 ts2 k rest1 Hv) as [vb1 Hsteps].
      destruct (IHT (then_generic false k) rest1 vb1 rest Ht) as [vb2 Htail].
      exists vb2. jump. eapply token_steps_trans; [exact Hsteps|].
      destruct k; exact Htail.
Qed.

(** ** The first value of an input *)

Lemma take_scalar (strict : bool) (fuel : nat) (c : byte) (ts rest : list byte) :
  take_value strict fuel (c :: ts) = Some (scalar, rest) ->
  starts_scalar c = true /\ rest = ts.
Proof.
  destruct fuel as [|fuel]; [discriminate|]. cbn [take_value].
  destruct (c == "{").
  { destruct ts as [|c1 ts1]; [discriminate|].
    destruct (c1 == "}"); [discriminate|].
    destruct (c1 == quote); [|discriminate].
    destruct (take_members strict fuel ts1); discriminate. }
  destruct (c == "[").
  { destruct ts as [|c1 ts1]; [discriminate|].
    destruct (c1 == "]"); [discriminate|].
    destruct (take_elements strict fuel (c1 :: ts1)); discriminate. }
  destruct (starts_scalar c); [|discriminate].
  intros [= <-]. now split.
Qed.

Lemma take_first (strict : bool) (fuel : nat) (c : byte) (ts rest : list byte)
    (k : value_kind) :
  take_value strict fuel (c :: ts) = Some (k, rest) ->
  (c == "{") = true
  \/ ((c == "{") = false /\ (c == "[") = true)
  \/ (starts_scalar c = true /\ rest = ts).
Proof.
  destruct fuel as [|fuel]; [discriminate|]. cbn [take_value].
  destruct (c == "{"); [now left|].
  destruct (c == "["); [right; now left|].
  destruct (starts_scalar c); [|discriminate].
  intros [= _ <-]. right; right. now split.
Qed.

Lemma skipn_suffix {A : Type} (k : nat) (front back : list A) :
  back <> [] ->
  skipn k (front ++ back) = back ->
  k = length front.
Proof.
  intros Hback H.
  assert (Hlen := f_equal (@length A) H). rewrite length_skipn, length_app in Hlen.
  destruct (Nat.le_gt_cases (length (front ++ back)) k) as [Hle | Hgt].
  - rewrite skipn_all2 in H by exact Hle. now contradiction Hback.
  - rewrite length_app in Hgt. lia.
Qed.

Lemma skipn_last {A : Type} (l : list A) :
  l <> [] -> exists x, skipn (length l - 1) l = [x].
Proof.
  intros Hl. destruct (exists_last Hl) as (front & x & ->). exists x.
  rewrite length_app. cbn [length].
  replace (length front + 1 - 1)%nat with (length front) by lia.
  rewrite skipn_app, skipn_all, Nat.sub_diag. reflexivity.
Qed.

Section FirstValue.

Variable dp : dom_parser_implementation.
Variables first residual : list byte.
Variable k : value_kind.
Variable r0 : byte.
Variable r1 : list byte.
Hypothesis residual_is : residual = r0 :: r1.
Hypothesis dp_reads : structural_bytes dp = map Some (first ++ residual).
Hypothesis dp_value :
  exists fuel, take_value true fuel (first ++ residual) = Some (k, residual).
Hypothesis dp_start : next_structural_index dp = 0.
Hypothesis dp_count :
  n_structural_indexes dp = Z.of_nat (length (first ++ residual)).
Hypothesis dp_range : n_structural_indexes dp < 2 ^ 32.
Hypothesis residual_ends : k = scalar \/ ends_document r0.

(** At [document_end] with the cursor before the residual structurals,
    the streaming call returns [SUCCESS] and leaves the session there. *)
Lemma document_end_before_residual (fuel : nat) (vb : byte) (m : machine unit) :
  represents dp (first ++ residual) residual vb m ->
  exists m',
    run noop_builder true (S fuel) document_end m = (returns SUCCESS, m')
    /\ next_structural_index (dom_parser (parser m')) = Z.of_nat (length first)
    /\ n_structural_indexes (dom_parser (parser m')) = n_structural_indexes dp.
Proof.
  intros (pos & Hp & Hpos & _).
  assert (Hres : residual <> []) by (rewrite residual_is; discriminate).
  apply (skipn_suffix pos first residual Hres) in Hpos. subst pos.
  cbn [run]. rewrite step_document_end.
  cbn [noop_builder is_error]. rewrite finish_leaves, Hp.
  eexists. split; [|split].
  - reflexivity.
  - cbn [parser with_next_structural_index with_next_structural dom_parser
         next_structural_index next_structural new_structural_parser].
    unfold uint32_t. apply Z.mod_small.
    rewrite dp_count, length_app in dp_range. lia.
  - reflexivity.
Qed.

(** The streaming call walks the value and stops before the residual
    structurals. *)
Lemma first_value_is_walked :
  exists (fuel : nat) (m : machine unit),
    parse noop_builder true fuel dp tt = (returns SUCCESS, m)
    /\ next_structural_index (dom_parser (parser m)) = Z.of_nat (length first)
    /\ n_structural_indexes (dom_parser (parser m)) = n_structural_indexes dp.
Proof.
  destruct dp_value as [fuel_g Htake].
  set (all := first ++ residual) in Htake.
  assert (Hreads : indexed dp all) by exact (structural_bytes_indexed dp _ dp_reads).
  assert (Hcount : n_structural_indexes dp = Z.of_nat (length all)) by exact dp_count.
  assert (Hall : exists c ts, all = c :: ts).
  { unfold all. rewrite residual_is. destruct first; cbn; eauto. }
  destruct Hall as (c & ts & Hall).
  assert (Hfirst : exists i,
             index (structural_indexes dp) 0 = Some i
             /\ index (input_buf dp) i = Some c).
  { destruct (reads_at dp all Hreads 0 c ts) as (i & Hi & Hc & _).
    - now rewrite Hall.
    - now exists i. }
  destruct Hfirst as (i & Hi & Hc).
  unfold parse, parse_from. rewrite dp_start.
  set (m0 := {| parser := new_structural_parser dp 0; builder := tt; value := 0;
                trace := []; moves := [] |}).
  rewrite first_value_unfold. unfold at_end.
  cbn [m0 parser new_structural_parser next_structural dom_parser].
  replace (0 =? n_structural_indexes dp) with false.
  2:{ symmetry. apply Z.eqb_neq. rewrite Hcount, Hall.
      cbn [length]. lia. }
  unfold TRY at 1. cbn [noop_builder parser builder value trace moves is_error app].
  rewrite (advance_value_reads _ i c); [|exact Hi | exact Hc].
  cbn [parser builder value trace moves app new_structural_parser next_structural].
  match goal with
  | |- context [Continue generic_object_begin ?m] => set (m1 := m)
  end.
  assert (Hrep1 : represents dp all ts c m1).
  { exists 1%nat. unfold m1. cbn [parser value]. repeat split; auto.
    now rewrite Hall. }
  rewrite Hall in Htake.
  assert (Hend : forall l vb (m : machine unit) (n : nat),
             represents dp all residual vb m ->
             (forall fuel, run noop_builder true (n + fuel) l m1
                           = run noop_builder true fuel document_end m) ->
             exists (fuel : nat) (m' : machine unit),
               run noop_builder true fuel l m1 = (returns SUCCESS, m')
               /\ next_structural_index (dom_parser (parser m')) = Z.of_nat (length first)
               /\ n_structural_indexes (dom_parser (parser m')) = n_structural_indexes dp).
  { intros l vb m n Hrep Hrun.
    destruct (document_end_before_residual 0 vb m Hrep) as (m' & Hm' & Hidx).
    exists (n + 1)%nat, m'. rewrite Hrun. now split. }
  assert (Hwalk : forall l,
             (exists vb', token_steps (l, ts, c) (generic_next, residual, vb')) ->
             ends_document r0 ->
             exists (fuel : nat) (m' : machine unit),
               run noop_builder true fuel l m1 = (returns SUCCESS, m')
               /\ next_structural_index (dom_parser (parser m')) = Z.of_nat (length first)
               /\ n_structural_indexes (dom_parser (parser m')) = n_structural_indexes dp).
  { intros l [vb' Hsteps] (He1 & He2 & He3).
    assert (Hsteps' : token_steps (l, ts, c) (document_end, residual, vb')).
    { eapply token_steps_trans; [exact Hsteps|]. rewrite residual_is.
      eapply token_steps_next; [|apply token_steps_done].
      cbn [token_step]. now rewrite He1, He2, He3. }
    destruct (run_follows_tokens dp all Hreads true _ _ Hsteps' m1 Hrep1)
      as (n & m & Hrun & Hrep).
    cbn [fst snd] in Hrun, Hrep. now apply (Hend l vb' m n). }
  destruct (take_first true fuel_g c ts residual k Htake)
    as [Hbrace | [[Hbrace Hbracket] | [Hs Hrest]]].
  - (* an object *)
    rewrite Hbrace.
    destruct residual_ends as [Hk | Hends].
    { rewrite Hk in Htake. apply take_scalar in Htake as [Hs _].
      destruct (starts_scalar_spec c Hs) as (H1 & _). congruence. }
    apply Hwalk; [|exact Hends].
    destruct (walks_all fuel_g) as (_ & _ & HO & _).
    exact (HO c ts c _ residual Hbrace Htake).
  - (* an array *)
    rewrite Hbrace, Hbracket.
    destruct residual_ends as [Hk | Hends].
    { rewrite Hk in Htake. apply take_scalar in Htake as [Hs _].
      destruct (starts_scalar_spec c Hs) as (_ & _ & H3 & _). congruence. }
    apply Hwalk; [|exact Hends].
    destruct (walks_all fuel_g) as (_ & _ & _ & HA & _).
    exact (HA c ts c _ residual Hbracket Htake).
  - (* a scalar *)
    destruct (starts_scalar_spec c Hs) as (H1 & _ & H3 & _).
    rewrite H1, H3.
    unfold TRY. cbn [noop_builder parser builder value trace moves is_error app m1].
    match goal with
    | |- context [run noop_builder true _ document_end ?m] =>
        destruct (document_end_before_residual 0 c m) as (m' & Hm' & Hidx)
    end.
    { exists 1%nat. cbn [parser value]. repeat split; auto.
      fold all. rewrite Hall. cbn [skipn]. now symmetry. }
    exists 1%nat, m'. now split.
Qed.

(** The last structural can be read. *)
Lemma last_structural_is_read :
  exists last c,
    index (structural_indexes dp) (uint32_t (n_structural_indexes dp - 1)) = Some last
    /\ index (input_buf dp) last = Some c.
Proof.
  pose (all := first ++ residual).
  assert (Hreads : indexed dp all) by exact (structural_bytes_indexed dp _ dp_reads).
  assert (Hcount : n_structural_indexes dp = Z.of_nat (length all)) by exact dp_count.
  assert (Hrange := dp_range).
  assert (Hall : all <> []).
  { unfold all. rewrite residual_is. now destruct first. }
  destruct (skipn_last all Hall) as [x Hx].
  destruct (reads_at dp all Hreads _ x [] Hx) as (i & Hi & Hc & _).
  exists i, x. split; [|exact Hc].
  replace (uint32_t (n_structural_indexes dp - 1))
    with (Z.of_nat (length all - 1)); [exact Hi|].
  assert (0 < length all)%nat by (destruct all; [congruence | cbn; lia]).
  unfold uint32_t. rewrite Z.mod_small; lia.
Qed.

End FirstValue.

(** With the builder that accepts everything, the streaming call walks
    the first value and leaves the residual structurals, and the
    non-streaming call returns [TAPE_ERROR]. *)
Lemma first_value_then_residual
    (dp : dom_parser_implementation) (first residual : list byte) (k : value_kind)
    (r0 : byte) (r1 : list byte) (fuel : nat) :
  residual = r0 :: r1 ->
  structural_bytes dp = map Some (first ++ residual) ->
  (exists fuel, take_value true fuel (first ++ residual) = Some (k, residual)) ->
  next_structural_index dp = 0 ->
  n_structural_indexes dp = Z.of_nat (length (first ++ residual)) ->
  n_structural_indexes dp < 2 ^ 32 ->
  k = scalar \/ ends_document r0 ->
  (2 * length (structural_indexes dp) + 2 < fuel)%nat ->
  fst (parse noop_builder false fuel dp tt) = returns TAPE_ERROR
  /\ fst (parse noop_builder true fuel dp tt) = returns SUCCESS
  /\ next_structural_index (session (parse noop_builder true fuel dp tt))
     = Z.of_nat (length first).
Proof.
  intros Hres Hreads Htake Hstart Hcount Hrange Hends Hfuel.
  destruct (first_value_is_walked dp first residual k r0 r1
              Hres Hreads Htake Hstart Hcount Hrange Hends)
    as (f0 & m & Hrun & Hidx & Hn).
  destruct (last_structural_is_read dp first residual k r0 r1
              Hres Hreads Htake Hcount Hrange) as (last & c & Hlast & Hc).
  assert (Hshort : next_structural_index (dom_parser (parser m))
                   <> n_structural_indexes (dom_parser (parser m))).
  { rewrite Hidx, Hn, Hcount, length_app, Hres. cbn [length]. lia. }
  assert (Hnon := parse_residual noop_builder
                    (noop_builder_keeps _ buf) (noop_builder_keeps _ dom_parser)
                    f0 dp tt m last c Hstart Hlast Hc Hrun Hshort).
  assert (Hterm : forall s, fst (parse noop_builder s fuel dp tt) <> out_of_fuel).
  { intros s. apply parse_terminates; [apply noop_builder_keeps | | exact Hfuel].
    apply noop_builder_keeps. }
  assert (Hsame : forall s o,
             fst (parse noop_builder s f0 dp tt) = returns o ->
             parse noop_builder s fuel dp tt = parse noop_builder s f0 dp tt).
  { intros s o Ho.
    rewrite <- (parse_more_fuel noop_builder s fuel (Nat.max f0 fuel) dp tt)
      by (auto using Nat.le_max_r).
    apply parse_more_fuel; [apply Nat.le_max_l | rewrite Ho; discriminate]. }
  rewrite (Hsame false TAPE_ERROR Hnon).
  rewrite (Hsame true SUCCESS) by (now rewrite Hrun).
  unfold session. rewrite Hrun. now repeat split.
Qed.

(** C2, amended. Let the structural bytes of the input be one complete
    top-level value followed by residual structurals, the value being one
    that [parse] walks: a scalar, or a container in which no string that
    is not the last element of its array comes after a container that is
    not empty with nothing or only empty containers in between. If the
    value is a scalar, or the
    first residual byte is none of [,], []] and [}], then with a builder
    whose callbacks succeed and leave the cursor and the memory of the
    parser alone the non-streaming call returns [TAPE_ERROR]; the
    streaming call returns what the depth check gives, [SUCCESS] when the
    builder has left the depth at 0, as it has when it leaves the depth
    alone, and it leaves the session at the first residual structural. *)
Theorem residual_structurals_after_first_value
    (T : Type) (B : Builder T) (fuel : nat) (dp : dom_parser_implementation) (b : T)
    (first residual : list byte) (k : value_kind) (r0 : byte) (r1 : list byte) :
  accepting B ->
  value_then_residual true dp first residual k ->
  residual = r0 :: r1 ->
  k = scalar \/ ends_document r0 ->
  next_structural_index dp = 0 ->
  n_structural_indexes dp = Z.of_nat (length (first ++ residual)) ->
  n_structural_indexes dp < 2 ^ 32 ->
  (2 * length (structural_indexes dp) + 2 < fuel)%nat ->
  fst (parse B false fuel dp b) = returns TAPE_ERROR
  /\ fst (parse B true fuel dp b)
     = returns (if depth (parser (snd (parse B true fuel dp b))) =? 0
                then SUCCESS else TAPE_ERROR)
  /\ (keeps B depth -> fst (parse B true fuel dp b) = returns SUCCESS)
  /\ next_structural_index (session (parse B true fuel dp b))
     = Z.of_nat (length first).
Proof.
  intros Ha (Hreads & Htake & _) Hres Hends Hstart Hcount Hrange Hfuel.
  destruct (first_value_then_residual dp first residual k r0 r1 fuel
              Hres Hreads Htake Hstart Hcount Hrange Hends Hfuel)
    as (Hnon & Hstream & Hidx).
  destruct (parse_accepting B Ha false fuel dp b) as [Hf _].
  destruct (parse_accepting B Ha true fuel dp b) as [Ht Hm].
  rewrite Hnon in Hf. rewrite Hstream in Ht. cbn [checked_at_depth] in Hf, Ht.
  split; [exact Hf|]. split; [exact Ht|]. split.
  - intros Hk. rewrite Ht.
    now rewrite (proj1 (parse_keeps_depth T B Hk true fuel dp b)).
  - unfold session in *. rewrite <- Hm in Hidx. exact Hidx.
Qed.

Lemma residual_structurals_after_first_value_witness :
  accepting depth_builder
  /\ value_then_residual true object_number
       ["{"; quote; ":"; "1"; "}"]%byte ["2"]%byte container
  /\ ends_document "2"
  /\ next_structural_index object_number = 0
  /\ n_structural_indexes object_number = 6
  /\ 6 < 2 ^ 32
  /\ (2 * length (structural_indexes object_number) + 2 < 17)%nat
  /\ fst (parse depth_builder false 17 object_number tt) = returns TAPE_ERROR
  /\ fst (parse depth_builder true 17 object_number tt) = returns SUCCESS
  /\ next_structural_index (session (parse depth_builder true 17 object_number tt)) = 5.
Proof.
  assert (Hv : value_then_residual true object_number
                 ["{"; quote; ":"; "1"; "}"]%byte ["2"]%byte container).
  { split; [reflexivity|]. split; [now exists 3%nat | discriminate]. }
  assert (He : ends_document "2") by (repeat split).
  assert (Hf : (2 * length (structural_indexes object_number) + 2 < 17)%nat)
    by (vm_compute; lia).
  destruct (residual_structurals_after_first_value unit depth_builder 17
              object_number tt ["{"; quote; ":"; "1"; "}"]%byte ["2"]%byte container
              "2"%byte [] depth_builder_accepting Hv eq_refl (or_intror He)
              eq_refl eq_refl eq_refl Hf)
    as (Hnon & Hstream & _ & Hidx).
  split; [exact depth_builder_accepting|]. split; [exact Hv|]. split; [exact He|].
  split; [reflexivity|]. split; [reflexivity|]. split; [reflexivity|].
  split; [exact Hf|]. split; [exact Hnon|]. split; [|exact Hidx].
  rewrite Hstream. vm_compute. reflexivity.
Defined.

(** * Further properties of the driver *)

(** ** The phases of a call *)

Section PhasesOfACall.

Context {T : Type}.
Variable B : Builder T.
Variable STREAMING : bool.
Variables I0 I1 I2 I J : machine T -> Prop.
Variable R : outcome -> machine T -> Prop.
Hypothesis Ph : phases B STREAMING I0 I1 I2 I J R.

Lemma phase_advance : triple I advance (fun _ => I) R.
Proof.
  intros m Hm. unfold advance.
  destruct (index _ _) as [i|] eqn:Hi.
  - now apply (ph_advance _ _ _ _ _ _ _ _ Ph m i).
  - now apply (ph_undefined _ _ _ _ _ _ _ _ Ph).
Qed.

Lemma phase_deref (p : Z) : triple I (deref p) (fun _ => I) R.
Proof.
  intros m Hm. unfold deref.
  destruct (index _ _); auto.
  now apply (ph_undefined _ _ _ _ _ _ _ _ Ph).
Qed.

Lemma phase_set_value (v : Z) : triple I (set_value v) (fun _ => I) R.
Proof. intros m Hm. now apply (ph_set_value _ _ _ _ _ _ _ _ Ph). Qed.

Lemma phase_get_value : triple I get_value (fun _ => I) R.
Proof. intros m Hm. exact Hm. Qed.

Lemma phase_advance_char : triple I advance_char (fun _ => I) R.
Proof.
  unfold advance_char.
  apply triple_bind with (Q' := fun _ => I).
  - apply phase_advance.
  - intros p. apply phase_deref.
Qed.

Lemma phase_advance_value : triple I advance_value (fun _ => I) R.
Proof.
  unfold advance_value.
  apply triple_bind with (Q' := fun _ => I); [apply phase_advance | intros v].
  apply triple_bind with (Q' := fun _ => I); [apply phase_set_value | intros _].
  apply phase_deref.
Qed.

Lemma phase_tape_error {A : Type} (Q : A -> machine T -> Prop) :
  triple I (return_ TAPE_ERROR) Q R.
Proof. intros m Hm. now apply (ph_tape_error _ _ _ _ _ _ _ _ Ph). Qed.

Lemma phase_goto (l : label) :
  label_is_document_end l = false -> triple I (goto l) (at_label I J) R.
Proof.
  intros Hl. apply triple_ret. intros m Hm. unfold at_label. now rewrite Hl.
Qed.

Lemma phase_TRY (ev : event) :
  is_inner_event ev = true -> triple I (TRY B ev) (fun _ => I) R.
Proof. apply (ph_call _ _ _ _ _ _ _ _ Ph). Qed.

Lemma phase_advance_char_read :
  triple I advance_char
    (fun c m' => I m' /\
       exists m, I m /\ structural_byte m c
                 /\ m' = move_to m (next_structural (parser m) + 1))
    R.
Proof.
  intros m Hm. unfold advance_char, bind, advance.
  destruct (index (structural_indexes _) _) as [i|] eqn:Hi;
    [|now apply (ph_undefined _ _ _ _ _ _ _ _ Ph)].
  unfold deref. cbn [parser move_to with_next_structural buf].
  destruct (index (buf (parser m)) i) as [c|] eqn:Hc.
  - split; [now apply (ph_advance _ _ _ _ _ _ _ _ Ph m i)|].
    exists m. repeat split; auto. now exists i.
  - apply (ph_undefined _ _ _ _ _ _ _ _ Ph).
    now apply (ph_advance _ _ _ _ _ _ _ _ Ph m i).
Qed.

Lemma phase_back_up (c : byte) :
  ends_document c ->
  triple (fun m' => exists m, I m /\ structural_byte m c
                     /\ m' = move_to m (next_structural (parser m) + 1))
         back_up (fun _ => J) R.
Proof.
  intros Hc m' (m & Hm & Hb & ->). unfold back_up.
  cbn [parser move_to with_next_structural next_structural].
  now apply (ph_back_up _ _ _ _ _ _ _ _ Ph m c).
Qed.

Ltac stride :=
  repeat first
    [ apply phase_goto; reflexivity
    | apply phase_tape_error
    | apply triple_if; intros ?
    | apply triple_bind with (Q' := fun _ => I);
      [ first [ apply phase_advance_value | apply phase_advance_char
              | apply phase_advance | apply phase_deref
              | apply phase_get_value | apply phase_set_value
              | apply phase_TRY; reflexivity ]
      | intros ? ] ].

(** The states from [generic_object_begin] to [generic_next] invoke the
    callbacks of [is_inner_event] only. *)
Lemma step_phase (l : label) :
  l <> document_end ->
  triple I (step B STREAMING l) (at_label I J) R.
Proof.
  intros Hl. destruct l; try congruence; cbn [step]; try solve [stride].
  (* generic_next *)
  apply triple_bind with (1 := phase_advance_char_read). intros c.
  repeat (apply triple_if; intros ?);
    try (apply triple_weaken with (P' := I) (Q' := at_label I J);
         [ solve [stride] | now intros m [Hm _] | auto ]).
  apply triple_bind with (Q' := fun _ => J).
  - apply triple_weaken with (2 := fun m H => proj2 H) (3 := fun _ m H => H).
    apply phase_back_up. repeat split; assumption.
  - intros _. apply triple_ret. auto.
Qed.

Lemma first_value_phase :
  triple I0 (first_value B STREAMING) (at_label I J) R.
Proof.
  unfold first_value.
  apply triple_bind with (Q' := fun _ => I0); [now intros m Hm | intros e].
  apply triple_if; intros _.
  { intros m Hm. now apply (ph_empty _ _ _ _ _ _ _ _ Ph). }
  apply triple_bind with (Q' := fun _ => I1);
    [apply (ph_start _ _ _ _ _ _ _ _ Ph) | intros _].
  apply triple_bind with (Q' := fun _ => I2).
  { unfold advance_value.
    apply triple_bind with (Q' := fun _ => I2).
    - intros m Hm. unfold advance.
      destruct (index _ _) as [i|] eqn:Hi.
      + now apply (ph_first _ _ _ _ _ _ _ _ Ph m i).
      + now apply (ph_first_unread _ _ _ _ _ _ _ _ Ph).
    - intros v. apply triple_bind with (Q' := fun _ => I2).
      + intros m Hm. now apply (ph_first_value _ _ _ _ _ _ _ _ Ph).
      + intros _ m Hm. unfold deref. destruct (index _ _); auto.
        now apply (ph_first_undefined _ _ _ _ _ _ _ _ Ph). }
  intros c. apply triple_if; intros _.
  { apply triple_ret. intros m Hm. now apply (ph_enter _ _ _ _ _ _ _ _ Ph). }
  apply triple_if; intros _.
  - apply triple_bind with (Q' := fun _ => I2).
    + apply triple_if; intros _; [|now apply triple_ret].
      apply triple_bind with (Q' := fun _ => I2).
      * intros m Hm. unfold last_structural_char.
        destruct (index _ _);
          [|now apply (ph_first_undefined _ _ _ _ _ _ _ _ Ph)].
        unfold deref. destruct (index _ _); auto.
        now apply (ph_first_undefined _ _ _ _ _ _ _ _ Ph).
      * intros c'. apply triple_if; intros _; [|now apply triple_ret].
        intros m Hm. now apply (ph_outer_array _ _ _ _ _ _ _ _ Ph).
    + intros _. apply triple_ret. intros m Hm.
      now apply (ph_enter _ _ _ _ _ _ _ _ Ph).
  - apply triple_bind with (Q' := fun _ => I2); [now intros m Hm | intros v].
    apply triple_bind with (Q' := fun _ => J);
      [apply (ph_root_primitive _ _ _ _ _ _ _ _ Ph) | intros _].
    apply triple_ret. auto.
Qed.

Lemma run_phase (fuel : nat) :
  forall l m, at_label I J l m ->
    R (fst (run B STREAMING fuel l m)) (snd (run B STREAMING fuel l m)).
Proof.
  induction fuel as [|fuel IH]; intros l m Hm; cbn [run fst snd].
  - unfold at_label in Hm.
    destruct (label_is_document_end l).
    + now apply (ph_no_fuel_end _ _ _ _ _ _ _ _ Ph).
    + now apply (ph_no_fuel _ _ _ _ _ _ _ _ Ph).
  - destruct l;
      try (match goal with
           | |- context [step B STREAMING ?l m] =>
               let H := fresh in
               assert (H := step_phase l ltac:(discriminate) m Hm);
               destruct (step B STREAMING l m); auto
           end).
    assert (H := ph_end _ _ _ _ _ _ _ _ Ph m Hm).
    destruct (step B STREAMING document_end m); [contradiction | auto | auto].
Qed.

(** Whatever the fuel, [parse] is left in a state [R] allows. *)
Lemma parse_from_phase (fuel : nat) (m : machine T) :
  I0 m ->
  R (fst (parse_from B STREAMING fuel m)) (snd (parse_from B STREAMING fuel m)).
Proof.
  intros Hm. unfold parse_from.
  assert (H := first_value_phase m Hm).
  destruct (first_value B STREAMING m); auto.
  now apply run_phase.
Qed.

End PhasesOfACall.

(** ** The order of the callbacks *)

Section Order.

Context {T : Type}.
Variable B : Builder T.
Variable STREAMING : bool.

Lemma in_order_inside (m : machine T) : inside m -> in_order (map fst (trace m)).
Proof. intros (body & H & Hb). right; right. exists body. auto. Qed.

Lemma order_phases :
  phases B STREAMING (fun m : machine T => trace m = []) started started inside
    ending (fun _ m => in_order (map fst (trace m))).
Proof.
  assert (Hstarted : forall m : machine T, started m -> in_order (map fst (trace m))).
  { intros m Hm. apply in_order_inside. exists []. split; [exact Hm | constructor]. }
  constructor; auto using in_order_inside.
  - intros m Hm. rewrite Hm. now left.
  - intros m Hm. unfold TRY.
    destruct (B start_document (parser m) (builder m)) as [e [p b]].
    assert (Hs : started {| parser := p; builder := b; value := value m;
                            trace := trace m ++ [(start_document, e)];
                            moves := moves m |}).
    { unfold started. cbn [trace]. now rewrite Hm. }
    destruct (is_error e); auto.
  - intros m Hm. exists []. split; [exact Hm | constructor].
  - intros v m Hm. unfold TRY.
    destruct (B (root_primitive v) (parser m) (builder m)) as [e [p b]].
    assert (Hs : map fst (trace m ++ [(root_primitive v, e)])
                 = [start_document; root_primitive v]).
    { rewrite map_app. unfold started in Hm. now rewrite Hm. }
    destruct (is_error e).
    + cbn [trace]. rewrite Hs. right; left. exists v. now left.
    + right. exists v. exact Hs.
  - intros ev Hev m (body & Hm & Hb). unfold TRY.
    destruct (B ev (parser m) (builder m)) as [e [p b]].
    assert (Hs : inside {| parser := p; builder := b; value := value m;
                           trace := trace m ++ [(ev, e)]; moves := moves m |}).
    { exists (body ++ [ev]). cbn [trace]. rewrite map_app, Hm. split; [reflexivity|].
      apply Forall_app. split; [exact Hb | now constructor]. }
    destruct (is_error e); auto using in_order_inside.
  - intros m c Hm _ _. left. exact Hm.
  - intros m [Hm | [v Hv]]; [now apply in_order_inside|].
    right; left. exists v. now left.
  - intros m Hm. rewrite step_document_end.
    destruct (B end_document (parser m) (builder m)) as [e [p b]].
    assert (Hs : in_order (map fst (trace m ++ [(end_document, e)]))).
    { rewrite map_app. destruct Hm as [(body & Hm & Hb) | [v Hv]].
      - rewrite Hm. right; right. exists body. split; [exact Hb | now right].
      - rewrite Hv. right; left. exists v. now right. }
    destruct (is_error e); exact Hs.
Qed.

End Order.

(** X1. Whatever the builder, the input and the mode, the callbacks of a
    call come in this order: [start_document] first and once; then either
    one [root_primitive], or callbacks of the states of the walk; and
    [end_document] at most once, as the last. *)
Theorem callbacks_are_in_order
    (T : Type) (B : Builder T) (STREAMING : bool) (fuel : nat)
    (dp : dom_parser_implementation) (b : T) :
  in_order (events (parse B STREAMING fuel dp b)).
Proof.
  unfold events, parse.
  apply (parse_from_phase B STREAMING _ _ _ _ _ _ (order_phases B STREAMING)).
  reflexivity.
Qed.

(** ** What leaves the session alone *)

Section Session.

Context {T : Type}.
Variable B : Builder T.
Hypothesis keeps_session : keeps B dom_parser.
Variable STREAMING : bool.
Variable dp : dom_parser_implementation.



End Session.



(** ** The progress of a streaming session *)

Section Progress.

Context {T : Type}.
Variable B : Builder T.
Hypothesis keeps_cursor : keeps B next_structural.
Hypothesis keeps_session : keeps B dom_parser.
Variable dp : dom_parser_implementation.
Hypothesis start_in_range : 0 <= next_structural_index dp.
Hypothesis indexes_in_range : Z.of_nat (length (structural_indexes dp)) < 2 ^ 32.

(** A callback moves neither the cursor nor the session. *)
Lemma TRY_keeps_position (P : machine T -> Prop) (ev : event) :
  (forall m m', P m ->
     next_structural (parser m') = next_structural (parser m) ->
     dom_parser (parser m') = dom_parser (parser m) ->
     P m') ->
  triple P (TRY B ev) (fun _ => P) (session_moved_on dp).
Proof.
  intros HP m Hm. unfold TRY.
  assert (Hc := keeps_cursor ev (parser m) (builder m)).
  assert (Hs := keeps_session ev (parser m) (builder m)).
  destruct (B ev (parser m) (builder m)) as [e [p b]]. cbn [fst snd] in Hc, Hs.
  destruct (is_error e) eqn:He.
  - intros [= ->]. discriminate.
  - apply (HP m); auto.
Qed.

Lemma at_start_kept (m m' : machine T) :
  at_start dp m ->
  next_structural (parser m') = next_structural (parser m) ->
  dom_parser (parser m') = dom_parser (parser m) ->
  at_start dp m'.
Proof. unfold at_start. intros [H1 H2] -> ->. now split. Qed.

Lemma moved_on_kept (m m' : machine T) :
  moved_on dp m ->
  next_structural (parser m') = next_structural (parser m) ->
  dom_parser (parser m') = dom_parser (parser m) ->
  moved_on dp m'.
Proof. unfold moved_on. intros [H1 H2] -> ->. now split. Qed.

Lemma progress_phases :
  phases B true (at_start dp) (at_start dp) (moved_on dp) (moved_on dp) (moved_on dp)
    (session_moved_on dp).
Proof.
  constructor; auto; try (intros; intros [=]).
  - apply TRY_keeps_position, at_start_kept.
  - intros m i [Hc Hd] Hi. rewrite Hd in Hi. apply index_in_range in Hi.
    unfold moved_on, move_to. cbn [parser with_next_structural next_structural dom_parser].
    split; [lia | exact Hd].
  - intros v. apply TRY_keeps_position, moved_on_kept.
  - intros m i [Hc Hd] Hi. rewrite Hd in Hi. apply index_in_range in Hi.
    unfold moved_on, move_to. cbn [parser with_next_structural next_structural dom_parser].
    split; [lia | exact Hd].
  - intros ev _. apply TRY_keeps_position, moved_on_kept.
  - intros m c [Hc Hd] _ _.
    unfold moved_on, move_to. cbn [parser with_next_structural next_structural dom_parser].
    split; [lia | exact Hd].
  - intros m [Hc Hd]. rewrite step_document_end.
    assert (Hkc := keeps_cursor end_document (parser m) (builder m)).
    assert (Hks := keeps_session end_document (parser m) (builder m)).
    destruct (B end_document (parser m) (builder m)) as [e [p b]]. cbn [fst snd] in Hkc, Hks.
    destruct (is_error e) eqn:He.
    + intros [= ->]. discriminate.
    + intros _. rewrite finish_leaves. cbn [parser].
      exists (next_structural p). rewrite Hkc. split; [lia|].
      unfold with_next_structural_index, resumed_at. cbn [dom_parser].
      rewrite Hks, Hd. f_equal. unfold uint32_t. apply Z.mod_small. lia.
Qed.

End Progress.

(** X3. A streaming call that returns [SUCCESS] moves the session on:
    with a builder that leaves the cursor and [dom_parser] alone, it
    leaves [next_structural_index] greater than it found it, within the
    index array, and the rest of [dom_parser] as it was, so that a
    session of successful calls comes to an end. *)
Theorem streaming_success_moves_on
    (T : Type) (B : Builder T) (fuel : nat) (dp : dom_parser_implementation) (b : T) :
  keeps B next_structural ->
  keeps B dom_parser ->
  0 <= next_structural_index dp ->
  Z.of_nat (length (structural_indexes dp)) < 2 ^ 32 ->
  fst (parse B true fuel dp b) = returns SUCCESS ->
  exists k,
    next_structural_index dp < k <= Z.of_nat (length (structural_indexes dp))
    /\ session (parse B true fuel dp b) = resumed_at dp k.
Proof.
  intros Hc Hs H0 Hlen Hok. unfold session, parse in *.
  apply (parse_from_phase B true _ _ _ _ _ _ (progress_phases B Hc Hs dp H0 Hlen) fuel
           {| parser := new_structural_parser dp (next_structural_index dp);
              builder := b; value := 0; trace := []; moves := [] |}).
  - split; reflexivity.
  - exact Hok.
Qed.

Lemma streaming_success_moves_on_witness :
  keeps noop_builder next_structural
  /\ keeps noop_builder dom_parser
  /\ 0 <= next_structural_index object_number
  /\ Z.of_nat (length (structural_indexes object_number)) < 2 ^ 32
  /\ fst (parse noop_builder true 100 object_number tt) = returns SUCCESS
  /\ exists k,
       next_structural_index object_number < k
         <= Z.of_nat (length (structural_indexes object_number))
       /\ session (parse noop_builder true 100 object_number tt)
          = resumed_at object_number k.
Proof.
  assert (Hc : keeps noop_builder next_structural) by (intros ev p b; reflexivity).
  assert (Hs : keeps noop_builder dom_parser) by (intros ev p b; reflexivity).
  assert (H0 : 0 <= next_structural_index object_number) by (vm_compute; discriminate).
  assert (Hlen : Z.of_nat (length (structural_indexes object_number)) < 2 ^ 32)
    by (vm_compute; reflexivity).
  assert (Hok : fst (parse noop_builder true 100 object_number tt) = returns SUCCESS)
    by (vm_compute; reflexivity).
  repeat (split; [assumption|]).
  exact (streaming_success_moves_on unit noop_builder 100 object_number tt
           Hc Hs H0 Hlen Hok).
Defined.

(** ** The two modes *)

Section Modes.

Context {T : Type}.
Variable B : Builder T.

Lemma residual_check_error (e : error_code) (m : machine T) :
  e <> SUCCESS -> residual_check (returns e, m) = (returns e, m).
Proof. intros He. unfold residual_check. cbn [fst]. now destruct e. Qed.

(** Only [document_end] tells the modes apart, by the check of [finish]. *)
Lemma run_modes (fuel : nat) :
  forall l m, run B false fuel l m = residual_check (run B true fuel l m).
Proof.
  induction fuel as [|fuel IH]; intros l m; [reflexivity|]. cbn [run].
  destruct (label_eq_document_end l) as [-> | Hl].
  - rewrite !step_document_end.
    destruct (B end_document (parser m) (builder m)) as [e [p b]].
    destruct (is_error e) eqn:He.
    + symmetry. apply residual_check_error. now apply is_error_true.
    + rewrite !finish_leaves. unfold residual_check, finish. cbn [fst snd parser].
      cbn [depth with_next_structural_index dom_parser next_structural_index
           n_structural_indexes].
      destruct (depth p =? 0); cbn [negb andb]; [|reflexivity].
      now destruct (uint32_t (next_structural p) =? n_structural_indexes (dom_parser p)).
  - rewrite <- (step_mode_independent B l m Hl).
    assert (H := step_invariant B true _ _ _ (success_is_not_returned_early B) l Hl
                   (fun _ m0 c _ _ _ => I) m I).
    destruct (step B true l m) as [l' m' | e m' | m'].
    + apply IH.
    + symmetry. apply residual_check_error. congruence.
    + reflexivity.
Qed.


End Modes.


(** ** The bound on the states run *)

(** X5. A call ends within [2 * len + 2] states, where [len] is the
    length of the index array: with a builder that leaves the cursor and
    the length of the index array alone, that many states are enough for
    [parse] to return or to read outside of its arrays, and what it then
    gives is what it gives with any larger bound. *)
Theorem parse_ends_within_the_bound
    (T : Type) (B : Builder T) (STREAMING : bool) (fuel fuel' : nat)
    (dp : dom_parser_implementation) (b : T) :
  keeps B next_structural ->
  keeps B (fun p => length (structural_indexes (dom_parser p))) ->
  (2 * length (structural_indexes dp) + 2 < fuel)%nat ->
  (fuel <= fuel')%nat ->
  fst (parse B STREAMING fuel dp b) <> out_of_fuel
  /\ parse B STREAMING fuel' dp b = parse B STREAMING fuel dp b.
Proof.
  intros Hc Hl Hfuel Hle.
  assert (H := parse_terminates B Hc Hl STREAMING fuel dp b Hfuel).
  split; [exact H|]. now apply parse_more_fuel.
Qed.

Lemma parse_ends_within_the_bound_witness :
  keeps noop_builder next_structural
  /\ keeps noop_builder (fun p => length (structural_indexes (dom_parser p)))
  /\ (2 * length (structural_indexes scenario1) + 2 < 31)%nat
  /\ (31 <= 40)%nat
  /\ fst (parse noop_builder false 31 scenario1 tt) <> out_of_fuel
  /\ parse noop_builder false 40 scenario1 tt = parse noop_builder false 31 scenario1 tt.
Proof.
  assert (Hc : keeps noop_builder next_structural) by (intros ev p b; reflexivity).
  assert (Hl : keeps noop_builder
                 (fun p => length (structural_indexes (dom_parser p))))
    by (intros ev p b; reflexivity).
  assert (Hfuel : (2 * length (structural_indexes scenario1) + 2 < 31)%nat)
    by (vm_compute; lia).
  assert (Hle : (31 <= 40)%nat) by lia.
  repeat (split; [assumption|]).
  exact (parse_ends_within_the_bound unit noop_builder false 31 40 scenario1 tt
           Hc Hl Hfuel Hle).
Defined.


(** ** The builder and the path of the driver *)

(** X6. The path of the driver does not depend on the builder: with a
    builder whose callbacks succeed and leave the cursor and the memory of
    the parser alone, a call invokes the callbacks, moves the cursor and
    leaves the session as it does with the builder that does nothing, and
    it returns the same code, but that [finish] turns a [SUCCESS] into
    [TAPE_ERROR] when the builder has left a depth other than 0. *)
Theorem accepting_builders_walk_alike
    (T : Type) (B : Builder T) (STREAMING : bool) (fuel : nat)
    (dp : dom_parser_implementation) (b : T) :
  accepting B ->
  events (parse B STREAMING fuel dp b) = events (parse noop_builder STREAMING fuel dp tt)
  /\ moves (snd (parse B STREAMING fuel dp b))
     = moves (snd (parse noop_builder STREAMING fuel dp tt))
  /\ session (parse B STREAMING fuel dp b)
     = session (parse noop_builder STREAMING fuel dp tt)
  /\ fst (parse B STREAMING fuel dp b)
     = checked_at_depth (depth (parser (snd (parse B STREAMING fuel dp b))))
         (fst (parse noop_builder STREAMING fuel dp tt)).
Proof.
  intros Ha. destruct (parse_accepting B Ha STREAMING fuel dp b) as [Hfst Hsnd].
  unfold events, session. rewrite <- Hsnd. repeat split. exact Hfst.
Qed.

Lemma accepting_builders_walk_alike_witness :
  accepting depth_builder
  /\ events (parse depth_builder false 100 scenario1 tt)
     = events (parse noop_builder false 100 scenario1 tt)
  /\ moves (snd (parse depth_builder false 100 scenario1 tt))
     = moves (snd (parse noop_builder false 100 scenario1 tt))
  /\ session (parse depth_builder false 100 scenario1 tt)
     = session (parse noop_builder false 100 scenario1 tt)
  /\ fst (parse depth_builder false 100 scenario1 tt)
     = checked_at_depth
         (depth (parser (snd (parse depth_builder false 100 scenario1 tt))))
         (fst (parse noop_builder false 100 scenario1 tt)).
Proof.
  split; [exact depth_builder_accepting|].
  exact (accepting_builders_walk_alike unit depth_builder false 100 scenario1 tt
           depth_builder_accepting).
Defined.

(** ** A document that is a scalar *)

(** X7. A document whose first structural byte is neither [{] nor [[] is
    a scalar: with a builder whose [start_document], [root_primitive] and
    [end_document] succeed and leave the parser alone, and one state to
    run, these three are the callbacks of the call, [root_primitive] on
    the first structural; the cursor moves once; [finish] leaves the
    session one structural further; and the call returns [SUCCESS], unless
    it is a non-streaming call and further structurals are left. *)
Theorem scalar_document
    (T : Type) (B : Builder T) (STREAMING : bool) (fuel : nat)
    (dp : dom_parser_implementation) (b : T) (first : Z) (c : byte) :
  quiet_at_root B ->
  (1 <= fuel)%nat ->
  let start := if STREAMING then next_structural_index dp else 0 in
  start <> n_structural_indexes dp ->
  index (structural_indexes dp) start = Some first ->
  index (input_buf dp) first = Some c ->
  c <> "{"%byte ->
  c <> "["%byte ->
  events (parse B STREAMING fuel dp b)
  = [start_document; root_primitive first; end_document]
  /\ moves (snd (parse B STREAMING fuel dp b)) = [start + 1]
  /\ session (parse B STREAMING fuel dp b) = resumed_at dp (uint32_t (start + 1))
  /\ fst (parse B STREAMING fuel dp b)
     = returns (if STREAMING then SUCCESS
                else if uint32_t (start + 1) =? n_structural_indexes dp
                     then SUCCESS else TAPE_ERROR).
Proof.
  intros Hq Hfuel start Hend Hfirst Hc Hbrace Hbracket.
  destruct (root_scalar_call B Hq STREAMING fuel dp b first c Hfuel Hend Hfirst Hc
              Hbrace Hbracket) as [b' H].
  fold start in H. unfold events, session. rewrite H. repeat split.
Qed.

Lemma scalar_document_witness :
  quiet_at_root depth_builder
  /\ (1 <= 1)%nat
  /\ 0 <> n_structural_indexes two_numbers
  /\ index (structural_indexes two_numbers) 0 = Some 0
  /\ index (input_buf two_numbers) 0 = Some "1"%byte
  /\ "1"%byte <> "{"%byte
  /\ "1"%byte <> "["%byte
  /\ events (parse depth_builder false 1 two_numbers tt)
     = [start_document; root_primitive 0; end_document]
  /\ moves (snd (parse depth_builder false 1 two_numbers tt)) = [1]
  /\ session (parse depth_builder false 1 two_numbers tt) = resumed_at two_numbers 1
  /\ fst (parse depth_builder false 1 two_numbers tt) = returns TAPE_ERROR.
Proof.
  assert (H1 : (1 <= 1)%nat) by lia.
  assert (H2 : 0 <> n_structural_indexes two_numbers) by discriminate.
  assert (H3 : "1"%byte <> "{"%byte) by discriminate.
  assert (H4 : "1"%byte <> "["%byte) by discriminate.
  split; [exact depth_builder_quiet_at_root|]. split; [exact H1|]. split; [exact H2|].
  split; [reflexivity|]. split; [reflexivity|]. split; [exact H3|]. split; [exact H4|].
  exact (scalar_document unit depth_builder false 1 two_numbers tt 0 "1"%byte
           depth_builder_quiet_at_root H1 H2 eq_refl eq_refl H3 H4).
Defined.

(** ** The reads of a call *)

Lemma is_padding_spec (c : byte) :
  is_padding c = true ->
  (c == "{") = false /\ (c == "}") = false /\ (c == "[") = false
  /\ (c == "]") = false /\ (c == ",") = false /\ (c == ":") = false
  /\ (c == quote) = false.
Proof.
  unfold is_padding. intros H. apply andb_true_iff in H as [Hs Hq].
  destruct (starts_scalar_spec c Hs) as (H1 & H2 & H3 & H4 & H5 & H6).
  repeat split; auto. now destruct (c == quote).
Qed.

Lemma structural_is_not_padding (c x : byte) :
  (c == x) = true -> is_padding x = false -> is_padding c = false.
Proof. intros H. apply byte_is_true in H. now subst c. Qed.

Lemma padded_cons (c : byte) (ts : list byte) :
  padded (c :: ts) = true ->
  exists c1 ts1,
    ts = c1 :: ts1
    /\ ((ts1 = [] /\ is_padding c = true /\ is_padding c1 = true)
        \/ padded (c1 :: ts1) = true).
Proof.
  destruct ts as [|c1 [|c2 ts2]]; cbn [padded]; [discriminate | |].
  - intros H. apply andb_true_iff in H as [Hc Hc1].
    exists c1, []. split; [reflexivity|]. left. auto.
  - intros H. exists c1, (c2 :: ts2). split; [reflexivity|]. right. exact H.
Qed.

Lemma one_padding_inv (c : byte) (ts : list byte) :
  one_padding (c :: ts) = true -> ts = [] /\ is_padding c = true.
Proof. destruct ts; cbn [one_padding]; [auto | discriminate]. Qed.

(** After a structural character, two bytes of padding are still ahead. *)
Lemma padded_tail (c : byte) (ts : list byte) :
  padded (c :: ts) = true \/ one_padding (c :: ts) = true ->
  is_padding c = false ->
  padded ts = true.
Proof.
  intros [H | H] Hc.
  - destruct (padded_cons c ts H) as (c1 & ts1 & -> & [(_ & Hp & _) | Hp]);
      [congruence | exact Hp].
  - apply one_padding_inv in H as [_ Hp]. congruence.
Qed.

Lemma padded_next (c : byte) (ts : list byte) :
  padded (c :: ts) = true ->
  padded ts = true \/ (one_padding ts = true /\ is_padding c = true).
Proof.
  intros H. destruct (padded_cons c ts H) as (c1 & ts1 & -> & [(-> & Hp & Hp1) | Hp]).
  - right. split; [exact Hp1 | exact Hp].
  - now left.
Qed.

Lemma padded_skipn (k : nat) (all : list byte) :
  padded all = true ->
  (k + 2 <= length all)%nat ->
  padded (skipn k all) = true.
Proof.
  revert all. induction k as [|k IH]; intros all Hp Hlen; [exact Hp|].
  destruct all as [|c ts]; [discriminate|]. cbn [skipn]. cbn [length] in Hlen.
  apply IH; [|lia].
  destruct (padded_cons c ts Hp) as (c1 & ts1 & -> & [(-> & _) | H]);
    [cbn [length] in Hlen; lia | exact H].
Qed.

Lemma padded_length (ts : list byte) : padded ts = true -> (2 <= length ts)%nat.
Proof.
  destruct ts as [|c [|c1 ts1]]; cbn [padded length]; try discriminate. lia.
Qed.

Section Bounds.

Variable dp : dom_parser_implementation.
Variable all : list byte.
Hypothesis dp_reads : indexed dp all.
Variable STREAMING : bool.

Ltac exec_on :=
  repeat first
    [ match goal with
      | H : represents _ _ (_ :: _) _ ?m |- context [bind advance_value _ ?m] =>
          let m' := fresh "m" in
          let E := fresh "E" in
          let H' := fresh "Hrep" in
          destruct (rep_advance_value dp all dp_reads _ _ _ _ H) as (m' & E & H');
          rewrite (bind_Continue _ _ _ _ _ E); clear E H
      | H : represents _ _ (_ :: _) _ ?m |- context [bind advance_char _ ?m] =>
          let m' := fresh "m" in
          let E := fresh "E" in
          let H' := fresh "Hrep" in
          destruct (rep_advance_char dp all dp_reads _ _ _ _ H) as (m' & E & H');
          rewrite (bind_Continue _ _ _ _ _ E); clear E H
      | H : represents _ _ _ _ ?m |- context [bind (TRY noop_builder ?ev) _ ?m] =>
          let m' := fresh "m" in
          let E := fresh "E" in
          let H' := fresh "Hrep" in
          destruct (rep_TRY dp all ev _ _ _ H) as (m' & E & H');
          rewrite (bind_Continue _ _ _ _ _ E); clear E H
      | |- context [bind get_value ?k ?m] =>
          change (bind get_value k m) with (k (value m) m); cbv beta
      | H : represents _ _ _ _ ?m |- context [bind (deref (value ?m)) _ ?m] =>
          rewrite (bind_Continue _ _ _ _ _ (rep_deref dp all _ _ _ H))
      | H : (_ == _) = _ |- _ => rewrite H
      end
    | progress cbn [negb] ].

(** The state reads a byte that is no padding: two bytes of padding are
    ahead of the next read. *)
Ltac ahead H :=
  match type of H with
  | (?c == ?x) = true =>
      match goal with
      | Hb : padded (c :: ?ts) = true |- _ =>
          assert (padded ts = true)
            by (apply (padded_tail c ts (or_introl Hb));
                apply (structural_is_not_padding c x H); reflexivity)
      | Hb : padded (c :: ?ts) = true \/ one_padding (c :: ?ts) = true |- _ =>
          assert (padded ts = true)
            by (apply (padded_tail c ts Hb);
                apply (structural_is_not_padding c x H); reflexivity)
      end
  end.

Ltac stop := left; eexists; eexists; reflexivity.

Ltac go :=
  right; eexists; eexists; eexists; eexists;
  split; [reflexivity | split; [eassumption | cbn [in_bounds]; auto]].

Ltac nonempty ts c ts' :=
  destruct ts as [|c ts'];
  [ match goal with
    | H : padded [] = true |- _ => discriminate H
    | H : padded [] = true \/ one_padding [] = true |- _ =>
        destruct H; discriminate
    | H : padded [] = true \/ (one_padding [] = true /\ _) |- _ =>
        destruct H as [H | [H _]]; discriminate
    end | ].

(** A state other than [document_end] returns, or goes on to a state that
    reads within the padding. *)
Lemma step_in_bounds (l : label) (ts : list byte) (vb : byte) (m : machine unit) :
  represents dp all ts vb m ->
  in_bounds l ts vb ->
  l <> document_end ->
  (exists e m', step noop_builder STREAMING l m = Return e m')
  \/ (exists l' ts' vb' m',
        step noop_builder STREAMING l m = Continue l' m'
        /\ represents dp all ts' vb' m'
        /\ in_bounds l' ts' vb').
Proof.
  intros Hrep Hb Hl.
  destruct l; cbn [in_bounds] in Hb; cbn [step]; try congruence.
  - (* generic_object_begin *)
    nonempty ts c ts1. exec_on.
    destruct (c == "}") eqn:H1; [ahead H1; exec_on; go|].
    destruct (c == quote) eqn:H2; [ahead H2; exec_on; go|].
    stop.
  - (* object_colon *)
    nonempty ts c ts1. exec_on.
    destruct (c == ":") eqn:H1; cbn [negb]; [ahead H1; go | stop].
  - (* object_value *)
    nonempty ts c ts1. exec_on.
    destruct (c == "{") eqn:H1; [|destruct (c == "[") eqn:H2].
    + ahead H1. nonempty ts1 c1 ts2. exec_on.
      destruct (c1 == "}") eqn:H3; [ahead H3; exec_on; go|].
      destruct (c1 == quote) eqn:H4; [ahead H4; exec_on; go|].
      stop.
    + ahead H2. nonempty ts1 c1 ts2. exec_on.
      destruct (c1 == "]") eqn:H3; [ahead H3; exec_on; go|].
      exec_on.
      match goal with
      | H : padded (c1 :: _) = true |- _ =>
          destruct (padded_next _ _ H) as [Hn | [Hn Hp]]
      end.
      * go.
      * destruct (is_padding_spec c1 Hp) as (_ & _ & Hx & _). go.
    + exec_on.
      destruct (padded_next _ _ Hb) as [Hn | [Hn Hp]]; go.
  - (* object_next *)
    nonempty ts c ts1. exec_on.
    destruct (c == ",") eqn:H1; [|destruct (c == "}") eqn:H2].
    + ahead H1. nonempty ts1 c1 ts2. exec_on.
      destruct (c1 == quote) eqn:H3; cbn [negb]; [ahead H3; go | stop].
    + ahead H2. exec_on. go.
    + stop.
  - (* generic_array_begin *)
    nonempty ts c ts1. exec_on.
    destruct (c == "]") eqn:H1; [ahead H1; exec_on; go|].
    exec_on.
    destruct (padded_next _ _ Hb) as [Hn | [Hn Hp]].
    + go.
    + destruct (is_padding_spec c Hp) as (_ & _ & Hx & _). go.
  - (* array_value *)
    exec_on.
    destruct (vb == "{") eqn:H1; [|destruct (vb == "[") eqn:H2].
    + assert (Hb' : padded ts = true \/ one_padding ts = true)
        by (destruct Hb as [Hb | [Hb _]]; auto).
      clear Hb. nonempty ts c ts1. exec_on.
      destruct (c == "}") eqn:H3; [ahead H3; exec_on; go|].
      destruct (c == quote) eqn:H4; [ahead H4; exec_on; go|].
      stop.
    + destruct Hb as [Hb | [_ Hb]]; [|congruence].
      nonempty ts c ts1. exec_on.
      destruct (c == "]") eqn:H3; [ahead H3; exec_on; go|].
      exec_on.
      destruct (padded_next _ _ Hb) as [Hn | [Hn Hp]].
      * go.
      * destruct (is_padding_spec c Hp) as (_ & _ & Hx & _). go.
    + exec_on. destruct Hb as [Hb | [Hb _]]; go.
  - (* array_next *)
    nonempty ts c ts1. exec_on.
    destruct (c == ",") eqn:H1; [|destruct (c == "]") eqn:H2].
    + ahead H1. nonempty ts1 c1 ts2.
      match goal with
      | H : represents _ _ (_ :: _) _ ?m |- _ =>
          destruct (rep_advance dp all dp_reads _ _ _ _ H) as (i & m1 & Ha & Hc & Hrep1)
      end.
      rewrite (bind_Continue _ _ _ _ _ Ha).
      destruct (rep_set_value dp all i c1 _ _ m1 Hc Hrep1) as (m2 & Hs & Hrep2).
      rewrite (bind_Continue _ _ _ _ _ Hs).
      match goal with
      | H : padded (c1 :: _) = true |- _ =>
          destruct (padded_next _ _ H) as [Hn | [Hn Hp]]
      end.
      * go.
      * destruct (is_padding_spec c1 Hp) as (_ & _ & Hx & _). go.
    + ahead H2. exec_on. go.
    + stop.
  - (* generic_next *)
    nonempty ts c ts1.
    destruct (c == ",") eqn:H1;
      [|destruct (c == "]") eqn:H2; [|destruct (c == "}") eqn:H3]].
    + ahead H1. exec_on. nonempty ts1 c1 ts2. exec_on.
      destruct (c1 == quote) eqn:H4;
        [|destruct (c1 == "[") eqn:H5; [|destruct (c1 == "{") eqn:H6]].
      * ahead H4. nonempty ts2 c2 ts3. exec_on.
        destruct (c2 == ":") eqn:H7;
          [|destruct (c2 == ",") eqn:H8; [|destruct (c2 == "]") eqn:H9]].
        -- ahead H7. exec_on. go.
        -- ahead H8. exec_on. go.
        -- ahead H9. exec_on. go.
        -- stop.
      * ahead H5. exec_on. go.
      * ahead H6. exec_on. go.
      * exec_on.
        match goal with
        | H : padded (c1 :: _) = true |- _ =>
            destruct (padded_next _ _ H) as [Hn | [Hn Hp]]
        end; go.
    + ahead H2. exec_on. go.
    + ahead H3. exec_on. go.
    + destruct (rep_back_up dp all dp_reads _ _ _ _ Hrep) as (m1 & m2 & Ha & Hk & Hrep2).
      rewrite (bind_Continue _ _ _ _ _ Ha). rewrite H1, H2, H3.
      rewrite (bind_Continue _ _ _ _ _ Hk).
      go.
Qed.

Lemma run_in_bounds (fuel : nat) :
  forall l ts vb m,
    represents dp all ts vb m ->
    in_bounds l ts vb ->
    fst (run noop_builder STREAMING fuel l m) <> undefined.
Proof.
  induction fuel as [|fuel IH]; intros l ts vb m Hrep Hb; cbn [run]; [discriminate|].
  destruct (label_eq_document_end l) as [-> | Hl].
  - rewrite step_document_end. cbn [noop_builder is_error]. discriminate.
  - destruct (step_in_bounds l ts vb m Hrep Hb Hl)
      as [(e & m' & ->) | (l' & ts' & vb' & m' & -> & Hrep' & Hb')].
    + discriminate.
    + now apply (IH l' ts' vb').
Qed.

End Bounds.

Lemma skipn_cons {A : Type} (k : nat) (l : list A) :
  (k < length l)%nat -> exists x rest, skipn k l = x :: rest.
Proof.
  intros Hk. destruct (skipn k l) as [|x rest] eqn:H; [|eauto].
  assert (Hlen := f_equal (@length A) H). rewrite length_skipn in Hlen.
  cbn [length] in Hlen. lia.
Qed.

(** With the builder that does nothing, a call reads within the padding. *)
Lemma parse_in_bounds (STREAMING : bool) (fuel : nat)
    (dp : dom_parser_implementation) (all : list byte) :
  indexed dp all ->
  padded all = true ->
  Z.of_nat (length all) = n_structural_indexes dp + 2 ->
  n_structural_indexes dp < 2 ^ 32 ->
  (STREAMING = true ->
   0 <= next_structural_index dp <= n_structural_indexes dp) ->
  fst (parse noop_builder STREAMING fuel dp tt) <> undefined.
Proof.
  intros Hreads Hpad Hlen Hrange Hstart.
  assert (Hlen2 := padded_length all Hpad).
  unfold parse, parse_from.
  set (start := if STREAMING then next_structural_index dp else 0).
  assert (Hs : 0 <= start <= n_structural_indexes dp).
  { unfold start. destruct STREAMING; [now apply Hstart | lia]. }
  rewrite first_value_unfold. unfold at_end.
  cbn [parser new_structural_parser next_structural dom_parser].
  destruct (start =? n_structural_indexes dp) eqn:He; [discriminate|].
  apply Z.eqb_neq in He.
  unfold TRY at 1. cbn [noop_builder parser builder value trace moves is_error app].
  destruct (skipn_cons (Z.to_nat start) all ltac:(lia)) as (c & ts & Hskip).
  destruct (reads_at dp all Hreads (Z.to_nat start) c ts Hskip) as (i & Hi & Hc & Hts).
  rewrite Z2Nat.id in Hi by lia.
  rewrite (advance_value_reads _ i c); [|exact Hi | exact Hc].
  cbn [parser builder value trace moves app new_structural_parser next_structural].
  match goal with
  | |- context [Continue generic_object_begin ?m] => set (m1 := m)
  end.
  assert (Hrep : represents dp all ts c m1).
  { exists (S (Z.to_nat start)). unfold m1. cbn [parser value].
    split; [|split; [exact Hts | exact Hc]].
    unfold with_next_structural, new_structural_parser. cbn. f_equal. lia. }
  assert (Hahead : padded ts = true).
  { rewrite <- Hts. apply padded_skipn; [exact Hpad | lia]. }
  destruct (c == "{").
  { apply (run_in_bounds dp all Hreads STREAMING fuel _ ts c); [exact Hrep | now left]. }
  destruct (c == "[").
  - assert (Harray : fst (run noop_builder STREAMING fuel generic_array_begin m1)
                     <> undefined).
    { now apply (run_in_bounds dp all Hreads STREAMING fuel _ ts c). }
    destruct STREAMING; [exact Harray|].
    unfold last_structural_char.
    destruct (skipn_cons (length all - 3) all ltac:(lia)) as (c' & ts' & Hlast).
    destruct (reads_at dp all Hreads _ c' ts' Hlast) as (j & Hj & Hc' & _).
    replace (uint32_t (n_structural_indexes (dom_parser (parser m1)) - 1))
      with (Z.of_nat (length all - 3)).
    2:{ unfold m1. cbn [parser with_next_structural dom_parser new_structural_parser].
        unfold uint32_t. rewrite Z.mod_small; lia. }
    unfold m1 at 1. cbn [parser with_next_structural dom_parser new_structural_parser].
    rewrite Hj. unfold deref, m1 at 1.
    cbn [parser with_next_structural buf new_structural_parser]. rewrite Hc'.
    destruct (c' == "]"); [exact Harray | discriminate].
  - unfold TRY. cbn [noop_builder is_error].
    destruct fuel as [|fuel]; [discriminate|]. cbn [run].
    rewrite step_document_end. cbn [noop_builder is_error]. discriminate.
Qed.

(** X8. A call reads no further than two index entries past the last
    structural: when the index array leads to the structural bytes and
    then to two bytes of padding, bytes that are no structural character
    and no quote, and the call starts at a structural or at the end, then
    with a builder whose callbacks succeed and leave the cursor and the
    memory of the parser alone no read of the call is outside of the
    index array or of the buffer; and once [2 * len + 2] states may be run
    the call returns a code. *)
Theorem parse_reads_within_the_padding
    (T : Type) (B : Builder T) (STREAMING : bool) (fuel : nat)
    (dp : dom_parser_implementation) (b : T) (all : list byte) :
  accepting B ->
  indexed dp all ->
  padded all = true ->
  Z.of_nat (length all) = n_structural_indexes dp + 2 ->
  n_structural_indexes dp < 2 ^ 32 ->
  (STREAMING = true ->
   0 <= next_structural_index dp <= n_structural_indexes dp) ->
  fst (parse B STREAMING fuel dp b) <> undefined
  /\ ((2 * length (structural_indexes dp) + 2 < fuel)%nat ->
      exists e, fst (parse B STREAMING fuel dp b) = returns e).
Proof.
  intros Ha Hreads Hpad Hlen Hrange Hstart.
  assert (Hsafe : fst (parse B STREAMING fuel dp b) <> undefined).
  { destruct (parse_accepting B Ha STREAMING fuel dp b) as [Hfst _].
    assert (Hn := parse_in_bounds STREAMING fuel dp all Hreads Hpad Hlen Hrange Hstart).
    rewrite Hfst.
    destruct (fst (parse noop_builder STREAMING fuel dp tt)) as [[]| |];
      cbn [checked_at_depth]; congruence. }
  split; [exact Hsafe|].
  intros Hfuel.
  assert (Hterm : fst (parse B STREAMING fuel dp b) <> out_of_fuel).
  { apply parse_terminates; [| |exact Hfuel].
    - intros ev p b0. apply (Ha ev p b0).
    - intros ev p b0. destruct (Ha ev p b0) as (_ & _ & _ & Hd). now rewrite Hd. }
  destruct (fst (parse B STREAMING fuel dp b)) as [e| |]; [eauto | congruence | congruence].
Qed.

Lemma parse_reads_within_the_padding_witness :
  accepting depth_builder
  /\ indexed array_cut_after_comma_padded ["["; "1"; ","; x00; x00]%byte
  /\ padded ["["; "1"; ","; x00; x00]%byte = true
  /\ Z.of_nat (length ["["; "1"; ","; x00; x00]%byte)
     = n_structural_indexes array_cut_after_comma_padded + 2
  /\ n_structural_indexes array_cut_after_comma_padded < 2 ^ 32
  /\ 0 <= next_structural_index array_cut_after_comma_padded
       <= n_structural_indexes array_cut_after_comma_padded
  /\ (2 * length (structural_indexes array_cut_after_comma_padded) + 2 < 13)%nat
  /\ fst (parse depth_builder true 13 array_cut_after_comma_padded tt) <> undefined
  /\ exists e,
       fst (parse depth_builder true 13 array_cut_after_comma_padded tt) = returns e.
Proof.
  assert (Hreads : indexed array_cut_after_comma_padded
                     ["["; "1"; ","; x00; x00]%byte).
  { intros k c Hk.
    do 5 (destruct k as [|k];
          [injection Hk as <-; eexists; split; reflexivity|]).
    destruct k; discriminate. }
  assert (Hstart : 0 <= next_structural_index array_cut_after_comma_padded
                     <= n_structural_indexes array_cut_after_comma_padded)
    by (cbn; lia).
  assert (Hfuel : (2 * length (structural_indexes array_cut_after_comma_padded) + 2
                   < 13)%nat) by (cbn; lia).
  destruct (parse_reads_within_the_padding unit depth_builder true 13
              array_cut_after_comma_padded tt ["["; "1"; ","; x00; x00]%byte
              depth_builder_accepting Hreads eq_refl eq_refl eq_refl
              (fun _ => Hstart)) as [Hsafe Hret].
  split; [exact depth_builder_accepting|]. split; [exact Hreads|].
  split; [reflexivity|]. split; [reflexivity|]. split; [reflexivity|].
  split; [exact Hstart|]. split; [exact Hfuel|]. split; [exact Hsafe|].
  exact (Hret Hfuel).
Defined.

(** With a single index entry after the structurals, as [stage1] has
    it, a document cut after a comma or after a colon has the driver
    read a second one, outside of the index array: in streaming mode for
    the array, in either mode for the object. *)
Example one_padding_entry_is_not_enough :
  fst (parse noop_builder true 100 array_cut_after_comma tt) = undefined
  /\ fst (parse noop_builder true 100 object_cut_after_colon tt) = undefined
  /\ fst (parse noop_builder false 100 object_cut_after_colon tt) = undefined
  /\ fst (parse noop_builder true 100 array_cut_after_comma_padded tt)
     = returns TAPE_ERROR.
Proof. vm_compute. repeat split; reflexivity. Qed.

(** ** The grammar *)

(** What is taken from the front of structural bytes is taken from the
    front of more of them. *)
Lemma takes_more (strict : bool) (fuel : nat) :
  (forall ts k rest more,
      take_value strict fuel ts = Some (k, rest) ->
      take_value strict fuel (ts ++ more) = Some (k, rest ++ more))
  /\ (forall ts rest more,
        take_members strict fuel ts = Some rest ->
        take_members strict fuel (ts ++ more) = Some (rest ++ more))
  /\ (forall ts rest more,
        take_elements strict fuel ts = Some rest ->
        take_elements strict fuel (ts ++ more) = Some (rest ++ more))
  /\ (forall seen ts rest more,
        take_tail strict fuel seen ts = Some rest ->
        take_tail strict fuel seen (ts ++ more) = Some (rest ++ more)).
Proof.
  induction fuel as [|fuel (IHV & IHM & IHE & IHT)].
  { repeat split; intros; discriminate. }
  repeat split.
  - intros ts k rest more. cbn [take_value].
    destruct ts as [|c ts1]; [discriminate|]. cbn [app].
    destruct (c == "{"); [|destruct (c == "[")].
    + destruct ts1 as [|c1 ts2]; [discriminate|]. cbn [app].
      destruct (c1 == "}"); [now intros [= <- <-]|].
      destruct (c1 == quote); [|discriminate].
      destruct (take_members strict fuel ts2) as [remains|] eqn:Hm; [|discriminate].
      intros [= <- <-]. now rewrite (IHM ts2 remains more Hm).
    + destruct ts1 as [|c1 ts2]; [discriminate|]. cbn [app].
      destruct (c1 == "]"); [now intros [= <- <-]|].
      destruct (take_elements strict fuel (c1 :: ts2)) as [remains|] eqn:He;
        [|discriminate].
      intros [= <- <-].
      change (c1 :: ts2 ++ more) with ((c1 :: ts2) ++ more).
      now rewrite (IHE (c1 :: ts2) remains more He).
    + destruct (starts_scalar c); [|discriminate]. now intros [= <- <-].
  - intros ts rest more. cbn [take_members].
    destruct ts as [|colon ts1]; [discriminate|]. cbn [app].
    destruct (colon == ":"); [|discriminate].
    destruct (take_value strict fuel ts1) as [[k [|c rest1]]|] eqn:Hv; try discriminate.
    rewrite (IHV ts1 k (c :: rest1) more Hv). cbn [app].
    destruct (c == "}"); [now intros [= <-]|].
    destruct (c == ","); [|discriminate].
    destruct rest1 as [|key rest2]; [discriminate|]. cbn [app].
    destruct (key == quote); [|discriminate].
    apply IHM.
  - intros ts rest more. cbn [take_elements].
    destruct (take_value strict fuel ts) as [[k rest1]|] eqn:Hv; [|discriminate].
    rewrite (IHV ts k rest1 more Hv). apply IHT.
  - intros seen ts rest more. cbn [take_tail].
    destruct ts as [|c ts1]; [discriminate|]. cbn [app].
    destruct (c == "]"); [now intros [= <-]|].
    destruct (c == ","); [|discriminate].
    destruct ts1 as [|c1 ts2]; [discriminate|]. cbn [app].
    destruct (strict && seen && (c1 == quote)).
    { destruct ts2 as [|c2 ts3]; [discriminate|]. cbn [app].
      destruct (c2 == "]"); [now intros [= <-] | discriminate]. }
    destruct (take_value strict fuel (c1 :: ts2)) as [[k rest1]|] eqn:Hv; [|discriminate].
    change (c1 :: ts2 ++ more) with ((c1 :: ts2) ++ more).
    rewrite (IHV (c1 :: ts2) k rest1 more Hv). apply IHT.
Qed.

(** What is taken is a front of the structural bytes, and the front that
    an array is ends with its bracket. *)
Lemma takes_a_front (strict : bool) (fuel : nat) :
  (forall c ts k rest,
      take_value strict fuel (c :: ts) = Some (k, rest) ->
      exists front,
        c :: ts = front ++ rest
        /\ ((c == "[") = true ->
            exists front' x, front = front' ++ [x] /\ (x == "]") = true))
  /\ (forall ts rest,
        take_members strict fuel ts = Some rest ->
        exists front, ts = front ++ rest)
  /\ (forall ts rest,
        take_elements strict fuel ts = Some rest ->
        exists front x, ts = front ++ x :: rest /\ (x == "]") = true)
  /\ (forall seen ts rest,
        take_tail strict fuel seen ts = Some rest ->
        exists front x, ts = front ++ x :: rest /\ (x == "]") = true).
Proof.
  induction fuel as [|fuel (IHV & IHM & IHE & IHT)].
  { repeat split; intros; discriminate. }
  repeat split.
  - intros c ts k rest. cbn [take_value].
    destruct (c == "{") eqn:Hbrace; [|destruct (c == "[") eqn:Hbracket].
    + destruct ts as [|c1 ts1]; [discriminate|].
      destruct (c1 == "}").
      * intros [= <- <-]. exists [c; c1]. split; [reflexivity|].
        intros H. rewrite (byte_is_other c "{" "[" Hbrace eq_refl) in H. discriminate.
      * destruct (c1 == quote); [|discriminate].
        destruct (take_members strict fuel ts1) as [remains|] eqn:Hm; [|discriminate].
        intros [= <- <-]. destruct (IHM ts1 remains Hm) as [front ->].
        exists (c :: c1 :: front). split; [reflexivity|].
        intros H. rewrite (byte_is_other c "{" "[" Hbrace eq_refl) in H. discriminate.
    + destruct ts as [|c1 ts1]; [discriminate|].
      destruct (c1 == "]") eqn:Hclose.
      * intros [= <- <-]. exists [c; c1]. split; [reflexivity|].
        intros _. exists [c], c1. split; [reflexivity | exact Hclose].
      * destruct (take_elements strict fuel (c1 :: ts1)) as [remains|] eqn:He;
          [|discriminate].
        intros [= <- <-]. destruct (IHE (c1 :: ts1) remains He) as (front & x & Hf & Hx).
        exists (c :: front ++ [x]). split.
        -- rewrite Hf. cbn [app]. now rewrite <- app_assoc.
        -- intros _. exists (c :: front), x. split; [reflexivity | exact Hx].
    + destruct (starts_scalar c); [|discriminate].
      intros [= <- <-]. exists [c]. split; [reflexivity|]. discriminate.
  - intros ts rest. cbn [take_members].
    destruct ts as [|colon ts1]; [discriminate|].
    destruct (colon == ":"); [|discriminate].
    destruct ts1 as [|c0 ts2]; [destruct fuel; discriminate|].
    destruct (take_value strict fuel (c0 :: ts2)) as [[k [|c rest1]]|] eqn:Hv;
      try discriminate.
    destruct (IHV c0 ts2 k (c :: rest1) Hv) as (front & Hf & _). rewrite Hf.
    destruct (c == "}").
    + intros [= <-]. exists (colon :: front ++ [c]). cbn [app].
      now rewrite <- app_assoc.
    + destruct (c == ","); [|discriminate].
      destruct rest1 as [|key rest2]; [discriminate|].
      destruct (key == quote); [|discriminate].
      intros Hm. destruct (IHM rest2 rest Hm) as [front2 ->].
      exists (colon :: front ++ c :: key :: front2). cbn [app].
      rewrite <- app_assoc. reflexivity.
  - intros ts rest. cbn [take_elements].
    destruct ts as [|c0 ts1]; [destruct fuel; discriminate|].
    destruct (take_value strict fuel (c0 :: ts1)) as [[k rest1]|] eqn:Hv; [|discriminate].
    destruct (IHV c0 ts1 k rest1 Hv) as (front & Hf & _). rewrite Hf.
    intros Ht. destruct (IHT _ rest1 rest Ht) as (front2 & x & -> & Hx).
    exists (front ++ front2), x. split; [now rewrite <- app_assoc | exact Hx].
  - intros seen ts rest. cbn [take_tail].
    destruct ts as [|c ts1]; [discriminate|].
    destruct (c == "]") eqn:Hclose.
    + intros [= <-]. exists [], c. split; [reflexivity | exact Hclose].
    + destruct (c == ","); [|discriminate].
      destruct ts1 as [|c1 ts2]; [discriminate|].
      destruct (strict && seen && (c1 == quote)).
      { destruct ts2 as [|c2 ts3]; [discriminate|].
        destruct (c2 == "]") eqn:Hend; [|discriminate].
        intros [= <-]. exists [c; c1], c2. split; [reflexivity | exact Hend]. }
      destruct (take_value strict fuel (c1 :: ts2)) as [[k rest1]|] eqn:Hv;
        [|discriminate].
      destruct (IHV c1 ts2 k rest1 Hv) as (front & Hf & _). rewrite Hf.
      intros Ht. destruct (IHT _ rest1 rest Ht) as (front2 & x & -> & Hx).
      exists (c :: front ++ front2), x. split; [|exact Hx].
      cbn [app]. now rewrite <- app_assoc.
Qed.

(** A value starts with a byte that ends the document before it. *)
Lemma value_starts (strict : bool) (fuel : nat) (c : byte) (ts rest : list byte)
    (k : value_kind) :
  take_value strict fuel (c :: ts) = Some (k, rest) -> ends_document c.
Proof.
  intros H.
  destruct (take_first strict fuel c ts rest k H) as [Hb | [[_ Hb] | [Hs _]]].
  - repeat split; apply (byte_is_other c "{" _ Hb); reflexivity.
  - repeat split; apply (byte_is_other c "[" _ Hb); reflexivity.
  - destruct (starts_scalar_spec c Hs) as (_ & H2 & _ & H4 & H5 & _).
    repeat split; assumption.
Qed.

Lemma one_value_nonempty (strict : bool) (fuel : nat) (k : value_kind)
    (rest : list byte) :
  take_value strict fuel [] <> Some (k, rest).
Proof. destruct fuel; discriminate. Qed.

(** ** A value, walked from where the session stands *)

(** At [document_end] with the cursor after [front], the streaming call
    returns [SUCCESS] and leaves the session there. *)
Lemma document_end_after (dp : dom_parser_implementation) (front rest : list byte)
    (fuel : nat) (vb : byte) (m : machine unit) :
  rest <> [] ->
  Z.of_nat (length front) < 2 ^ 32 ->
  represents dp (front ++ rest) rest vb m ->
  exists m',
    run noop_builder true (S fuel) document_end m = (returns SUCCESS, m')
    /\ dom_parser (parser m') = resumed_at dp (Z.of_nat (length front)).
Proof.
  intros Hrest Hrange (pos & Hp & Hpos & _).
  apply (skipn_suffix pos front rest Hrest) in Hpos. subst pos.
  cbn [run]. rewrite step_document_end.
  cbn [noop_builder is_error]. rewrite finish_leaves, Hp.
  eexists. split; [reflexivity|].
  cbn [parser with_next_structural_index with_next_structural dom_parser
       next_structural new_structural_parser].
  unfold resumed_at. f_equal. unfold uint32_t. apply Z.mod_small. lia.
Qed.

(** The streaming call walks the value the session stands before, and
    stops before what follows it. *)
Lemma value_is_walked_from
    (dp : dom_parser_implementation) (before doc rest : list byte) (k : value_kind)
    (r0 : byte) (r1 : list byte) :
  rest = r0 :: r1 ->
  indexed dp (before ++ doc ++ rest) ->
  (exists fuel, take_value true fuel (doc ++ rest) = Some (k, rest)) ->
  next_structural_index dp = Z.of_nat (length before) ->
  next_structural_index dp <> n_structural_indexes dp ->
  Z.of_nat (length (before ++ doc)) < 2 ^ 32 ->
  k = scalar \/ ends_document r0 ->
  exists (fuel : nat) (m : machine unit),
    parse noop_builder true fuel dp tt = (returns SUCCESS, m)
    /\ dom_parser (parser m) = resumed_at dp (Z.of_nat (length (before ++ doc))).
Proof.
  intros Hres Hreads [fuel_g Htake] Hstart Hnot Hrange Hends.
  assert (Hrest : rest <> []) by (rewrite Hres; discriminate).
  assert (Hall : before ++ doc ++ rest = (before ++ doc) ++ rest)
    by apply app_assoc.
  set (all := before ++ doc ++ rest) in *.
  assert (Hskip : skipn (length before) all = doc ++ rest).
  { unfold all. now rewrite skipn_app, skipn_all, Nat.sub_diag. }
  assert (Hcons : exists c ts, doc ++ rest = c :: ts).
  { rewrite Hres. destruct doc; cbn; eauto. }
  destruct Hcons as (c & ts & Hcons). rewrite Hcons in Hskip, Htake.
  destruct (reads_at dp all Hreads (length before) c ts Hskip) as (i & Hi & Hc & Hts).
  rewrite <- Hstart in Hi.
  unfold parse, parse_from.
  rewrite first_value_unfold. unfold at_end.
  cbn [parser new_structural_parser next_structural dom_parser].
  apply Z.eqb_neq in Hnot. rewrite Hnot.
  unfold TRY at 1. cbn [noop_builder parser builder value trace moves is_error app].
  rewrite (advance_value_reads _ i c); [|exact Hi | exact Hc].
  cbn [parser builder value trace moves app new_structural_parser next_structural].
  match goal with
  | |- context [Continue generic_object_begin ?m] => set (m1 := m)
  end.
  assert (Hrep1 : represents dp all ts c m1).
  { exists (S (length before)). unfold m1. cbn [parser value].
    split; [|split; [exact Hts | exact Hc]].
    unfold with_next_structural, new_structural_parser. cbn. f_equal. lia. }
  assert (Hend : forall l vb (m : machine unit) (n : nat),
             represents dp all rest vb m ->
             (forall fuel, run noop_builder true (n + fuel) l m1
                           = run noop_builder true fuel document_end m) ->
             exists (fuel : nat) (m' : machine unit),
               run noop_builder true fuel l m1 = (returns SUCCESS, m')
               /\ dom_parser (parser m')
                  = resumed_at dp (Z.of_nat (length (before ++ doc)))).
  { intros l vb m n Hrep Hrun. rewrite Hall in Hrep.
    destruct (document_end_after dp (before ++ doc) rest 0 vb m Hrest Hrange Hrep)
      as (m' & Hm' & Hidx).
    exists (n + 1)%nat, m'. rewrite Hrun. now split. }
  assert (Hwalk : forall l,
             (exists vb', token_steps (l, ts, c) (generic_next, rest, vb')) ->
             ends_document r0 ->
             exists (fuel : nat) (m' : machine unit),
               run noop_builder true fuel l m1 = (returns SUCCESS, m')
               /\ dom_parser (parser m')
                  = resumed_at dp (Z.of_nat (length (before ++ doc)))).
  { intros l [vb' Hsteps] (He1 & He2 & He3).
    assert (Hsteps' : token_steps (l, ts, c) (document_end, rest, vb')).
    { eapply token_steps_trans; [exact Hsteps|]. rewrite Hres.
      eapply token_steps_next; [|apply token_steps_done].
      cbn [token_step]. now rewrite He1, He2, He3. }
    destruct (run_follows_tokens dp all Hreads true _ _ Hsteps' m1 Hrep1)
      as (n & m & Hrun & Hrep).
    cbn [fst snd] in Hrun, Hrep. now apply (Hend l vb' m n). }
  destruct (take_first true fuel_g c ts rest k Htake)
    as [Hbrace | [[Hbrace Hbracket] | [Hs Hts']]].
  - (* an object *)
    rewrite Hbrace.
    destruct Hends as [Hk | Hends].
    { rewrite Hk in Htake. apply take_scalar in Htake as [Hs _].
      destruct (starts_scalar_spec c Hs) as (H1 & _). congruence. }
    apply Hwalk; [|exact Hends].
    destruct (walks_all fuel_g) as (_ & _ & HO & _).
    exact (HO c ts c _ rest Hbrace Htake).
  - (* an array *)
    rewrite Hbrace, Hbracket.
    destruct Hends as [Hk | Hends].
    { rewrite Hk in Htake. apply take_scalar in Htake as [Hs _].
      destruct (starts_scalar_spec c Hs) as (_ & _ & H3 & _). congruence. }
    apply Hwalk; [|exact Hends].
    destruct (walks_all fuel_g) as (_ & _ & _ & HA & _).
    exact (HA c ts c _ rest Hbracket Htake).
  - (* a scalar *)
    destruct (starts_scalar_spec c Hs) as (H1 & _ & H3 & _).
    rewrite H1, H3.
    unfold TRY. cbn [noop_builder parser builder value trace moves is_error app m1].
    match goal with
    | |- context [run noop_builder true _ document_end ?m] =>
        destruct (document_end_after dp (before ++ doc) rest 0 c m Hrest Hrange)
          as (m' & Hm' & Hidx)
    end.
    { rewrite <- Hall. exists (S (length before)). cbn [parser value].
      split; [|split; [now rewrite Hts | exact Hc]].
      unfold with_next_structural, new_structural_parser. cbn. f_equal. lia. }
    exists 1%nat, m'. now split.
Qed.

(** ** A session of documents *)

Lemma indexed_resumed (dp : dom_parser_implementation) (k : Z) (all : list byte) :
  indexed dp all -> indexed (resumed_at dp k) all.
Proof. intros H. exact H. Qed.

(** A streaming call takes the document the session stands before. *)
Lemma streaming_call_takes_one
    (T : Type) (B : Builder T) (fuel : nat) (dp : dom_parser_implementation) (b : T)
    (before doc rest : list byte) (r0 : byte) (r1 : list byte) :
  accepting B ->
  keeps B depth ->
  one_value doc ->
  rest = r0 :: r1 ->
  ends_document r0 ->
  indexed dp (before ++ doc ++ rest) ->
  next_structural_index dp = Z.of_nat (length before) ->
  next_structural_index dp <> n_structural_indexes dp ->
  Z.of_nat (length (before ++ doc)) < 2 ^ 32 ->
  (2 * length (structural_indexes dp) + 2 < fuel)%nat ->
  fst (parse B true fuel dp b) = returns SUCCESS
  /\ session (parse B true fuel dp b)
     = resumed_at dp (Z.of_nat (length (before ++ doc))).
Proof.
  intros Ha Hk (fuel_g & k & Htake) Hres Hends Hreads Hstart Hnot Hrange Hfuel.
  destruct (value_is_walked_from dp before doc rest k r0 r1 Hres Hreads)
    as (f0 & m & Hrun & Hm); auto.
  { exists fuel_g. destruct (takes_more true fuel_g) as (HV & _).
    exact (HV doc k [] rest Htake). }
  assert (Hnoop : parse noop_builder true fuel dp tt = (returns SUCCESS, m)).
  { rewrite <- Hrun.
    rewrite <- (parse_more_fuel noop_builder true fuel (Nat.max f0 fuel) dp tt).
    - apply parse_more_fuel; [apply Nat.le_max_l | rewrite Hrun; discriminate].
    - apply Nat.le_max_r.
    - apply parse_terminates; [apply noop_builder_keeps | | exact Hfuel].
      apply noop_builder_keeps. }
  destruct (parse_accepting B Ha true fuel dp b) as [Hfst Hsnd].
  rewrite Hnoop in Hfst, Hsnd. cbn [fst snd checked_at_depth] in Hfst, Hsnd.
  split.
  - rewrite Hfst. now rewrite (proj1 (parse_keeps_depth T B Hk true fuel dp b)).
  - unfold session. rewrite <- Hm, <- Hsnd. reflexivity.
Qed.

Lemma session_of_documents_from
    (T : Type) (B : Builder T) (fuel : nat) (s : byte) (docs : list (list byte)) :
  accepting B ->
  keeps B depth ->
  Forall one_value docs ->
  ends_document s ->
  forall (pre : list byte) (dp : dom_parser_implementation) (b : T),
    indexed dp (pre ++ concat docs ++ [s]) ->
    next_structural_index dp = Z.of_nat (length pre) ->
    n_structural_indexes dp = Z.of_nat (length (pre ++ concat docs)) ->
    n_structural_indexes dp < 2 ^ 32 ->
    (2 * length (structural_indexes dp) + 2 < fuel)%nat ->
    map fst (session_calls B fuel (S (length docs)) dp b)
    = repeat (returns SUCCESS) (length docs) ++ [returns EMPTY]
    /\ map (fun r => next_structural_index (session r))
           (session_calls B fuel (S (length docs)) dp b)
       = document_ends (Z.of_nat (length pre)) docs ++ [n_structural_indexes dp].
Proof.
  intros Ha Hk Hdocs Hs.
  induction Hdocs as [|d docs Hd Hdocs IH]; intros pre dp b Hreads Hstart Hn Hrange Hfuel.
  - cbn [concat app] in Hn. rewrite app_nil_r in Hn.
    cbn [length session_calls map repeat app document_ends].
    rewrite (parse_at_end T B true fuel dp b).
    + unfold session. cbn [fst snd parser new_structural_parser dom_parser].
      split; [reflexivity|]. now rewrite Hstart, Hn.
    + unfold at_end. cbn [new_structural_parser next_structural dom_parser].
      rewrite Hstart, Hn. apply Z.eqb_refl.
  - assert (Hrest : exists r0 r1, concat docs ++ [s] = r0 :: r1 /\ ends_document r0).
    { destruct Hdocs as [|d' docs' Hd' _]; [cbn; eauto|].
      destruct Hd' as (f' & k' & Ht').
      destruct d' as [|c' ts']; [now apply one_value_nonempty in Ht'|].
      cbn [concat app]. exists c', ((ts' ++ concat docs') ++ [s]).
      split; [reflexivity|]. exact (value_starts true f' c' ts' [] k' Ht'). }
    destruct Hrest as (r0 & r1 & Hrest & Hends).
    assert (Hlen : (length (pre ++ d) <= length (pre ++ concat (d :: docs)))%nat).
    { cbn [concat]. rewrite !length_app. lia. }
    assert (Hd1 : (1 <= length d)%nat).
    { destruct Hd as (f & k & Ht). destruct d; [now apply one_value_nonempty in Ht|].
      cbn [length]. lia. }
    cbn [concat] in Hreads. rewrite <- app_assoc in Hreads.
    destruct (streaming_call_takes_one T B fuel dp b pre d (concat docs ++ [s])
                r0 r1 Ha Hk Hd Hrest Hends Hreads Hstart) as [Hok Hsession];
      [ rewrite Hstart, Hn; cbn [concat]; rewrite !length_app; lia
      | lia | exact Hfuel | ].
    cbn [length]. set (calls := S (length docs)) in *.
    cbn [session_calls]. cbn zeta. cbn [map repeat app document_ends].
    rewrite Hok, Hsession.
    destruct (IH (pre ++ d) (resumed_at dp (Z.of_nat (length (pre ++ d))))
                 (builder (snd (parse B true fuel dp b)))) as [IH1 IH2].
    + rewrite <- app_assoc. exact Hreads.
    + reflexivity.
    + cbn [resumed_at n_structural_indexes]. rewrite Hn. cbn [concat].
      now rewrite !app_assoc.
    + exact Hrange.
    + exact Hfuel.
    + rewrite IH1, IH2. cbn [resumed_at next_structural_index n_structural_indexes].
      rewrite length_app, Nat2Z.inj_add. split; reflexivity.
Qed.

(** X10. A streaming session takes its documents one call at a time:
    when the index array leads to the structural bytes of documents, each
    one complete value, a scalar or a container in which no string that is
    not the last element of its array comes after a container that is not
    empty with nothing or only empty containers in between, and then to a
    byte that is none of [,], []] and [}], then, with a builder whose
    callbacks succeed and leave the parser alone, as many streaming calls
    as there are documents return [SUCCESS], each leaving
    [next_structural_index] where its document ends, and the call after
    them returns [EMPTY]. *)
Theorem streaming_session_of_documents
    (T : Type) (B : Builder T) (fuel : nat) (dp : dom_parser_implementation) (b : T)
    (docs : list (list byte)) (s : byte) :
  accepting B ->
  keeps B depth ->
  Forall one_value docs ->
  indexed dp (concat docs ++ [s]) ->
  ends_document s ->
  next_structural_index dp = 0 ->
  n_structural_indexes dp = Z.of_nat (length (concat docs)) ->
  n_structural_indexes dp < 2 ^ 32 ->
  (2 * length (structural_indexes dp) + 2 < fuel)%nat ->
  map fst (session_calls B fuel (S (length docs)) dp b)
  = repeat (returns SUCCESS) (length docs) ++ [returns EMPTY]
  /\ map (fun r => next_structural_index (session r))
         (session_calls B fuel (S (length docs)) dp b)
     = document_ends 0 docs ++ [n_structural_indexes dp].
Proof.
  intros Ha Hk Hdocs Hreads Hs H0 Hn Hrange Hfuel.
  exact (session_of_documents_from T B fuel s docs Ha Hk Hdocs Hs [] dp b
           Hreads H0 Hn Hrange Hfuel).
Qed.

Lemma streaming_session_of_documents_witness :
  accepting noop_builder
  /\ keeps noop_builder depth
  /\ Forall one_value [["{"; quote; ":"; "1"; "}"]; ["2"]]%byte
  /\ indexed object_number
       (concat [["{"; quote; ":"; "1"; "}"]; ["2"]]%byte ++ [x00])
  /\ ends_document x00
  /\ next_structural_index object_number = 0
  /\ n_structural_indexes object_number = 6
  /\ 6 < 2 ^ 32
  /\ (2 * length (structural_indexes object_number) + 2 < 17)%nat
  /\ map fst (session_calls noop_builder 17 3 object_number tt)
     = [returns SUCCESS; returns SUCCESS; returns EMPTY]
  /\ map (fun r => next_structural_index (session r))
         (session_calls noop_builder 17 3 object_number tt)
     = [5; 6; 6].
Proof.
  assert (Ha : accepting noop_builder) by (intros ev p b; repeat split).
  assert (Hk : keeps noop_builder depth) by (intros ev p b; reflexivity).
  assert (Hdocs : Forall one_value [["{"; quote; ":"; "1"; "}"]; ["2"]]%byte).
  { repeat constructor.
    - now exists 3%nat, container.
    - now exists 1%nat, scalar. }
  assert (Hreads : indexed object_number
                     (concat [["{"; quote; ":"; "1"; "}"]; ["2"]]%byte ++ [x00])).
  { intros k c Hc.
    do 7 (destruct k as [|k];
          [injection Hc as <-; eexists; split; reflexivity|]).
    destruct k; discriminate. }
  assert (Hs : ends_document x00) by (repeat split).
  assert (Hfuel : (2 * length (structural_indexes object_number) + 2 < 17)%nat)
    by (vm_compute; lia).
  split; [exact Ha|]. split; [exact Hk|]. split; [exact Hdocs|].
  split; [exact Hreads|]. split; [exact Hs|].
  split; [reflexivity|]. split; [reflexivity|]. split; [reflexivity|].
  split; [exact Hfuel|].
  exact (streaming_session_of_documents unit noop_builder 17 object_number tt
           [["{"; quote; ":"; "1"; "}"]; ["2"]]%byte x00
           Ha Hk Hdocs Hreads Hs eq_refl eq_refl eq_refl Hfuel).
Defined.

(** ** Where a code comes from *)

Section Provenance.

Context {T : Type}.
Variable B : Builder T.
Variable STREAMING : bool.

Lemma TRY_provenance (ev : event) :
  triple (fun _ => True) (TRY B ev) (fun _ _ => True) from_driver_or_last_callback.
Proof.
  intros m _. unfold TRY.
  destruct (B ev (parser m) (builder m)) as [e [p b]].
  destruct (is_error e) eqn:He; [|exact I].
  right; right; right. split; [now apply is_error_true|].
  exists (trace m), ev. reflexivity.
Qed.

Lemma provenance_phases :
  phases B STREAMING (fun m : machine T => trace m = [])
    (fun _ => True) (fun _ => True) (fun _ => True) (fun _ => True)
    from_driver_or_last_callback.
Proof.
  constructor; auto; try (intros; exact I);
    try (intros; right; left; reflexivity).
  - intros m Hm. left. now split.
  - intros m Hm. now apply TRY_provenance.
  - intros v m Hm. now apply TRY_provenance.
  - intros ev _ m Hm. now apply TRY_provenance.
  - intros m c _ _ _. exact I.
  - intros m _. rewrite step_document_end.
    destruct (B end_document (parser m) (builder m)) as [e [p b]].
    destruct (is_error e) eqn:He.
    + right; right; right. split; [now apply is_error_true|].
      exists (trace m), end_document. reflexivity.
    + apply is_error_false in He. subst e. cbn [from_driver_or_last_callback trace].
      unfold finish. destruct (negb _); [right; left; reflexivity|].
      destruct (_ && _); [right; left; reflexivity|].
      right; right; left. split; [reflexivity|]. now exists (trace m).
Qed.

End Provenance.

(** X11. The driver gives three codes of its own: whatever the builder,
    the input and the mode, the code a call returns is [EMPTY], returned
    before any callback; or [TAPE_ERROR]; or [SUCCESS], returned after
    [end_document] has returned [SUCCESS]; or else it is the error that
    the last callback invoked has returned. *)
Theorem code_comes_from_driver_or_last_callback
    (T : Type) (B : Builder T) (STREAMING : bool) (fuel : nat)
    (dp : dom_parser_implementation) (b : T) :
  from_driver_or_last_callback (fst (parse B STREAMING fuel dp b))
    (snd (parse B STREAMING fuel dp b)).
Proof.
  unfold parse.
  apply (parse_from_phase B STREAMING _ _ _ _ _ _ (provenance_phases B STREAMING)).
  reflexivity.
Qed.

(** ** The pointers handed to the builder *)

Section Pointers.

Context {T : Type}.
Variable B : Builder T.
Hypothesis keeps_buffer : keeps B buf.
Variable STREAMING : bool.
Variable bf : list byte.

Lemma known_weaken (vk : option byte) (m : machine T) :
  known T bf vk m -> known T bf None m.
Proof. intros (H1 & H2 & _). now repeat split. Qed.

Lemma known_R (vk : option byte) (m : machine T) :
  known T bf vk m -> Forall (fun x => pointers_ok bf (fst x)) (trace m).
Proof. now intros (_ & H & _). Qed.

Lemma known_quote (c : byte) (m : machine T) :
  (c == quote) = true -> known T bf (Some c) m -> known T bf (Some quote) m.
Proof. intros Hc. apply byte_is_true in Hc. now subst c. Qed.

Lemma pointer_advance (vk : option byte) :
  triple (known T bf vk) advance (fun _ => known T bf vk) (pointers_so_far T bf).
Proof.
  intros m Hm. unfold advance.
  destruct (index _ _); [exact Hm | exact (known_R vk m Hm)].
Qed.

Lemma pointer_advance_char (vk : option byte) :
  triple (known T bf vk) advance_char (fun _ => known T bf vk) (pointers_so_far T bf).
Proof.
  intros m Hm. unfold advance_char, bind, advance.
  destruct (index (structural_indexes _) _); [|exact (known_R vk m Hm)].
  unfold deref. cbn [parser move_to with_next_structural buf].
  destruct (index (buf (parser m)) z); [exact Hm | exact (known_R vk m Hm)].
Qed.

(** [*(value = advance())]: [value] points at the byte that is read. *)
Lemma pointer_advance_value (vk : option byte) :
  triple (known T bf vk) advance_value (fun c => known T bf (Some c)) (pointers_so_far T bf).
Proof.
  intros m Hm. unfold advance_value, bind, advance.
  destruct (index (structural_indexes _) _) as [i|]; [|exact (known_R vk m Hm)].
  unfold set_value, deref. cbn [parser move_to with_next_structural buf].
  destruct Hm as (Hb & Ht & _).
  destruct (index (buf (parser m)) i) as [c|] eqn:Hc; [|exact Ht].
  rewrite Hb in Hc. now repeat split.
Qed.

Lemma pointer_get_value (c : byte) :
  triple (known T bf (Some c)) get_value
    (fun v m => known T bf (Some c) m /\ index bf v = Some c) (pointers_so_far T bf).
Proof. intros m Hm. split; [exact Hm|]. now destruct Hm as (_ & _ & H). Qed.

(** [*value]: what [value] points at is what is read. *)
Lemma pointer_deref_value (vk : option byte) :
  triple (known T bf vk) (bind get_value (fun v => deref v)) (fun c => known T bf (Some c)) (pointers_so_far T bf).
Proof.
  intros m Hm. unfold bind, get_value, deref.
  destruct Hm as (Hb & Ht & _).
  destruct (index (buf (parser m)) (value m)) as [c|] eqn:Hc; [|exact Ht].
  rewrite Hb in Hc. now repeat split.
Qed.

Lemma pointer_TRY (vk : option byte) (ev : event) :
  pointers_ok bf ev ->
  triple (known T bf vk) (TRY B ev) (fun _ => known T bf vk) (pointers_so_far T bf).
Proof.
  intros Hev m (Hb & Ht & Hv). unfold TRY.
  assert (Hk := keeps_buffer ev (parser m) (builder m)).
  destruct (B ev (parser m) (builder m)) as [e [p b]]. cbn [fst snd] in Hk.
  assert (Ht' : Forall (fun x => pointers_ok bf (fst x)) (trace m ++ [(ev, e)])).
  { apply Forall_app. split; [exact Ht | now constructor]. }
  destruct (is_error e); [exact Ht'|].
  split; [cbn [parser]; now rewrite Hk | split; [exact Ht' | exact Hv]].
Qed.

Lemma pointer_tape_error {A : Type} (vk : option byte) (Q : A -> machine T -> Prop) :
  triple (known T bf vk) (return_ TAPE_ERROR) Q (pointers_so_far T bf).
Proof. intros m Hm. exact (known_R vk m Hm). Qed.

Lemma pointer_goto (vk : option byte) (l : label) :
  (forall m, known T bf vk m -> known T bf (key_at l) m) ->
  triple (known T bf vk) (goto l) (fun l' => known T bf (key_at l')) (pointers_so_far T bf).
Proof. intros H. apply triple_ret. exact H. Qed.

Lemma pointer_pure {A : Type} (P : machine T -> Prop) (fact : Prop) (c : M T A)
    (Q : A -> machine T -> Prop) :
  (fact -> triple P c Q (pointers_so_far T bf)) -> triple (fun m => P m /\ fact) c Q (pointers_so_far T bf).
Proof. intros H m [Hm Hf]. now apply H. Qed.

Lemma bind_assoc {A C D : Type} (P : machine T -> Prop) (c : M T A)
    (f : A -> M T C) (g : C -> M T D) Q :
  triple P (bind (bind c f) g) Q (pointers_so_far T bf) ->
  triple P (bind c (fun x => bind (f x) g)) Q (pointers_so_far T bf).
Proof.
  intros H m Hm. specialize (H m Hm). unfold bind in *.
  now destruct (c m).
Qed.

(** A call followed by a jump. *)
Lemma pointer_call (vk : option byte) (ev : event) (l : label) :
  pointers_ok bf ev ->
  (forall m, known T bf vk m -> known T bf (key_at l) m) ->
  triple (known T bf vk) (bind (TRY B ev) (fun _ => goto l))
    (fun l' => known T bf (key_at l')) (pointers_so_far T bf).
Proof.
  intros Hev Hl.
  apply triple_bind with (Q' := fun _ => known T bf vk); [now apply pointer_TRY|].
  intros _. now apply pointer_goto.
Qed.

(** The states keep the pointers right, and [value] at a quote on the way
    to [object_colon] and [object_value]. *)
Lemma step_pointers (l : label) :
  l <> document_end ->
  triple (known T bf (key_at l)) (step B STREAMING l)
    (fun l' => known T bf (key_at l')) (pointers_so_far T bf).
Proof.
  intros Hl. destruct l; try congruence; cbn [step key_at].
  - (* generic_object_begin *)
    apply triple_bind with (1 := pointer_advance_value None). intros c.
    apply triple_if; intros H1; [apply pointer_call; [exact I | apply known_weaken]|].
    apply triple_if; intros H2; [|apply pointer_tape_error].
    apply pointer_call; [exact I | exact (fun m => known_quote c m H2)].
  - (* object_colon *)
    apply triple_bind with (1 := pointer_advance_char (Some quote)). intros c.
    apply triple_if; intros _; [apply pointer_tape_error|].
    apply pointer_goto. auto.
  - (* object_value *)
    apply triple_bind with (1 := pointer_get_value quote). intros key.
    apply pointer_pure. intros Hkey.
    apply triple_bind with (1 := pointer_advance_value (Some quote)). intros c.
    apply triple_if; intros H1; [|apply triple_if; intros H2].
    + apply triple_bind with (1 := pointer_advance_value (Some c)). intros c1.
      apply triple_if; intros H3;
        [apply pointer_call; [exact Hkey | apply known_weaken]|].
      apply triple_if; intros H4; [|apply pointer_tape_error].
      apply pointer_call; [exact Hkey | exact (fun m => known_quote c1 m H4)].
    + apply triple_bind with (1 := pointer_advance_value (Some c)). intros c1.
      apply triple_if; intros H3;
        (apply pointer_call; [exact Hkey | apply known_weaken]).
    + apply triple_bind with (1 := pointer_get_value c). intros v.
      apply pointer_pure. intros Hv.
      apply pointer_call; [split; eauto | apply known_weaken].
  - (* object_next *)
    apply triple_bind with (1 := pointer_advance_char None). intros c.
    apply triple_if; intros H1; [|apply triple_if; intros H2].
    + apply triple_bind with (1 := pointer_advance_value None). intros c1.
      destruct (c1 == quote) eqn:H3; cbn [negb]; [|apply pointer_tape_error].
      apply pointer_goto. exact (fun m => known_quote c1 m H3).
    + apply pointer_call; [exact I | auto].
    + apply pointer_tape_error.
  - (* generic_array_begin *)
    apply triple_bind with (1 := pointer_advance_value None). intros c.
    apply triple_if; intros H1;
      (apply pointer_call; [exact I | apply known_weaken]).
  - (* array_value *)
    apply bind_assoc.
    apply triple_bind with (1 := pointer_deref_value None). intros c.
    apply triple_if; intros H1; [|apply triple_if; intros H2].
    + apply triple_bind with (1 := pointer_advance_value (Some c)). intros c1.
      apply triple_if; intros H3;
        [apply pointer_call; [exact I | apply known_weaken]|].
      apply triple_if; intros H4; [|apply pointer_tape_error].
      apply pointer_call; [exact I | exact (fun m => known_quote c1 m H4)].
    + apply triple_bind with (1 := pointer_advance_value (Some c)). intros c1.
      apply triple_if; intros H3;
        (apply pointer_call; [exact I | apply known_weaken]).
    + apply triple_bind with (1 := pointer_get_value c). intros v.
      apply pointer_pure. intros Hv.
      apply pointer_call; [cbn; eauto | apply known_weaken].
  - (* array_next *)
    apply triple_bind with (1 := pointer_advance_char None). intros c.
    apply triple_if; intros H1; [|apply triple_if; intros H2].
    + apply triple_bind with (1 := pointer_advance None). intros v.
      apply triple_bind with (Q' := fun _ => known T bf None).
      * intros m Hm. destruct Hm as (Hb & Ht & _). now repeat split.
      * intros _. apply pointer_goto. auto.
    + apply pointer_call; [exact I | auto].
    + apply pointer_tape_error.
  - (* generic_next *)
    apply triple_bind with (1 := pointer_advance_char None). intros c.
    apply triple_if; intros H1;
      [|apply triple_if; intros H2; [|apply triple_if; intros H3]].
    + apply triple_bind with (1 := pointer_advance_value None). intros c1.
      apply triple_if; intros H4;
        [|apply triple_if; intros H5; [|apply triple_if; intros H6]].
      * apply triple_weaken with (P' := known T bf (Some quote))
                                 (Q' := fun l' => known T bf (key_at l'));
          [|exact (fun m => known_quote c1 m H4) | auto].
        apply triple_bind with (1 := pointer_get_value quote). intros v.
        apply pointer_pure. intros Hv.
        apply triple_bind with (1 := pointer_advance_char (Some quote)). intros c2.
        apply triple_if; intros H7;
          [|apply triple_if; intros H8; [|apply triple_if; intros H9]].
        -- apply pointer_call; [exact I | auto].
        -- apply pointer_call; [exact Hv | apply known_weaken].
        -- apply triple_bind with (Q' := fun _ => known T bf (Some quote));
             [now apply pointer_TRY|]. intros _.
           apply pointer_call; [exact I | apply known_weaken].
        -- apply pointer_tape_error.
      * apply pointer_call; [exact I | apply known_weaken].
      * apply pointer_call; [exact I | apply known_weaken].
      * apply pointer_call; [exact I | apply known_weaken].
    + apply pointer_call; [exact I | auto].
    + apply pointer_call; [exact I | auto].
    + apply triple_bind with (Q' := fun _ => known T bf None).
      * intros m Hm. exact Hm.
      * intros _. apply pointer_goto. auto.
Qed.

Lemma first_value_pointers :
  triple (known T bf None) (first_value B STREAMING)
    (fun l' => known T bf (key_at l')) (pointers_so_far T bf).
Proof.
  unfold first_value.
  apply triple_bind with (Q' := fun _ => known T bf None); [now intros m Hm | intros e].
  apply triple_if; intros _; [intros m Hm; exact (known_R None m Hm)|].
  apply triple_bind with (Q' := fun _ => known T bf None);
    [now apply pointer_TRY | intros _].
  apply triple_bind with (1 := pointer_advance_value None). intros c.
  apply triple_if; intros H1; [apply pointer_goto, known_weaken|].
  apply triple_if; intros H2.
  - apply triple_bind with (Q' := fun _ => known T bf None).
    + apply triple_if; intros _;
        [|apply triple_ret; intros m; apply known_weaken].
      apply triple_bind with (Q' := fun _ => known T bf None).
      * intros m Hm. unfold last_structural_char.
        destruct (index _ _); [|exact (known_R _ m Hm)].
        unfold deref.
        destruct (index _ _); [exact (known_weaken _ m Hm) | exact (known_R _ m Hm)].
      * intros c'. apply triple_if; intros _; [apply pointer_tape_error|].
        now apply triple_ret.
    + intros _. now apply pointer_goto.
  - apply triple_bind with (1 := pointer_get_value c). intros v.
    apply pointer_pure. intros Hv.
    apply pointer_call; [cbn; eauto | apply known_weaken].
Qed.

Lemma run_pointers (fuel : nat) :
  forall l m, known T bf (key_at l) m ->
    (pointers_so_far T bf) (fst (run B STREAMING fuel l m)) (snd (run B STREAMING fuel l m)).
Proof.
  induction fuel as [|fuel IH]; intros l m Hm; cbn [run fst snd];
    [exact (known_R _ m Hm)|].
  destruct (label_eq_document_end l) as [-> | Hl].
  - rewrite step_document_end. destruct Hm as (_ & Ht & _).
    destruct (B end_document (parser m) (builder m)) as [e [p b]].
    assert (Ht' : Forall (fun x => pointers_ok bf (fst x))
                    (trace m ++ [(end_document, e)])).
    { apply Forall_app. split; [exact Ht | now constructor]. }
    destruct (is_error e); exact Ht'.
  - assert (H := step_pointers l Hl m Hm).
    destruct (step B STREAMING l m); auto.
Qed.

End Pointers.

(** X12. The pointers that the builder is handed point into the buffer:
    with a builder that leaves [buf] alone, in every call the key given
    to [empty_object_field], [start_object_field], [empty_array_field],
    [start_array_field] and [primitive_field] points at a quote, as the
    string given to [try_resume_array] does, and the value given to
    [root_primitive], [primitive] and [primitive_field] points at a byte
    of the buffer that the driver has read. *)
Theorem callbacks_get_pointers_into_the_buffer
    (T : Type) (B : Builder T) (STREAMING : bool) (fuel : nat)
    (dp : dom_parser_implementation) (b : T) :
  keeps B buf ->
  Forall (pointers_ok (input_buf dp)) (events (parse B STREAMING fuel dp b)).
Proof.
  intros Hk. unfold events. apply Forall_map.
  unfold parse, parse_from.
  match goal with
  | |- context [first_value B STREAMING ?m] =>
      assert (H := first_value_pointers B Hk STREAMING (input_buf dp) m);
      destruct (first_value B STREAMING m) as [l m1 | e m1 | m1]
  end.
  - apply (run_pointers B Hk STREAMING (input_buf dp)). apply H. repeat split. constructor.
  - apply H. repeat split. constructor.
  - apply H. repeat split. constructor.
Qed.

Lemma callbacks_get_pointers_into_the_buffer_witness :
  keeps noop_builder buf
  /\ Forall (pointers_ok (input_buf scenario1))
            (events (parse noop_builder false 100 scenario1 tt)).
Proof.
  assert (Hk : keeps noop_builder buf) by (intros ev p b; reflexivity).
  split; [exact Hk|].
  exact (callbacks_get_pointers_into_the_buffer unit noop_builder false 100
           scenario1 tt Hk).
Defined.

(** ** The nesting that the callbacks tell *)

Lemma balance_app (evs evs' : list event) :
  balance (evs ++ evs') = balance evs + balance evs'.
Proof.
  induction evs as [|ev evs IH]; cbn [app balance fold_right]; [reflexivity|].
  fold (balance (evs ++ evs')). fold (balance evs). lia.
Qed.

Lemma balance_snoc (t : list (event * error_code)) (ev : event) (e : error_code) :
  balance (map fst (t ++ [(ev, e)])) = balance (map fst t) + opens ev.
Proof. rewrite map_app, balance_app. cbn. lia. Qed.

Section TraceOfOperations.

Context {T : Type}.

Lemma advance_trace (m m' : machine T) (i : Z) :
  advance m = Continue i m' -> trace m' = trace m.
Proof.
  unfold advance. destruct (index _ _); [|discriminate]. now intros [= _ <-].
Qed.

Lemma advance_char_trace (m m' : machine T) (c : byte) :
  advance_char m = Continue c m' -> trace m' = trace m.
Proof.
  unfold advance_char, bind, advance.
  destruct (index (structural_indexes _) _); [|discriminate].
  unfold deref. cbn [parser move_to with_next_structural buf].
  destruct (index (buf (parser m)) z); [|discriminate]. now intros [= _ <-].
Qed.

Lemma advance_value_trace (m m' : machine T) (c : byte) :
  advance_value m = Continue c m' -> trace m' = trace m.
Proof.
  unfold advance_value, bind, advance.
  destruct (index (structural_indexes _) _); [|discriminate].
  unfold set_value, deref. cbn [parser move_to with_next_structural buf].
  destruct (index (buf (parser m)) z); [|discriminate]. now intros [= _ <-].
Qed.

Lemma set_value_trace (m m' : machine T) (v : Z) :
  set_value v m = Continue tt m' -> trace m' = trace m.
Proof. unfold set_value. now intros [= <-]. Qed.

Lemma back_up_trace (m m' : machine T) :
  back_up m = Continue tt m' -> trace m' = trace m.
Proof. unfold back_up. now intros [= <-]. Qed.

End TraceOfOperations.

Lemma TRY_noop_trace (ev : event) (m m' : machine unit) :
  TRY noop_builder ev m = Continue tt m' -> trace m' = trace m ++ [(ev, SUCCESS)].
Proof. unfold TRY. cbn [noop_builder is_error]. now intros [= <-]. Qed.

Section BalancedTokens.

Variable dp : dom_parser_implementation.
Variable all : list byte.
Hypothesis dp_reads : indexed dp all.
Variable STREAMING : bool.

Ltac exec_told :=
  repeat first
    [ match goal with
      | H : represents _ _ (_ :: _) _ ?m |- context [bind advance_value _ ?m] =>
          let m' := fresh "m" in
          let E := fresh "E" in
          let H' := fresh "Hrep" in
          let Ht := fresh "Htold" in
          destruct (rep_advance_value dp all dp_reads _ _ _ _ H) as (m' & E & H');
          assert (Ht := advance_value_trace _ _ _ E);
          rewrite (bind_Continue _ _ _ _ _ E); clear E H
      | H : represents _ _ (_ :: _) _ ?m |- context [bind advance_char _ ?m] =>
          let m' := fresh "m" in
          let E := fresh "E" in
          let H' := fresh "Hrep" in
          let Ht := fresh "Htold" in
          destruct (rep_advance_char dp all dp_reads _ _ _ _ H) as (m' & E & H');
          assert (Ht := advance_char_trace _ _ _ E);
          rewrite (bind_Continue _ _ _ _ _ E); clear E H
      | H : represents _ _ _ _ ?m |- context [bind (TRY noop_builder ?ev) _ ?m] =>
          let m' := fresh "m" in
          let E := fresh "E" in
          let H' := fresh "Hrep" in
          let Ht := fresh "Htold" in
          destruct (rep_TRY dp all ev _ _ _ H) as (m' & E & H');
          assert (Ht := TRY_noop_trace _ _ _ E);
          rewrite (bind_Continue _ _ _ _ _ E); clear E H
      | |- context [bind get_value ?k ?m] =>
          change (bind get_value k m) with (k (value m) m); cbv beta
      | H : represents _ _ _ _ ?m |- context [bind (deref (value ?m)) _ ?m] =>
          rewrite (bind_Continue _ _ _ _ _ (rep_deref dp all _ _ _ H))
      | H : (_ == _) = _ |- _ => rewrite H
      end
    | progress cbn [negb] ].

Ltac told :=
  eexists; split; [reflexivity | split; [assumption|]];
  repeat match goal with
         | H : trace _ = _ |- _ => rewrite H; clear H
         end;
  rewrite ?balance_snoc; cbn [token_balance opens];
  decide_bytes; lia.

(** A state of [parse] tells of the nesting what [token_balance] says. *)
Lemma step_tells (l l' : label) (ts ts' : list byte) (vb vb' : byte)
    (m : machine unit) :
  represents dp all ts vb m ->
  token_step l ts vb = Some (l', ts', vb') ->
  exists m',
    step noop_builder STREAMING l m = Continue l' m'
    /\ represents dp all ts' vb' m'
    /\ balance (map fst (trace m'))
       = balance (map fst (trace m)) + token_balance l ts vb.
Proof.
  intros Hrep.
  destruct l; cbn [token_step step].
  - (* generic_object_begin *)
    destruct ts as [|c ts1]; [discriminate|].
    destruct (c == "}") eqn:H1; [|destruct (c == quote) eqn:H2; [|discriminate]];
      intros [= <- <- <-]; exec_told; told.
  - (* object_colon *)
    destruct ts as [|c ts1]; [discriminate|].
    destruct (c == ":") eqn:H1; cbn [negb]; [|discriminate].
    intros [= <- <- <-]; exec_told; told.
  - (* object_value *)
    destruct ts as [|c ts1]; [discriminate|].
    destruct (c == "{") eqn:H1; [|destruct (c == "[") eqn:H2].
    + destruct ts1 as [|c1 ts2]; [discriminate|].
      destruct (c1 == "}") eqn:H3; [|destruct (c1 == quote) eqn:H4; [|discriminate]];
        intros [= <- <- <-]; exec_told; told.
    + destruct ts1 as [|c1 ts2]; [discriminate|].
      destruct (c1 == "]") eqn:H3;
        intros [= <- <- <-]; exec_told; told.
    + intros [= <- <- <-]; exec_told; told.
  - (* object_next *)
    destruct ts as [|c ts1]; [discriminate|].
    destruct (c == ",") eqn:H1; [|destruct (c == "}") eqn:H2; [|discriminate]].
    + destruct ts1 as [|c1 ts2]; [discriminate|].
      destruct (c1 == quote) eqn:H3; cbn [negb]; [|discriminate].
      intros [= <- <- <-]; exec_told; told.
    + intros [= <- <- <-]; exec_told; told.
  - (* generic_array_begin *)
    destruct ts as [|c ts1]; [discriminate|].
    destruct (c == "]") eqn:H1;
      intros [= <- <- <-]; exec_told; told.
  - (* array_value *)
    destruct (vb == "{") eqn:H1; [|destruct (vb == "[") eqn:H2].
    + destruct ts as [|c ts1]; [discriminate|].
      destruct (c == "}") eqn:H3; [|destruct (c == quote) eqn:H4; [|discriminate]];
        intros [= <- <- <-]; exec_told; told.
    + destruct ts as [|c ts1]; [discriminate|].
      destruct (c == "]") eqn:H3;
        intros [= <- <- <-]; exec_told; told.
    + intros [= <- <- <-]; exec_told; told.
  - (* array_next *)
    destruct ts as [|c ts1]; [discriminate|].
    destruct (c == ",") eqn:H1; [|destruct (c == "]") eqn:H2; [|discriminate]].
    + destruct ts1 as [|c1 ts2]; [discriminate|].
      intros [= <- <- <-]. exec_told.
      match goal with
      | H : represents _ _ (c1 :: _) _ ?m |- _ =>
          destruct (rep_advance dp all dp_reads _ _ _ _ H) as (i & m1 & Ha & Hc & Hrep1)
      end.
      assert (Ht1 := advance_trace _ _ _ Ha).
      rewrite (bind_Continue _ _ _ _ _ Ha).
      destruct (rep_set_value dp all i c1 _ _ m1 Hc Hrep1) as (m2 & Hs & Hrep2).
      assert (Ht2 := set_value_trace _ _ _ Hs).
      rewrite (bind_Continue _ _ _ _ _ Hs).
      told.
    + intros [= <- <- <-]; exec_told; told.
  - (* generic_next *)
    destruct ts as [|c ts1]; [discriminate|].
    destruct (c == ",") eqn:H1;
      [|destruct (c == "]") eqn:H2; [|destruct (c == "}") eqn:H3]].
    + destruct ts1 as [|c1 ts2]; [discriminate|].
      destruct (c1 == quote) eqn:H4;
        [|destruct (c1 == "[") eqn:H5; [|destruct (c1 == "{") eqn:H6]].
      * destruct ts2 as [|c2 ts3]; [discriminate|].
        destruct (c2 == ":") eqn:H7;
          [|destruct (c2 == ",") eqn:H8;
            [|destruct (c2 == "]") eqn:H9; [|discriminate]]];
          intros [= <- <- <-]; exec_told; told.
      * intros [= <- <- <-]; exec_told; told.
      * intros [= <- <- <-]; exec_told; told.
      * intros [= <- <- <-]; exec_told; told.
    + intros [= <- <- <-]; exec_told; told.
    + intros [= <- <- <-]; exec_told; told.
    + intros [= <- <- <-].
      destruct (rep_back_up dp all dp_reads _ _ _ _ Hrep) as (m1 & m2 & Ha & Hb & Hrep2).
      assert (Ht1 := advance_char_trace _ _ _ Ha).
      assert (Ht2 := back_up_trace _ _ Hb).
      rewrite (bind_Continue _ _ _ _ _ Ha). rewrite H1, H2, H3.
      rewrite (bind_Continue _ _ _ _ _ Hb).
      told.
  - discriminate.
Qed.

(** A walk on the structural bytes is a number of states of [parse], and
    tells of the nesting what its steps tell. *)
Lemma run_tells (s s' : label * list byte * byte) (z : Z) :
  balanced_steps s s' z ->
  forall m,
    represents dp all (snd (fst s)) (snd s) m ->
    exists (n : nat) (m' : machine unit),
      (forall fuel,
          run noop_builder STREAMING (n + fuel) (fst (fst s)) m
          = run noop_builder STREAMING fuel (fst (fst s')) m')
      /\ represents dp all (snd (fst s')) (snd s') m'
      /\ balance (map fst (trace m')) = balance (map fst (trace m)) + z.
Proof.
  induction 1 as [s | l ts vb [[l1 ts1] vb1] s2 z Hstep Hsteps IH]; intros m Hrep.
  - exists 0%nat, m. split; [reflexivity | split; [exact Hrep | lia]].
  - cbn [fst snd] in *.
    destruct (step_tells l l1 ts ts1 vb vb1 m Hrep Hstep) as (m1 & Hm1 & Hrep1 & Hb1).
    destruct (IH m1 Hrep1) as (n & m2 & Hrun & Hrep2 & Hb2).
    exists (S n), m2. split; [|split; [exact Hrep2 | lia]].
    intros fuel. cbn [Nat.add run]. rewrite Hm1. apply Hrun.
Qed.

End BalancedTokens.

(** ** The grammar and the nesting *)

Lemma balanced_step_then (l : label) (ts : list byte) (vb : byte)
    (s1 s2 : label * list byte * byte) (z total : Z) :
  token_step l ts vb = Some s1 ->
  balanced_steps s1 s2 z ->
  total = token_balance l ts vb + z ->
  balanced_steps (l, ts, vb) s2 total.
Proof. intros Hstep Hsteps ->. exact (balanced_next l ts vb s1 s2 z Hstep Hsteps). Qed.

Lemma balanced_then (s1 s2 s3 : label * list byte * byte) (z1 z2 total : Z) :
  balanced_steps s1 s2 z1 ->
  balanced_steps s2 s3 z2 ->
  total = z1 + z2 ->
  balanced_steps s1 s3 total.
Proof.
  intros H12 H23 ->. revert z2 H23.
  induction H12 as [s | l ts vb s' s'' z Hstep Hsteps IH]; intros z2 H23.
  - exact H23.
  - eapply balanced_step_then; [exact Hstep | apply IH; exact H23 | lia].
Qed.

(** The callbacks of one state, counted. *)
Ltac settle := cbn [token_balance]; decide_bytes; first [reflexivity | lia].

(** One state, then the states that [t] gives. *)
Ltac hop_to t :=
  eapply balanced_step_then; [cbn [token_step]; decide_bytes; reflexivity | t | settle].

(** Two walks, one after the other. *)
Ltac both :=
  eapply balanced_then; [eassumption | eassumption | first [reflexivity | lia]].

Lemma walks_balanced_all (fuel : nat) : walks_balanced fuel.
Proof.
  induction fuel as [|fuel IH].
  { unfold walks_balanced. repeat split; intros; discriminate. }
  destruct IH as (IHE & IHV & IHO & IHA & IHM & IHMG & IHEL & IHT).
  (* the members of an object, from the value of one of them *)
  assert (members : forall ts vb rest,
             match take_value true fuel ts with
             | Some (_, c :: rest') =>
                 if c == "}" then Some rest'
                 else if c == "," then
                   match rest' with
                   | key :: rest'' =>
                       if key == quote then take_members true fuel rest'' else None
                   | [] => None
                   end
                 else None
             | _ => None
             end = Some rest ->
             exists vb',
               balanced_steps (object_value, ts, vb) (generic_next, rest, vb') (-1)).
  { intros ts vb rest H.
    destruct (take_value true fuel ts) as [[k [|c rest']]|] eqn:Hv; try discriminate.
    destruct (IHV ts vb k (c :: rest') Hv) as [vb1 Hsteps].
    destruct (c == "}") eqn:Hclose.
    - injection H as <-. exists vb1.
      destruct k; cbn [after_member] in Hsteps;
        (eapply balanced_then;
         [exact Hsteps | hop_to ltac:(apply balanced_done) | lia]).
    - destruct (c == ",") eqn:Hcomma; [|discriminate].
      destruct rest' as [|key rest'']; [discriminate|].
      destruct (key == quote) eqn:Hkey; [|discriminate].
      destruct k; cbn [after_member] in Hsteps.
      + destruct (IHM rest'' key rest H) as [vb2 Hm]. exists vb2.
        eapply balanced_then; [exact Hsteps | hop_to ltac:(exact Hm) | lia].
      + destruct (IHM rest'' key rest H) as [vb2 Hm]. exists vb2.
        eapply balanced_then; [exact Hsteps | hop_to ltac:(exact Hm) | lia].
      + destruct (IHMG c key rest'' vb1 rest Hcomma Hkey H) as [vb2 Hm]. exists vb2.
        eapply balanced_then; [exact Hsteps | exact Hm | lia]. }
  unfold walks_balanced. repeat split.
  - (* an element of an array *)
    intros c ts k rest. cbn [take_value].
    destruct (c == "{") eqn:Hbrace; [|destruct (c == "[") eqn:Hbracket].
    + destruct ts as [|c1 ts1]; [discriminate|].
      destruct (c1 == "}") eqn:H1; [|destruct (c1 == quote) eqn:H2; [|discriminate]].
      * intros [= <- <-]. eexists. cbn [after_element]. hop_to ltac:(apply balanced_done).
      * destruct (take_members true fuel ts1) as [remains|] eqn:Hm; [|discriminate].
        intros [= <- <-]. destruct (IHM ts1 c1 remains Hm) as [vb2 Hsteps].
        exists vb2. cbn [after_element]. hop_to ltac:(exact Hsteps).
    + destruct ts as [|c1 ts1]; [discriminate|].
      destruct (c1 == "]") eqn:H1.
      * intros [= <- <-]. eexists. cbn [after_element]. hop_to ltac:(apply balanced_done).
      * destruct (take_elements true fuel (c1 :: ts1)) as [remains|] eqn:He;
          [|discriminate].
        intros [= <- <-]. destruct (IHEL c1 ts1 remains He) as [vb2 Hsteps].
        exists vb2. cbn [after_element]. hop_to ltac:(exact Hsteps).
    + destruct (starts_scalar c) eqn:Hs; [|discriminate].
      intros [= <- <-]. eexists. cbn [after_element]. hop_to ltac:(apply balanced_done).
  - (* the value of a member *)
    intros ts vb k rest. cbn [take_value].
    destruct ts as [|c ts1]; [discriminate|].
    destruct (c == "{") eqn:Hbrace; [|destruct (c == "[") eqn:Hbracket].
    + destruct ts1 as [|c1 ts2]; [discriminate|].
      destruct (c1 == "}") eqn:H1; [|destruct (c1 == quote) eqn:H2; [|discriminate]].
      * intros [= <- <-]. eexists. cbn [after_member]. hop_to ltac:(apply balanced_done).
      * destruct (take_members true fuel ts2) as [remains|] eqn:Hm; [|discriminate].
        intros [= <- <-]. destruct (IHM ts2 c1 remains Hm) as [vb2 Hsteps].
        exists vb2. cbn [after_member]. hop_to ltac:(exact Hsteps).
    + destruct ts1 as [|c1 ts2]; [discriminate|].
      destruct (c1 == "]") eqn:H1.
      * intros [= <- <-]. eexists. cbn [after_member]. hop_to ltac:(apply balanced_done).
      * destruct (take_elements true fuel (c1 :: ts2)) as [remains|] eqn:He;
          [|discriminate].
        intros [= <- <-]. destruct (IHEL c1 ts2 remains He) as [vb2 Hsteps].
        exists vb2. cbn [after_member]. hop_to ltac:(exact Hsteps).
    + destruct (starts_scalar c) eqn:Hs; [|discriminate].
      intros [= <- <-]. eexists. cbn [after_member]. hop_to ltac:(apply balanced_done).
  - (* an object, its brace read *)
    intros c ts vb k rest Hc. cbn [take_value]. rewrite Hc.
    destruct ts as [|c1 ts1]; [discriminate|].
    destruct (c1 == "}") eqn:H1; [|destruct (c1 == quote) eqn:H2; [|discriminate]].
    + intros [= <- <-]. eexists. hop_to ltac:(apply balanced_done).
    + destruct (take_members true fuel ts1) as [remains|] eqn:Hm; [|discriminate].
      intros [= <- <-]. destruct (IHM ts1 c1 remains Hm) as [vb2 Hsteps].
      exists vb2. hop_to ltac:(exact Hsteps).
  - (* an array, its bracket read *)
    intros c ts vb k rest Hc. cbn [take_value].
    rewrite (byte_is_other c "[" "{" Hc eq_refl), Hc.
    destruct ts as [|c1 ts1]; [discriminate|].
    destruct (c1 == "]") eqn:H1.
    + intros [= <- <-]. eexists. hop_to ltac:(apply balanced_done).
    + destruct (take_elements true fuel (c1 :: ts1)) as [remains|] eqn:He;
        [|discriminate].
      intros [= <- <-]. destruct (IHEL c1 ts1 remains He) as [vb2 Hsteps].
      exists vb2. hop_to ltac:(exact Hsteps).
  - (* the members, from the colon of the first *)
    intros ts vb rest. cbn [take_members].
    destruct ts as [|colon ts1]; [discriminate|].
    destruct (colon == ":") eqn:Hcolon; [|discriminate].
    intros H. destruct (members ts1 vb rest H) as [vb1 Hsteps].
    exists vb1. hop_to ltac:(exact Hsteps).
  - (* the members, from the comma that generic_next reads *)
    intros c key ts vb rest Hc Hkey. cbn [take_members].
    destruct ts as [|colon ts1]; [discriminate|].
    destruct (colon == ":") eqn:Hcolon; [|discriminate].
    intros H. destruct (members ts1 key rest H) as [vb1 Hsteps].
    exists vb1. hop_to ltac:(exact Hsteps).
  - (* the elements, from the first *)
    intros c ts rest. cbn [take_elements].
    destruct (take_value true fuel (c :: ts)) as [[k rest1]|] eqn:Hv; [|discriminate].
    intros Ht. destruct (IHE c ts k rest1 Hv) as [vb1 Hsteps].
    destruct (IHT (then_generic false k) rest1 vb1 rest Ht) as [vb2 Htail].
    exists vb2. destruct k; cbn [then_generic separator after_element] in *; both.
  - (* the elements, from a separator *)
    intros generic ts vb rest. cbn [take_tail].
    destruct ts as [|c ts1]; [discriminate|].
    destruct (c == "]") eqn:Hclose.
    { intros [= <-]. exists vb.
      destruct generic; cbn [separator]; hop_to ltac:(apply balanced_done). }
    destruct (c == ",") eqn:Hcomma; [|discriminate].
    destruct ts1 as [|c1 ts2]; [discriminate|].
    cbn [andb].
    destruct generic; cbn [andb separator].
    + (* generic_next *)
      destruct (c1 == quote) eqn:Hquote.
      { destruct ts2 as [|c2 ts3]; [discriminate|].
        destruct (c2 == "]") eqn:Hend; [|discriminate].
        intros [= <-]. exists c1. hop_to ltac:(apply balanced_done). }
      destruct (take_value true fuel (c1 :: ts2)) as [[k rest1]|] eqn:Hv;
        [|discriminate].
      intros Ht.
      destruct (c1 == "[") eqn:Hbracket; [|destruct (c1 == "{") eqn:Hbrace].
      * destruct (IHA c1 ts2 c1 k rest1 Hbracket Hv) as [vb1 Hsteps].
        rewrite (container_then_generic true fuel c1 ts2 k rest1 Hv) in Ht
          by (right; exact Hbracket).
        destruct (IHT true rest1 vb1 rest Ht) as [vb2 Htail].
        exists vb2. cbn [separator] in Htail. hop_to both.
      * destruct (IHO c1 ts2 c1 k rest1 Hbrace Hv) as [vb1 Hsteps].
        rewrite (container_then_generic true fuel c1 ts2 k rest1 Hv) in Ht
          by (left; exact Hbrace).
        destruct (IHT true rest1 vb1 rest Ht) as [vb2 Htail].
        exists vb2. cbn [separator] in Htail. hop_to both.
      * destruct (IHE c1 ts2 k rest1 Hv) as [vb1 Hsteps].
        assert (Hk := take_kind true fuel c1 ts2 k rest1 Hv Hbrace Hbracket).
        subst k. cbn [then_generic after_element] in Ht, Hsteps.
        destruct (IHT false rest1 vb1 rest Ht) as [vb2 Htail].
        exists vb2. cbn [separator] in Htail. hop_to both.
    + (* array_next *)
      destruct (take_value true fuel (c1 :: ts2)) as [[k rest1]|] eqn:Hv;
        [|discriminate].
      intros Ht.
      destruct (IHE c1 ts2 k rest1 Hv) as [vb1 Hsteps].
      destruct (IHT (then_generic false k) rest1 vb1 rest Ht) as [vb2 Htail].
      exists vb2.
      destruct k; cbn [then_generic separator after_element] in *; hop_to both.
Qed.

(** At [document_end], the call of [end_document] tells nothing of the
    nesting. *)
Lemma document_end_tells (dp : dom_parser_implementation) (front rest : list byte)
    (fuel : nat) (vb : byte) (m : machine unit) :
  rest <> [] ->
  Z.of_nat (length front) < 2 ^ 32 ->
  represents dp (front ++ rest) rest vb m ->
  exists m',
    run noop_builder true (S fuel) document_end m = (returns SUCCESS, m')
    /\ dom_parser (parser m') = resumed_at dp (Z.of_nat (length front))
    /\ balance (map fst (trace m')) = balance (map fst (trace m)).
Proof.
  intros Hrest Hrange Hrep.
  destruct (document_end_after dp front rest fuel vb m Hrest Hrange Hrep)
    as (m' & Hrun & Hm').
  exists m'. split; [exact Hrun | split; [exact Hm'|]].
  revert Hrun. cbn [run]. rewrite step_document_end. cbn [noop_builder is_error].
  intros [= _ <-]. cbn [trace]. rewrite balance_snoc. cbn [opens]. lia.
Qed.

(** The callbacks of the walk of a value tell as many containers entered
    as left. *)
Lemma value_is_told_from
    (dp : dom_parser_implementation) (before doc rest : list byte) (k : value_kind)
    (r0 : byte) (r1 : list byte) :
  rest = r0 :: r1 ->
  indexed dp (before ++ doc ++ rest) ->
  (exists fuel, take_value true fuel (doc ++ rest) = Some (k, rest)) ->
  next_structural_index dp = Z.of_nat (length before) ->
  next_structural_index dp <> n_structural_indexes dp ->
  Z.of_nat (length (before ++ doc)) < 2 ^ 32 ->
  k = scalar \/ ends_document r0 ->
  exists (fuel : nat) (m : machine unit),
    parse noop_builder true fuel dp tt = (returns SUCCESS, m)
    /\ dom_parser (parser m) = resumed_at dp (Z.of_nat (length (before ++ doc)))
    /\ balance (map fst (trace m)) = 0.
Proof.
  intros Hres Hreads [fuel_g Htake] Hstart Hnot Hrange Hends.
  assert (Hrest : rest <> []) by (rewrite Hres; discriminate).
  assert (Hall : before ++ doc ++ rest = (before ++ doc) ++ rest)
    by apply app_assoc.
  set (all := before ++ doc ++ rest) in *.
  assert (Hskip : skipn (length before) all = doc ++ rest).
  { unfold all. now rewrite skipn_app, skipn_all, Nat.sub_diag. }
  assert (Hcons : exists c ts, doc ++ rest = c :: ts).
  { rewrite Hres. destruct doc; cbn; eauto. }
  destruct Hcons as (c & ts & Hcons). rewrite Hcons in Hskip, Htake.
  destruct (reads_at dp all Hreads (length before) c ts Hskip) as (i & Hi & Hc & Hts).
  rewrite <- Hstart in Hi.
  unfold parse, parse_from.
  rewrite first_value_unfold. unfold at_end.
  cbn [parser new_structural_parser next_structural dom_parser].
  apply Z.eqb_neq in Hnot. rewrite Hnot.
  unfold TRY at 1. cbn [noop_builder parser builder value trace moves is_error app].
  rewrite (advance_value_reads _ i c); [|exact Hi | exact Hc].
  cbn [parser builder value trace moves app new_structural_parser next_structural].
  match goal with
  | |- context [Continue generic_object_begin ?m] => set (m1 := m)
  end.
  assert (Hrep1 : represents dp all ts c m1).
  { exists (S (length before)). unfold m1. cbn [parser value].
    split; [|split; [exact Hts | exact Hc]].
    unfold with_next_structural, new_structural_parser. cbn. f_equal. lia. }
  assert (Hb1 : balance (map fst (trace m1)) = 0) by reflexivity.
  assert (Hend : forall l vb (m : machine unit) (n : nat),
             represents dp all rest vb m ->
             balance (map fst (trace m)) = 0 ->
             (forall fuel, run noop_builder true (n + fuel) l m1
                           = run noop_builder true fuel document_end m) ->
             exists (fuel : nat) (m' : machine unit),
               run noop_builder true fuel l m1 = (returns SUCCESS, m')
               /\ dom_parser (parser m')
                  = resumed_at dp (Z.of_nat (length (before ++ doc)))
               /\ balance (map fst (trace m')) = 0).
  { intros l vb m n Hrep Hb Hrun. rewrite Hall in Hrep.
    destruct (document_end_tells dp (before ++ doc) rest 0 vb m Hrest Hrange Hrep)
      as (m' & Hm' & Hidx & Hb').
    exists (n + 1)%nat, m'. rewrite Hrun. repeat split; auto. lia. }
  assert (Hwalk : forall l,
             (exists vb', balanced_steps (l, ts, c) (generic_next, rest, vb') 0) ->
             ends_document r0 ->
             exists (fuel : nat) (m' : machine unit),
               run noop_builder true fuel l m1 = (returns SUCCESS, m')
               /\ dom_parser (parser m')
                  = resumed_at dp (Z.of_nat (length (before ++ doc)))
               /\ balance (map fst (trace m')) = 0).
  { intros l [vb' Hsteps] (He1 & He2 & He3).
    assert (Hsteps' : balanced_steps (l, ts, c) (document_end, rest, vb') 0).
    { eapply balanced_then; [exact Hsteps | | reflexivity]. rewrite Hres.
      eapply balanced_step_then; [|apply balanced_done|].
      - cbn [token_step]. now rewrite He1, He2, He3.
      - cbn [token_balance]. now rewrite He1, He2, He3. }
    destruct (run_tells dp all Hreads true _ _ _ Hsteps' m1 Hrep1)
      as (n & m & Hrun & Hrep & Hb).
    cbn [fst snd] in Hrun, Hrep. apply (Hend l vb' m n); auto; lia. }
  destruct (take_first true fuel_g c ts rest k Htake)
    as [Hbrace | [[Hbrace Hbracket] | [Hs Hts']]].
  - (* an object *)
    rewrite Hbrace.
    destruct Hends as [Hk | Hends].
    { rewrite Hk in Htake. apply take_scalar in Htake as [Hs _].
      destruct (starts_scalar_spec c Hs) as (H1 & _). congruence. }
    apply Hwalk; [|exact Hends].
    destruct (walks_balanced_all fuel_g) as (_ & _ & HO & _).
    exact (HO c ts c _ rest Hbrace Htake).
  - (* an array *)
    rewrite Hbrace, Hbracket.
    destruct Hends as [Hk | Hends].
    { rewrite Hk in Htake. apply take_scalar in Htake as [Hs _].
      destruct (starts_scalar_spec c Hs) as (_ & _ & H3 & _). congruence. }
    apply Hwalk; [|exact Hends].
    destruct (walks_balanced_all fuel_g) as (_ & _ & _ & HA & _).
    exact (HA c ts c _ rest Hbracket Htake).
  - (* a scalar *)
    destruct (starts_scalar_spec c Hs) as (H1 & _ & H3 & _).
    rewrite H1, H3.
    unfold TRY. cbn [noop_builder parser builder value trace moves is_error app m1].
    match goal with
    | |- context [run noop_builder true _ document_end ?m] =>
        destruct (document_end_tells dp (before ++ doc) rest 0 c m Hrest Hrange)
          as (m' & Hm' & Hidx & Hb')
    end.
    { rewrite <- Hall. exists (S (length before)). cbn [parser value].
      split; [|split; [now rewrite Hts | exact Hc]].
      unfold with_next_structural, new_structural_parser. cbn. f_equal. lia. }
    exists 1%nat, m'. repeat split; auto.
Qed.

(** ** A complete document *)

(** With the builder that does nothing, the non-streaming call is the
    streaming call and the residual check, when the outer array is
    closed. *)
Lemma noop_non_streaming (fuel : nat) (dp : dom_parser_implementation)
    (first : Z) (c : byte) :
  next_structural_index dp = 0 ->
  index (structural_indexes dp) 0 = Some first ->
  index (input_buf dp) first = Some c ->
  ((c == "[") = true ->
   exists j,
     index (structural_indexes dp) (uint32_t (n_structural_indexes dp - 1)) = Some j
     /\ index (input_buf dp) j = Some "]"%byte) ->
  parse noop_builder false fuel dp tt
  = residual_check (parse noop_builder true fuel dp tt).
Proof.
  intros H0 Hfirst Hc Hlast. unfold parse, parse_from. rewrite H0.
  rewrite !first_value_unfold.
  destruct (at_end _); [reflexivity|].
  unfold TRY at 1 3. cbn [noop_builder parser builder value trace moves is_error app].
  rewrite (advance_value_reads _ first c); [|exact Hfirst | exact Hc].
  cbn [parser builder value trace moves app new_structural_parser next_structural].
  destruct (c == "{"); [apply run_modes|].
  destruct (c == "[").
  - destruct (Hlast eq_refl) as (j & Hj & Hb).
    unfold last_structural_char, deref.
    cbn [parser with_next_structural dom_parser buf new_structural_parser].
    rewrite Hj, Hb. cbn. apply run_modes.
  - unfold TRY. cbn [noop_builder is_error]. apply run_modes.
Qed.

(** With the builder that does nothing, a complete document is walked to
    its end in either mode. *)
Lemma complete_document_noop (STREAMING : bool) (fuel : nat)
    (dp : dom_parser_implementation) (doc : list byte) (s : byte) :
  one_value doc ->
  indexed dp (doc ++ [s]) ->
  ends_document s ->
  next_structural_index dp = 0 ->
  n_structural_indexes dp = Z.of_nat (length doc) ->
  n_structural_indexes dp < 2 ^ 32 ->
  (2 * length (structural_indexes dp) + 2 < fuel)%nat ->
  fst (parse noop_builder STREAMING fuel dp tt) = returns SUCCESS
  /\ session (parse noop_builder STREAMING fuel dp tt)
     = resumed_at dp (n_structural_indexes dp)
  /\ balance (events (parse noop_builder STREAMING fuel dp tt)) = 0.
Proof.
  intros (fuel_g & k & Htake) Hreads Hs H0 Hn Hrange Hfuel.
  destruct doc as [|c ts]; [now apply one_value_nonempty in Htake|].
  destruct (value_is_told_from dp [] (c :: ts) [s] k s [] eq_refl Hreads)
    as (f0 & m & Hrun & Hm & Hzero); auto.
  { exists fuel_g. destruct (takes_more true fuel_g) as (HV & _).
    exact (HV (c :: ts) k [] [s] Htake). }
  { rewrite H0, Hn. cbn [length]. lia. }
  { cbn [app]. now rewrite <- Hn. }
  cbn [app] in Hm. rewrite <- Hn in Hm.
  assert (Hnon : parse noop_builder false f0 dp tt = (returns SUCCESS, m)).
  { destruct (Hreads 0%nat c eq_refl) as (first & Hfirst & Hc).
    rewrite (noop_non_streaming f0 dp first c H0 Hfirst Hc).
    - rewrite Hrun. unfold residual_check. cbn [fst snd]. rewrite Hm.
      cbn [resumed_at next_structural_index n_structural_indexes].
      now rewrite Z.eqb_refl.
    - intros Hbracket.
      destruct (takes_a_front true fuel_g) as (HF & _).
      destruct (HF c ts k [] Htake) as (front & Hfront & Hclosed).
      destruct (Hclosed Hbracket) as (front' & x & -> & Hx).
      rewrite app_nil_r in Hfront. apply byte_is_true in Hx. subst x.
      destruct (Hreads (length front') "]"%byte) as (j & Hj & Hb).
      { rewrite Hfront, <- app_assoc. now rewrite nth_error_app2, Nat.sub_diag. }
      exists j. split; [|exact Hb].
      replace (uint32_t (n_structural_indexes dp - 1))
        with (Z.of_nat (length front')); [exact Hj|].
      rewrite Hn, Hfront, length_app. cbn [length].
      unfold uint32_t. rewrite Z.mod_small; [lia|].
      rewrite Hn, Hfront, length_app in Hrange. cbn [length] in Hrange. lia. }
  assert (Hsame : forall mode,
             parse noop_builder mode f0 dp tt = (returns SUCCESS, m) ->
             parse noop_builder mode fuel dp tt = (returns SUCCESS, m)).
  { intros mode Hmode. rewrite <- Hmode.
    rewrite <- (parse_more_fuel noop_builder mode fuel (Nat.max f0 fuel) dp tt).
    - apply parse_more_fuel; [apply Nat.le_max_l | rewrite Hmode; discriminate].
    - apply Nat.le_max_r.
    - apply parse_terminates; [apply noop_builder_keeps | | exact Hfuel].
      apply noop_builder_keeps. }
  unfold session, events.
  destruct STREAMING; [rewrite (Hsame true Hrun) | rewrite (Hsame false Hnon)];
    repeat split; assumption.
Qed.

(** X9. A complete document is accepted: when the index array leads to
    the structural bytes of one value, a scalar or a container in which
    no string that is not the last element of its array comes after a
    container that is not empty with nothing or only empty containers in
    between, and then to a byte that is none of [,], []] and [}], a call
    from the first structural
    with a builder whose callbacks succeed and leave the cursor and the
    memory of the parser alone walks the document to its end in either
    mode: it leaves [next_structural_index] equal to
    [n_structural_indexes] and returns what the depth check gives,
    [SUCCESS] when the builder has left the depth at 0, as it has when it
    leaves the depth alone. *)
Theorem complete_document_is_accepted
    (T : Type) (B : Builder T) (STREAMING : bool) (fuel : nat)
    (dp : dom_parser_implementation) (b : T) (doc : list byte) (s : byte) :
  accepting B ->
  one_value doc ->
  indexed dp (doc ++ [s]) ->
  ends_document s ->
  next_structural_index dp = 0 ->
  n_structural_indexes dp = Z.of_nat (length doc) ->
  n_structural_indexes dp < 2 ^ 32 ->
  (2 * length (structural_indexes dp) + 2 < fuel)%nat ->
  fst (parse B STREAMING fuel dp b)
  = returns (if depth (parser (snd (parse B STREAMING fuel dp b))) =? 0
             then SUCCESS else TAPE_ERROR)
  /\ (keeps B depth -> fst (parse B STREAMING fuel dp b) = returns SUCCESS)
  /\ session (parse B STREAMING fuel dp b) = resumed_at dp (n_structural_indexes dp).
Proof.
  intros Ha Hdoc Hreads Hs H0 Hn Hrange Hfuel.
  destruct (complete_document_noop STREAMING fuel dp doc s Hdoc Hreads Hs H0 Hn
              Hrange Hfuel) as (Hok & Hsession & _).
  destruct (parse_accepting B Ha STREAMING fuel dp b) as [Hfst Hsnd].
  rewrite Hok in Hfst. cbn [checked_at_depth] in Hfst.
  split; [exact Hfst|]. split.
  - intros Hk. rewrite Hfst.
    now rewrite (proj1 (parse_keeps_depth T B Hk STREAMING fuel dp b)).
  - unfold session in *. rewrite <- Hsnd in Hsession. exact Hsession.
Qed.

Lemma complete_document_is_accepted_witness :
  accepting depth_builder
  /\ one_value ["{"; quote; ":"; "1"; ","; quote; ":"; "["; "t"; ","; "n"; "]"; "}"]%byte
  /\ indexed scenario1
       (["{"; quote; ":"; "1"; ","; quote; ":"; "["; "t"; ","; "n"; "]"; "}"]%byte
        ++ [x00])
  /\ ends_document x00
  /\ next_structural_index scenario1 = 0
  /\ n_structural_indexes scenario1 = 13
  /\ 13 < 2 ^ 32
  /\ (2 * length (structural_indexes scenario1) + 2 < 31)%nat
  /\ fst (parse depth_builder false 31 scenario1 tt) = returns SUCCESS
  /\ session (parse depth_builder false 31 scenario1 tt) = resumed_at scenario1 13.
Proof.
  assert (Hdoc : one_value
                   ["{"; quote; ":"; "1"; ","; quote; ":"; "["; "t"; ","; "n"; "]";
                    "}"]%byte).
  { now exists 10%nat, container. }
  assert (Hreads : indexed scenario1
                     (["{"; quote; ":"; "1"; ","; quote; ":"; "["; "t"; ","; "n"; "]";
                       "}"]%byte ++ [x00])).
  { intros k c Hk.
    do 14 (destruct k as [|k];
           [injection Hk as <-; eexists; split; reflexivity|]).
    destruct k; discriminate. }
  assert (Hs : ends_document x00) by (repeat split).
  assert (Hfuel : (2 * length (structural_indexes scenario1) + 2 < 31)%nat)
    by (vm_compute; lia).
  destruct (complete_document_is_accepted unit depth_builder false 31 scenario1 tt
              _ x00 depth_builder_accepting Hdoc Hreads Hs eq_refl eq_refl eq_refl
              Hfuel) as (Hfst & _ & Hsession).
  split; [exact depth_builder_accepting|]. split; [exact Hdoc|].
  split; [exact Hreads|]. split; [exact Hs|].
  split; [reflexivity|]. split; [reflexivity|]. split; [reflexivity|].
  split; [exact Hfuel|]. split; [|exact Hsession].
  rewrite Hfst. vm_compute. reflexivity.
Defined.


(** ** A builder that counts the depth *)

Section DepthCount.

Context {T : Type}.
Variable B : Builder T.
Hypothesis B_counts : counts_depth B.

Lemma depth_as_told_call (ev : event) (m : machine T) p b e :
  depth_as_told m ->
  B ev (parser m) (builder m) = (e, (p, b)) ->
  depth_as_told {| parser := p; builder := b; value := value m;
                   trace := trace m ++ [(ev, e)]; moves := moves m |}.
Proof.
  unfold depth_as_told. intros Hm HB. cbn [parser trace].
  assert (Hc := B_counts ev (parser m) (builder m)). rewrite HB in Hc.
  cbn [fst snd] in Hc. rewrite Hc, balance_snoc, Hm.
  destruct (opens ev =? 0) eqn:Ho.
  - apply Z.eqb_eq in Ho. rewrite Ho. f_equal. lia.
  - unfold uint32_t. now rewrite Zplus_mod_idemp_l.
Qed.

Lemma depth_count_invariant :
  invariant B depth_as_told depth_as_told (fun _ => depth_as_told).
Proof.
  constructor; auto.
  intros ev _ m Hm. unfold TRY.
  destruct (B ev (parser m) (builder m)) as [e [p b]] eqn:HB.
  assert (H := depth_as_told_call ev m p b e Hm HB).
  destruct (is_error e); exact H.
Qed.

Lemma depth_count_ends (STREAMING : bool) :
  ends B STREAMING depth_as_told (fun _ => depth_as_told).
Proof.
  split; [auto|].
  intros m Hm. rewrite step_document_end.
  destruct (B end_document (parser m) (builder m)) as [e [p b]] eqn:HB.
  assert (H := depth_as_told_call end_document m p b e Hm HB).
  destruct (is_error e); [exact H|].
  unfold depth_as_told in *. cbn [parser trace] in *.
  rewrite finish_leaves. exact H.
Qed.

(** In every call, the depth that [finish] finds is the nesting that the
    callbacks have told. *)
Lemma parse_counts_depth (STREAMING : bool) (fuel : nat)
    (dp : dom_parser_implementation) (b : T) :
  depth_as_told (snd (parse B STREAMING fuel dp b)).
Proof.
  unfold parse.
  apply (parse_from_invariant B STREAMING _ _ _ depth_count_invariant).
  - intros m c Hm _ _. exact Hm.
  - apply depth_count_ends.
  - reflexivity.
Qed.

End DepthCount.

Lemma depth_builder_counts : counts_depth depth_builder.
Proof. intros ev p b. destruct ev; reflexivity. Qed.

(** X13. On a complete document the callbacks tell as many containers
    entered as left: when the index array leads to the structural bytes
    of one value, a scalar or a container in which no string that is not
    the last element of its array comes after a container that is not
    empty with nothing or only empty containers in between, and then to a
    byte that is none of [,], []] and [}], then in a call from the first
    structural, with a builder
    whose callbacks succeed and leave the cursor and the memory of the
    parser alone, the callbacks that enter a container, [start_object],
    [start_array], [start_object_field] and [start_array_field], are as
    many as those that leave one, [end_object], [end_array],
    [try_end_object] and [try_end_array]; so that a builder that keeps in
    [depth] the nesting that its callbacks tell has the call return
    [SUCCESS]. *)
Theorem complete_document_is_balanced
    (T : Type) (B : Builder T) (STREAMING : bool) (fuel : nat)
    (dp : dom_parser_implementation) (b : T) (doc : list byte) (s : byte) :
  accepting B ->
  one_value doc ->
  indexed dp (doc ++ [s]) ->
  ends_document s ->
  next_structural_index dp = 0 ->
  n_structural_indexes dp = Z.of_nat (length doc) ->
  n_structural_indexes dp < 2 ^ 32 ->
  (2 * length (structural_indexes dp) + 2 < fuel)%nat ->
  balance (events (parse B STREAMING fuel dp b)) = 0
  /\ (counts_depth B -> fst (parse B STREAMING fuel dp b) = returns SUCCESS).
Proof.
  intros Ha Hdoc Hreads Hs H0 Hn Hrange Hfuel.
  destruct (complete_document_noop STREAMING fuel dp doc s Hdoc Hreads Hs H0 Hn
              Hrange Hfuel) as (Hok & _ & Hb).
  destruct (parse_accepting B Ha STREAMING fuel dp b) as [Hfst Hsnd].
  assert (Hbal : balance (events (parse B STREAMING fuel dp b)) = 0).
  { unfold events in *. rewrite <- Hsnd in Hb. exact Hb. }
  split; [exact Hbal|].
  intros Hc. rewrite Hfst, Hok. cbn [checked_at_depth].
  assert (Hd := parse_counts_depth B Hc STREAMING fuel dp b).
  unfold depth_as_told in Hd. unfold events in Hbal. rewrite Hbal in Hd.
  now rewrite Hd.
Qed.

Lemma complete_document_is_balanced_witness :
  accepting depth_builder
  /\ one_value ["["; "["; "1"; "]"; ","; "{"; "}"; "]"]%byte
  /\ indexed containers_in_array
       (["["; "["; "1"; "]"; ","; "{"; "}"; "]"]%byte ++ [x00])
  /\ ends_document x00
  /\ next_structural_index containers_in_array = 0
  /\ n_structural_indexes containers_in_array = 8
  /\ 8 < 2 ^ 32
  /\ (2 * length (structural_indexes containers_in_array) + 2 < 21)%nat
  /\ balance (events (parse depth_builder false 21 containers_in_array tt)) = 0
  /\ counts_depth depth_builder
  /\ fst (parse depth_builder false 21 containers_in_array tt) = returns SUCCESS.
Proof.
  assert (Hdoc : one_value ["["; "["; "1"; "]"; ","; "{"; "}"; "]"]%byte).
  { now exists 6%nat, container. }
  assert (Hreads : indexed containers_in_array
                     (["["; "["; "1"; "]"; ","; "{"; "}"; "]"]%byte ++ [x00])).
  { intros k c Hk.
    do 9 (destruct k as [|k];
          [injection Hk as <-; eexists; split; reflexivity|]).
    destruct k; discriminate. }
  assert (Hs : ends_document x00) by (repeat split).
  assert (Hfuel : (2 * length (structural_indexes containers_in_array) + 2 < 21)%nat)
    by (vm_compute; lia).
  destruct (complete_document_is_balanced unit depth_builder false 21
              containers_in_array tt
              ["["; "["; "1"; "]"; ","; "{"; "}"; "]"]%byte x00
              depth_builder_accepting Hdoc Hreads Hs eq_refl eq_refl eq_refl Hfuel)
    as [Hbal Hok].
  split; [exact depth_builder_accepting|]. split; [exact Hdoc|].
  split; [exact Hreads|]. split; [exact Hs|].
  split; [reflexivity|]. split; [reflexivity|]. split; [reflexivity|].
  split; [exact Hfuel|]. split; [exact Hbal|].
  split; [exact depth_builder_counts|].
  exact (Hok depth_builder_counts).
Defined.

Section DepthCheck.

Context {T : Type}.
Variable B : Builder T.

Lemma success_at_depth_zero_invariant :
  invariant B (fun _ => True) (fun _ => True)
    (fun o m => o = returns SUCCESS -> depth (parser m) = 0).
Proof.
  constructor; auto; try discriminate.
  intros ev _ m _. unfold TRY.
  destruct (B ev (parser m) (builder m)) as [e [p b]].
  destruct (is_error e) eqn:He; auto.
  intros [= ->]. discriminate.
Qed.

Lemma success_at_depth_zero_ends (STREAMING : bool) :
  ends B STREAMING (fun _ => True)
    (fun o m => o = returns SUCCESS -> depth (parser m) = 0).
Proof.
  split; [discriminate|].
  intros m _. rewrite step_document_end.
  destruct (B end_document (parser m) (builder m)) as [e [p b]].
  destruct (is_error e) eqn:He.
  - intros [= ->]. discriminate.
  - intros [= Hf]. destruct (finish_success STREAMING p Hf) as (Hd & Hp & _).
    cbn [parser]. rewrite Hp. exact Hd.
Qed.

End DepthCheck.

(** X14. The depth check of [finish] is a check of the callbacks: with a
    builder that keeps in [depth] the nesting that its callbacks tell, a
    call returns [SUCCESS] only if its callbacks have told as many
    containers entered as left, counted as a [uint32_t]. *)
Theorem success_means_balanced_callbacks
    (T : Type) (B : Builder T) (STREAMING : bool) (fuel : nat)
    (dp : dom_parser_implementation) (b : T) :
  counts_depth B ->
  fst (parse B STREAMING fuel dp b) = returns SUCCESS ->
  uint32_t (balance (events (parse B STREAMING fuel dp b))) = 0.
Proof.
  intros Hc Hok.
  assert (Hd := parse_counts_depth B Hc STREAMING fuel dp b).
  unfold depth_as_told in Hd. unfold events. rewrite <- Hd.
  revert Hok. unfold parse.
  apply (parse_from_invariant B STREAMING _ _ _ (success_at_depth_zero_invariant B)).
  - intros m c _ _ _. exact I.
  - apply success_at_depth_zero_ends.
  - exact I.
Qed.

Lemma success_means_balanced_callbacks_witness :
  counts_depth depth_builder
  /\ fst (parse depth_builder false 100 scenario1 tt) = returns SUCCESS
  /\ uint32_t (balance (events (parse depth_builder false 100 scenario1 tt))) = 0.
Proof.
  assert (Hok : fst (parse depth_builder false 100 scenario1 tt) = returns SUCCESS)
    by (vm_compute; reflexivity).
  split; [exact depth_builder_counts|]. split; [exact Hok|].
  exact (success_means_balanced_callbacks unit depth_builder false 100 scenario1 tt
           depth_builder_counts Hok).
Defined.

(** ** Documents that are not walked *)

(** What is taken of JSON is taken the same when [strict] is set, or is
    not taken then. *)
Lemma strict_or_none (fuel : nat) :
  (forall ts k rest,
      take_value false fuel ts = Some (k, rest) ->
      take_value true fuel ts = Some (k, rest) \/ take_value true fuel ts = None)
  /\ (forall ts rest,
        take_members false fuel ts = Some rest ->
        take_members true fuel ts = Some rest \/ take_members true fuel ts = None)
  /\ (forall ts rest,
        take_elements false fuel ts = Some rest ->
        take_elements true fuel ts = Some rest \/ take_elements true fuel ts = None)
  /\ (forall generic ts rest,
        take_tail false fuel generic ts = Some rest ->
        take_tail true fuel generic ts = Some rest
        \/ take_tail true fuel generic ts = None).
Proof.
  induction fuel as [|fuel (IHV & IHM & IHE & IHT)].
  { repeat split; intros; discriminate. }
  repeat split.
  - intros ts k rest. cbn [take_value].
    destruct ts as [|c ts1]; [discriminate|].
    destruct (c == "{"); [|destruct (c == "[")].
    + destruct ts1 as [|c1 ts2]; [discriminate|].
      destruct (c1 == "}"); [now left|].
      destruct (c1 == quote); [|discriminate].
      destruct (take_members false fuel ts2) as [remains|] eqn:Hm; [|discriminate].
      intros H. destruct (IHM ts2 remains Hm) as [-> | ->]; [now left | now right].
    + destruct ts1 as [|c1 ts2]; [discriminate|].
      destruct (c1 == "]"); [now left|].
      destruct (take_elements false fuel (c1 :: ts2)) as [remains|] eqn:He;
        [|discriminate].
      intros H. destruct (IHE (c1 :: ts2) remains He) as [-> | ->];
        [now left | now right].
    + now left.
  - intros ts rest. cbn [take_members].
    destruct ts as [|colon ts1]; [discriminate|].
    destruct (colon == ":"); [|discriminate].
    destruct (take_value false fuel ts1) as [[k rest1]|] eqn:Hv; [|discriminate].
    destruct (IHV ts1 k rest1 Hv) as [-> | ->]; [|intros _; now right].
    destruct rest1 as [|c rest1]; [discriminate|].
    destruct (c == "}"); [now left|].
    destruct (c == ","); [|discriminate].
    destruct rest1 as [|key rest2]; [discriminate|].
    destruct (key == quote); [|discriminate].
    apply IHM.
  - intros ts rest. cbn [take_elements].
    destruct (take_value false fuel ts) as [[k rest1]|] eqn:Hv; [|discriminate].
    destruct (IHV ts k rest1 Hv) as [-> | ->]; [|intros _; now right].
    apply IHT.
  - intros generic ts rest. cbn [take_tail].
    destruct ts as [|c ts1]; [discriminate|].
    destruct (c == "]"); [now left|].
    destruct (c == ","); [|discriminate].
    destruct ts1 as [|c1 ts2]; [discriminate|].
    cbn [andb].
    destruct (generic && (c1 == quote)) eqn:Hguard.
    + apply andb_prop in Hguard as [-> Hquote].
      destruct (take_value false fuel (c1 :: ts2)) as [[k rest1]|] eqn:Hv;
        [|discriminate].
      assert (Hk := take_kind false fuel c1 ts2 k rest1 Hv
                      (byte_is_other c1 quote "{" Hquote eq_refl)
                      (byte_is_other c1 quote "[" Hquote eq_refl)).
      subst k. apply take_scalar in Hv as [_ ->]. cbn [then_generic].
      destruct ts2 as [|c2 ts3]; [now right|].
      destruct (c2 == "]") eqn:Hend; [|now right].
      destruct fuel as [|fuel']; [discriminate|]. cbn [take_tail].
      rewrite Hend. now left.
    + destruct (take_value false fuel (c1 :: ts2)) as [[k rest1]|] eqn:Hv;
        [|discriminate].
      destruct (IHV (c1 :: ts2) k rest1 Hv) as [-> | ->]; [|intros _; now right].
      apply IHT.
Qed.

Lemma stops_after_step (l : label) (ts : list byte) (vb : byte)
    (s : label * list byte * byte) :
  token_step l ts vb = Some s ->
  stops_at_an_element s ->
  stops_at_an_element (l, ts, vb).
Proof.
  intros Hstep (x & ts' & vb' & Hsteps & Hx).
  exists x, ts', vb'. split; [|exact Hx].
  eapply token_steps_next; eassumption.
Qed.

Lemma stops_after_steps (s s1 : label * list byte * byte) :
  token_steps s s1 ->
  stops_at_an_element s1 ->
  stops_at_an_element s.
Proof.
  intros Hwalk (x & ts' & vb' & Hsteps & Hx).
  exists x, ts', vb'. split; [|exact Hx].
  eapply token_steps_trans; eassumption.
Qed.

(** One state, and then the stop. *)
Ltac hop :=
  eapply stops_after_step; [cbn [token_step]; decide_bytes; reflexivity|].

(** A string that follows a separator read by [generic_next], and that a
    comma and an element follow. *)
Lemma stops_at_the_string (fuel : nat) (c c1 vb : byte) (ts2 rest : list byte) :
  (c == ",") = true ->
  (c1 == quote) = true ->
  take_tail false fuel false ts2 = Some rest ->
  match ts2 with
  | c2 :: ts3 => if c2 == "]" then Some ts3 else None
  | [] => None
  end = None ->
  stops_at_an_element (generic_next, c :: c1 :: ts2, vb).
Proof.
  intros Hcomma Hquote Hl Hs.
  destruct fuel as [|fuel]; [discriminate|]. cbn [take_tail] in Hl.
  destruct ts2 as [|c2 ts3]; [discriminate|].
  destruct (c2 == "]") eqn:Hend; [discriminate|].
  destruct (c2 == ",") eqn:Hnext; [|discriminate].
  destruct ts3 as [|c3 ts4]; [discriminate|]. cbn [andb] in Hl.
  destruct (take_value false fuel (c3 :: ts4)) as [[k3 rest3]|] eqn:Hv;
    [|discriminate].
  destruct (value_starts false fuel c3 ts4 rest3 k3 Hv) as (H1 & H2 & _).
  exists c3, ts4, c1. split; [|now split].
  eapply token_steps_next;
    [cbn [token_step]; decide_bytes; reflexivity|].
  eapply token_steps_next;
    [cbn [token_step]; decide_bytes; reflexivity|].
  apply token_steps_done.
Qed.

Lemma stops_all (fuel : nat) : stops fuel.
Proof.
  induction fuel as [|fuel IH].
  { unfold stops. repeat split; intros; discriminate. }
  destruct IH as (IHE & IHV & IHO & IHA & IHM & IHMG & IHEL & IHT).
  destruct (walks_all fuel) as (WE & WV & WO & WA & WM & WMG & WEL & WT).
  destruct (strict_or_none fuel) as (SV & SM & SE & ST).
  (* the members of an object, from the value of one of them *)
  assert (members : forall ts vb rest,
             match take_value false fuel ts with
             | Some (_, c :: rest') =>
                 if c == "}" then Some rest'
                 else if c == "," then
                   match rest' with
                   | key :: rest'' =>
                       if key == quote then take_members false fuel rest'' else None
                   | [] => None
                   end
                 else None
             | _ => None
             end = Some rest ->
             match take_value true fuel ts with
             | Some (_, c :: rest') =>
                 if c == "}" then Some rest'
                 else if c == "," then
                   match rest' with
                   | key :: rest'' =>
                       if key == quote then take_members true fuel rest'' else None
                   | [] => None
                   end
                 else None
             | _ => None
             end = None ->
             stops_at_an_element (object_value, ts, vb)).
  { intros ts vb rest Hl Hs.
    destruct (take_value false fuel ts) as [[k rest1]|] eqn:Hv; [|discriminate].
    destruct (SV ts k rest1 Hv) as [Hsv | Hsv];
      [|exact (IHV ts vb k rest1 Hv Hsv)].
    rewrite Hsv in Hs.
    destruct (WV ts vb k rest1 Hsv) as [vb1 Hsteps].
    eapply stops_after_steps; [exact Hsteps|].
    destruct rest1 as [|c rest1]; [discriminate|].
    destruct (c == "}") eqn:Hclose; [discriminate|].
    destruct (c == ",") eqn:Hcomma; [|discriminate].
    destruct rest1 as [|key rest2]; [discriminate|].
    destruct (key == quote) eqn:Hkey; [|discriminate].
    destruct k; cbn [after_member].
    - hop. exact (IHM rest2 key rest Hl Hs).
    - hop. exact (IHM rest2 key rest Hl Hs).
    - exact (IHMG c key rest2 vb1 rest Hcomma Hkey Hl Hs). }
  unfold stops. repeat split.
  - (* an element of an array *)
    intros c ts k rest. cbn [take_value].
    destruct (c == "{") eqn:Hbrace; [|destruct (c == "[") eqn:Hbracket].
    + destruct ts as [|c1 ts1]; [discriminate|].
      destruct (c1 == "}") eqn:H1; [discriminate|].
      destruct (c1 == quote) eqn:H2; [|discriminate].
      destruct (take_members false fuel ts1) as [remains|] eqn:Hm; [|discriminate].
      destruct (take_members true fuel ts1) as [remains'|] eqn:Hs; [discriminate|].
      intros _ _. hop. exact (IHM ts1 c1 remains Hm Hs).
    + destruct ts as [|c1 ts1]; [discriminate|].
      destruct (c1 == "]") eqn:H1; [discriminate|].
      destruct (take_elements false fuel (c1 :: ts1)) as [remains|] eqn:He;
        [|discriminate].
      destruct (take_elements true fuel (c1 :: ts1)) as [remains'|] eqn:Hs;
        [discriminate|].
      intros _ _. hop. exact (IHEL c1 ts1 remains He Hs).
    + destruct (starts_scalar c); discriminate.
  - (* the value of a member *)
    intros ts vb k rest. cbn [take_value].
    destruct ts as [|c ts1]; [discriminate|].
    destruct (c == "{") eqn:Hbrace; [|destruct (c == "[") eqn:Hbracket].
    + destruct ts1 as [|c1 ts2]; [discriminate|].
      destruct (c1 == "}") eqn:H1; [discriminate|].
      destruct (c1 == quote) eqn:H2; [|discriminate].
      destruct (take_members false fuel ts2) as [remains|] eqn:Hm; [|discriminate].
      destruct (take_members true fuel ts2) as [remains'|] eqn:Hs; [discriminate|].
      intros _ _. hop. exact (IHM ts2 c1 remains Hm Hs).
    + destruct ts1 as [|c1 ts2]; [discriminate|].
      destruct (c1 == "]") eqn:H1; [discriminate|].
      destruct (take_elements false fuel (c1 :: ts2)) as [remains|] eqn:He;
        [|discriminate].
      destruct (take_elements true fuel (c1 :: ts2)) as [remains'|] eqn:Hs;
        [discriminate|].
      intros _ _. hop. exact (IHEL c1 ts2 remains He Hs).
    + destruct (starts_scalar c); discriminate.
  - (* an object, its brace read *)
    intros c ts vb k rest Hc. cbn [take_value]. rewrite Hc.
    destruct ts as [|c1 ts1]; [discriminate|].
    destruct (c1 == "}") eqn:H1; [discriminate|].
    destruct (c1 == quote) eqn:H2; [|discriminate].
    destruct (take_members false fuel ts1) as [remains|] eqn:Hm; [|discriminate].
    destruct (take_members true fuel ts1) as [remains'|] eqn:Hs; [discriminate|].
    intros _ _. hop. exact (IHM ts1 c1 remains Hm Hs).
  - (* an array, its bracket read *)
    intros c ts vb k rest Hc. cbn [take_value].
    rewrite (byte_is_other c "[" "{" Hc eq_refl), Hc.
    destruct ts as [|c1 ts1]; [discriminate|].
    destruct (c1 == "]") eqn:H1; [discriminate|].
    destruct (take_elements false fuel (c1 :: ts1)) as [remains|] eqn:He;
      [|discriminate].
    destruct (take_elements true fuel (c1 :: ts1)) as [remains'|] eqn:Hs;
      [discriminate|].
    intros _ _. hop. exact (IHEL c1 ts1 remains He Hs).
  - (* the members, from the colon of the first *)
    intros ts vb rest. cbn [take_members].
    destruct ts as [|colon ts1]; [discriminate|].
    destruct (colon == ":") eqn:Hcolon; [|discriminate].
    intros Hl Hs. hop. exact (members ts1 vb rest Hl Hs).
  - (* the members, from the comma that generic_next reads *)
    intros c key ts vb rest Hc Hkey. cbn [take_members].
    destruct ts as [|colon ts1]; [discriminate|].
    destruct (colon == ":") eqn:Hcolon; [|discriminate].
    intros Hl Hs. hop. exact (members ts1 key rest Hl Hs).
  - (* the elements, from the first *)
    intros c ts rest. cbn [take_elements].
    destruct (take_value false fuel (c :: ts)) as [[k rest1]|] eqn:Hv; [|discriminate].
    destruct (SV (c :: ts) k rest1 Hv) as [Hsv | Hsv]; rewrite Hsv;
      [|intros _ _; exact (IHE c ts k rest1 Hv Hsv)].
    intros Hl Hs. destruct (WE c ts k rest1 Hsv) as [vb1 Hsteps].
    eapply stops_after_steps; [exact Hsteps|].
    assert (H := IHT (then_generic false k) rest1 vb1 rest Hl Hs).
    destruct k; exact H.
  - (* the elements, from a separator *)
    intros generic ts vb rest. cbn [take_tail].
    destruct ts as [|c ts1]; [discriminate|].
    destruct (c == "]") eqn:Hclose; [discriminate|].
    destruct (c == ",") eqn:Hcomma; [|discriminate].
    destruct ts1 as [|c1 ts2]; [discriminate|].
    cbn [andb].
    destruct (take_value false fuel (c1 :: ts2)) as [[k rest1]|] eqn:Hv; [|discriminate].
    destruct generic; cbn [andb separator].
    + (* generic_next *)
      destruct (c1 == quote) eqn:Hquote.
      { assert (Hk := take_kind false fuel c1 ts2 k rest1 Hv
                        (byte_is_other c1 quote "{" Hquote eq_refl)
                        (byte_is_other c1 quote "[" Hquote eq_refl)).
        subst k. apply take_scalar in Hv as [_ ->]. cbn [then_generic].
        intros Hl Hs.
        exact (stops_at_the_string fuel c c1 vb ts2 rest Hcomma Hquote Hl Hs). }
      destruct (SV (c1 :: ts2) k rest1 Hv) as [Hsv | Hsv]; rewrite Hsv.
      * intros Hl Hs.
        destruct (c1 == "[") eqn:Hbracket; [|destruct (c1 == "{") eqn:Hbrace].
        -- destruct (WA c1 ts2 c1 k rest1 Hbracket Hsv) as [vb1 Hsteps].
           rewrite (container_then_generic true fuel c1 ts2 k rest1 Hsv) in Hl, Hs
             by (right; exact Hbracket).
           hop. eapply stops_after_steps; [exact Hsteps|].
           exact (IHT true rest1 vb1 rest Hl Hs).
        -- destruct (WO c1 ts2 c1 k rest1 Hbrace Hsv) as [vb1 Hsteps].
           rewrite (container_then_generic true fuel c1 ts2 k rest1 Hsv) in Hl, Hs
             by (left; exact Hbrace).
           hop. eapply stops_after_steps; [exact Hsteps|].
           exact (IHT true rest1 vb1 rest Hl Hs).
        -- destruct (WE c1 ts2 k rest1 Hsv) as [vb1 Hsteps].
           assert (Hk := take_kind true fuel c1 ts2 k rest1 Hsv Hbrace Hbracket).
           subst k. cbn [then_generic after_element] in Hl, Hs, Hsteps.
           hop. eapply stops_after_steps; [exact Hsteps|].
           exact (IHT false rest1 vb1 rest Hl Hs).
      * intros _ _.
        destruct (c1 == "[") eqn:Hbracket; [|destruct (c1 == "{") eqn:Hbrace].
        -- hop. exact (IHA c1 ts2 c1 k rest1 Hbracket Hv Hsv).
        -- hop. exact (IHO c1 ts2 c1 k rest1 Hbrace Hv Hsv).
        -- hop. exact (IHE c1 ts2 k rest1 Hv Hsv).
    + (* array_next *)
      destruct (SV (c1 :: ts2) k rest1 Hv) as [Hsv | Hsv]; rewrite Hsv.
      * intros Hl Hs. destruct (WE c1 ts2 k rest1 Hsv) as [vb1 Hsteps].
        hop. eapply stops_after_steps; [exact Hsteps|].
        assert (H := IHT (then_generic false k) rest1 vb1 rest Hl Hs).
        destruct k; exact H.
      * intros _ _. hop. exact (IHE c1 ts2 k rest1 Hv Hsv).
Qed.

Section NotWalked.

Variable dp : dom_parser_implementation.
Variable all : list byte.
Hypothesis dp_reads : indexed dp all.
Variable STREAMING : bool.

(** [array_next] before a byte that is neither a comma nor a closing
    bracket returns [TAPE_ERROR]. *)
Lemma array_next_rejects (x vb : byte) (ts : list byte) (m : machine unit)
    (fuel : nat) :
  represents dp all (x :: ts) vb m ->
  (x == ",") = false ->
  (x == "]") = false ->
  fst (run noop_builder STREAMING (S fuel) array_next m) = returns TAPE_ERROR.
Proof.
  intros Hrep H1 H2.
  destruct (rep_advance_char dp all dp_reads x vb ts m Hrep) as (m' & Hm' & _).
  cbn [run step]. rewrite (bind_Continue _ _ _ _ _ Hm'), H1, H2. reflexivity.
Qed.

Lemma stops_rejects (l : label) (ts : list byte) (vb : byte) (m : machine unit) :
  stops_at_an_element (l, ts, vb) ->
  represents dp all ts vb m ->
  exists n,
    forall fuel,
      fst (run noop_builder STREAMING (n + S fuel) l m) = returns TAPE_ERROR.
Proof.
  intros (x & ts' & vb' & Hsteps & H1 & H2) Hrep.
  destruct (run_follows_tokens dp all dp_reads STREAMING _ _ Hsteps m Hrep)
    as (n & m' & Hrun & Hrep').
  cbn [fst snd] in Hrun, Hrep'.
  exists n. intros fuel. rewrite Hrun.
  now apply (array_next_rejects x vb' ts').
Qed.

End NotWalked.

(** With the builder that does nothing, a value of JSON that is not taken
    when [strict] is set is not walked. *)
Lemma not_walked_noop (STREAMING : bool) (fuel f : nat)
    (dp : dom_parser_implementation) (doc rest : list byte) (k : value_kind) :
  take_value false f doc = Some (k, rest) ->
  take_value true f doc = None ->
  indexed dp doc ->
  next_structural_index dp = 0 ->
  0 < n_structural_indexes dp <= Z.of_nat (length doc) ->
  n_structural_indexes dp < 2 ^ 32 ->
  (2 * length (structural_indexes dp) + 2 < fuel)%nat ->
  fst (parse noop_builder STREAMING fuel dp tt) = returns TAPE_ERROR.
Proof.
  intros Hl Hs Hreads H0 Hn Hrange Hfuel.
  destruct doc as [|c ts]; [now destruct f|].
  destruct (stops_all f) as (_ & _ & SO & SA & _).
  destruct (reads_at dp (c :: ts) Hreads 0 c ts eq_refl) as (i & Hi & Hc & _).
  set (m1 := {| parser := with_next_structural (new_structural_parser dp 0) (0 + 1);
                builder := tt; value := i;
                trace := [(start_document, SUCCESS)]; moves := [0 + 1] |}).
  assert (Hrep1 : represents dp (c :: ts) ts c m1).
  { exists 1%nat. unfold m1. cbn [parser value]. repeat split; auto. }
  assert (Hsome : exists n0,
             forall mode,
               (mode = false ->
                exists j c',
                  index (structural_indexes dp)
                        (uint32_t (n_structural_indexes dp - 1)) = Some j
                  /\ index (input_buf dp) j = Some c') ->
               fst (parse noop_builder mode n0 dp tt) = returns TAPE_ERROR).
  { destruct (take_first false f c ts rest k Hl) as [Hb | [[Hb Hb'] | [Hsc _]]].
    - (* an object *)
      destruct (stops_rejects dp (c :: ts) Hreads true generic_object_begin ts c m1
                  (SO c ts c k rest Hb Hl Hs) Hrep1) as [n Hrun].
      exists (n + 1)%nat. intros mode _.
      unfold parse, parse_from. rewrite H0.
      replace (if mode then 0 else 0) with 0 by now destruct mode.
      rewrite first_value_unfold. unfold at_end.
      cbn [parser new_structural_parser next_structural dom_parser].
      replace (0 =? n_structural_indexes dp) with false
        by (symmetry; apply Z.eqb_neq; lia).
      unfold TRY at 1. cbn [noop_builder parser builder value trace moves is_error app].
      rewrite (advance_value_reads _ i c); [|exact Hi | exact Hc].
      cbn [parser builder value trace moves app new_structural_parser next_structural].
      rewrite Hb. cbv iota. fold m1.
      destruct mode; [apply Hrun|].
      rewrite run_modes.
      specialize (Hrun 0%nat).
      destruct (run noop_builder true (n + 1) generic_object_begin m1) as [o m2].
      cbn [fst] in Hrun. subst o. reflexivity.
    - (* an array *)
      destruct (stops_rejects dp (c :: ts) Hreads true generic_array_begin ts c m1
                  (SA c ts c k rest Hb' Hl Hs) Hrep1) as [n Hrun].
      exists (n + 1)%nat. intros mode Hlast.
      unfold parse, parse_from. rewrite H0.
      replace (if mode then 0 else 0) with 0 by now destruct mode.
      rewrite first_value_unfold. unfold at_end.
      cbn [parser new_structural_parser next_structural dom_parser].
      replace (0 =? n_structural_indexes dp) with false
        by (symmetry; apply Z.eqb_neq; lia).
      unfold TRY at 1. cbn [noop_builder parser builder value trace moves is_error app].
      rewrite (advance_value_reads _ i c); [|exact Hi | exact Hc].
      cbn [parser builder value trace moves app new_structural_parser next_structural].
      rewrite Hb, Hb'. cbv iota. fold m1.
      destruct mode; [apply Hrun|].
      destruct (Hlast eq_refl) as (j & c' & Hj & Hc').
      unfold last_structural_char, deref.
      change (dom_parser (parser m1)) with dp. rewrite Hj.
      change (buf (parser m1)) with (input_buf dp). rewrite Hc'.
      destruct (c' == "]"); [|reflexivity].
      rewrite run_modes.
      specialize (Hrun 0%nat).
      destruct (run noop_builder true (n + 1) generic_array_begin m1) as [o m2].
      cbn [fst] in Hrun. subst o. reflexivity.
    - (* a scalar is taken *)
      exfalso. destruct f as [|f]; [discriminate|]. cbn [take_value] in Hs.
      destruct (starts_scalar_spec c Hsc) as (H1 & _ & H3 & _).
      rewrite H1, H3, Hsc in Hs. discriminate. }
  destruct Hsome as [n0 Hsome].
  assert (Hlast : exists j c',
             index (structural_indexes dp)
                   (uint32_t (n_structural_indexes dp - 1)) = Some j
             /\ index (input_buf dp) j = Some c').
  { destruct (skipn_cons (Z.to_nat (n_structural_indexes dp - 1)) (c :: ts)
                ltac:(lia)) as (c' & rest' & Hskip).
    destruct (reads_at dp (c :: ts) Hreads _ c' rest' Hskip) as (j & Hj & Hc' & _).
    exists j, c'. split; [|exact Hc'].
    unfold uint32_t. rewrite Z.mod_small by lia.
    rewrite Z2Nat.id in Hj by lia. exact Hj. }
  specialize (Hsome STREAMING (fun _ => Hlast)).
  rewrite <- Hsome. f_equal.
  rewrite <- (parse_more_fuel noop_builder STREAMING fuel (Nat.max n0 fuel) dp tt).
  - apply parse_more_fuel; [apply Nat.le_max_l | rewrite Hsome; discriminate].
  - apply Nat.le_max_r.
  - apply parse_terminates; [apply noop_builder_keeps | | exact Hfuel].
    apply noop_builder_keeps.
Qed.

(** X15. A value of JSON that the driver does not walk is rejected.  Let
    the structural bytes from the first on start with a value of the
    grammar of JSON in which, in some array, a string that is not the last
    element comes after a container that is not empty, with nothing or
    only empty containers in between, as the strings of [[[1],"a","b"]],
    [[0,[1],"a","b"]], [[[1],[],"a","b"]] and [{"k":[[1],"a","b"]}] do:
    after the container it is [generic_next] that reads the separator,
    and the comma that follows the string with it, so that [array_next]
    finds the next element where it looks for a separator.  Then a call
    from the first structural, with a builder whose callbacks succeed and
    leave the cursor and the memory of the parser alone, returns
    [TAPE_ERROR] in either mode. *)
Theorem value_that_is_not_walked_is_rejected
    (T : Type) (B : Builder T) (STREAMING : bool) (fuel f : nat)
    (dp : dom_parser_implementation) (b : T) (doc rest : list byte)
    (k : value_kind) :
  accepting B ->
  take_value false f doc = Some (k, rest) ->
  take_value true f doc = None ->
  indexed dp doc ->
  next_structural_index dp = 0 ->
  0 < n_structural_indexes dp <= Z.of_nat (length doc) ->
  n_structural_indexes dp < 2 ^ 32 ->
  (2 * length (structural_indexes dp) + 2 < fuel)%nat ->
  fst (parse B STREAMING fuel dp b) = returns TAPE_ERROR.
Proof.
  intros Ha Hl Hs Hreads H0 Hn Hrange Hfuel.
  destruct (parse_accepting B Ha STREAMING fuel dp b) as [Hfst _].
  rewrite (not_walked_noop STREAMING fuel f dp doc rest k
             Hl Hs Hreads H0 Hn Hrange Hfuel) in Hfst.
  exact Hfst.
Qed.

Lemma value_that_is_not_walked_is_rejected_witness :
  accepting depth_builder
  /\ take_value false 20 number_containers_strings_bytes = Some (container, [])
  /\ take_value true 20 number_containers_strings_bytes = None
  /\ indexed number_containers_strings number_containers_strings_bytes
  /\ next_structural_index number_containers_strings = 0
  /\ 0 < n_structural_indexes number_containers_strings
       <= Z.of_nat (length number_containers_strings_bytes)
  /\ n_structural_indexes number_containers_strings < 2 ^ 32
  /\ (2 * length (structural_indexes number_containers_strings) + 2 < 33)%nat
  /\ fst (parse depth_builder true 33 number_containers_strings tt)
     = returns TAPE_ERROR
  /\ fst (parse depth_builder false 33 number_containers_strings tt)
     = returns TAPE_ERROR.
Proof.
  assert (Hreads : indexed number_containers_strings number_containers_strings_bytes).
  { intros k c Hk.
    do 14 (destruct k as [|k];
           [injection Hk as <-; eexists; split; reflexivity|]).
    destruct k; discriminate. }
  assert (Hn : 0 < n_structural_indexes number_containers_strings
               <= Z.of_nat (length number_containers_strings_bytes))
    by (vm_compute; split; [reflexivity | discriminate]).
  assert (Hfuel : (2 * length (structural_indexes number_containers_strings) + 2
                   < 33)%nat)
    by (vm_compute; lia).
  split; [exact depth_builder_accepting|].
  split; [reflexivity|]. split; [reflexivity|]. split; [exact Hreads|].
  split; [reflexivity|]. split; [exact Hn|]. split; [reflexivity|].
  split; [exact Hfuel|]. split.
  - exact (value_that_is_not_walked_is_rejected unit depth_builder true 33 20
             number_containers_strings tt number_containers_strings_bytes []
             container depth_builder_accepting eq_refl eq_refl Hreads eq_refl Hn
             eq_refl Hfuel).
  - exact (value_that_is_not_walked_is_rejected unit depth_builder false 33 20
             number_containers_strings tt number_containers_strings_bytes []
             container depth_builder_accepting eq_refl eq_refl Hreads eq_refl Hn
             eq_refl Hfuel).
Defined.

(** ** The one step back of the cursor *)

Lemma step_back_decreases (l : list Z) (c : Z) :
  nondecreasing (l ++ [c + 1; c]) -> False.
Proof.
  induction l as [|a l IH]; cbn [app].
  - cbn. lia.
  - destruct l as [|a' l]; cbn [app] in *; intros [_ H]; now apply IH.
Qed.

Lemma walking_not_backed_up {T : Type} (start : Z) (m : machine T) :
  walking start m -> backed_up start m -> False.
Proof.
  intros [Hmono _] (before & c & byte & Hmoves & _).
  rewrite Hmoves in Hmono.
  now apply (step_back_decreases (start :: before) c).
Qed.

Lemma inside_not_through {T : Type} (m : machine T) :
  inside m -> ~ through_generic_next (map fst (trace m)).
Proof.
  intros (body & Hm & Hb) (body' & Hm' & _). rewrite Hm in Hm'.
  injection Hm' as ->. apply Forall_app in Hb as [_ Hb].
  inversion Hb as [|? ? Hev _]. discriminate.
Qed.

Lemma started_inside {T : Type} (m : machine T) : started m -> inside m.
Proof. intros Hm. exists []. split; [exact Hm | constructor]. Qed.

Lemma root_primitive_not_through (v : Z) (tail : list event) :
  ~ through_generic_next (start_document :: root_primitive v :: tail).
Proof.
  intros (body & H & Hb). injection H as H.
  destruct body as [|ev body]; [destruct tail; discriminate|].
  injection H as <- _. inversion Hb as [|? ? Hev _]. discriminate.
Qed.

Section CursorPath.

Context {T : Type}.
Variable B : Builder T.
Hypothesis keeps_cursor : keeps B next_structural.
Hypothesis keeps_buf : keeps B buf.
Hypothesis keeps_indexes : keeps B (fun p => structural_indexes (dom_parser p)).
Variable STREAMING : bool.
Variable start : Z.

(** [generic_next] goes to [document_end] only from a byte that ends the
    document. *)
Lemma generic_next_to_document_end (m m' : machine T) :
  step B STREAMING generic_next m = Continue document_end m' ->
  exists c, structural_byte m c /\ ends_document c.
Proof.
  cbn [step]. unfold bind at 1. unfold advance_char at 1, bind at 1, advance at 1.
  destruct (index (structural_indexes (dom_parser (parser m)))
                  (next_structural (parser m))) as [i|] eqn:Hi; [|discriminate].
  unfold deref at 1. cbn [parser move_to with_next_structural buf].
  destruct (index (buf (parser m)) i) as [c|] eqn:Hc; [|discriminate].
  intros H. exists c. split; [now exists i|].
  destruct (c == ",") eqn:H1; [|destruct (c == "]") eqn:H2;
                                 [|destruct (c == "}") eqn:H3]].
  - exfalso. revert H. unfold bind, goto, ret, return_.
    repeat match goal with
           | |- context [match ?x with _ => _ end] => destruct x
           end; discriminate.
  - exfalso. revert H. unfold bind, goto, ret.
    destruct (TRY B try_end_array _); discriminate.
  - exfalso. revert H. unfold bind, goto, ret.
    destruct (TRY B try_end_object _); discriminate.
  - repeat split; assumption.
Qed.

(** On a byte that ends the document, [generic_next] moves the cursor
    back by one, to that byte, and goes to [document_end]. *)
Lemma generic_next_backs_up (m : machine T) (c : byte) :
  structural_byte m c -> ends_document c ->
  step B STREAMING generic_next m
  = Continue document_end
      (move_to (move_to m (next_structural (parser m) + 1))
               (next_structural (parser m) + 1 - 1)).
Proof.
  intros (i & Hi & Hc) (H1 & H2 & H3).
  cbn [step]. unfold bind at 1. unfold advance_char at 1, bind at 1, advance at 1.
  rewrite Hi. unfold deref at 1. cbn [parser move_to with_next_structural buf].
  rewrite Hc, H1, H2, H3. reflexivity.
Qed.

Lemma walking_call (ev : event) (m : machine T) p b e :
  walking start m ->
  B ev (parser m) (builder m) = (e, (p, b)) ->
  walking start {| parser := p; builder := b; value := value m;
                   trace := trace m ++ [(ev, e)]; moves := moves m |}.
Proof.
  intros [Hmono Hlast] HB.
  assert (Hk := keeps_cursor ev (parser m) (builder m)). rewrite HB in Hk.
  cbn [fst snd] in Hk. split; cbn [moves parser]; [exact Hmono | congruence].
Qed.

Lemma cursor_phases :
  phases B STREAMING
    (fun m : machine T => walking start m /\ trace m = [])
    (walking_started start) (walking_started start) (walking_inside start)
    (arrived start) (cursor_path start).
Proof.
  assert (Hin : forall o (m : machine T), walking_inside start m -> cursor_path start o m).
  { intros o m [Hw Hi]. left. split; [exact Hw | now apply inside_not_through]. }
  assert (Hst : forall o (m : machine T), walking_started start m -> cursor_path start o m).
  { intros o m [Hw Hs]. apply Hin. split; [exact Hw | now apply started_inside]. }
  constructor; auto.
  - intros m [Hw Ht]. left. split; [exact Hw|].
    rewrite Ht. intros (body & H & _). discriminate.
  - intros m [Hw Ht]. unfold TRY.
    destruct (B start_document (parser m) (builder m)) as [e [p b]] eqn:HB.
    assert (Hs : walking_started start
                   {| parser := p; builder := b; value := value m;
                      trace := trace m ++ [(start_document, e)];
                      moves := moves m |}).
    { split; [now apply walking_call|]. unfold started. cbn [trace]. now rewrite Ht. }
    destruct (is_error e); auto.
  - intros m i [Hw Hs] _. split; [now apply walking_advance | exact Hs].
  - intros m [Hw Hs]. split; [exact Hw | now apply started_inside].
  - intros v m [Hw Hs]. unfold TRY.
    destruct (B (root_primitive v) (parser m) (builder m)) as [e [p b]] eqn:HB.
    assert (Hw' := walking_call (root_primitive v) m p b e Hw HB).
    assert (Ht : map fst (trace m ++ [(root_primitive v, e)])
                 = [start_document; root_primitive v]).
    { rewrite map_app. unfold started in Hs. now rewrite Hs. }
    destruct (is_error e).
    + left. split; [exact Hw'|]. cbn [trace]. rewrite Ht.
      apply root_primitive_not_through.
    + right. split; [exact Hw'|]. exists v. exact Ht.
  - intros m i [Hw Hi] _. split; [now apply walking_advance | exact Hi].
  - intros ev Hev m [Hw (body & Hm & Hb)]. unfold TRY.
    destruct (B ev (parser m) (builder m)) as [e [p b]] eqn:HB.
    assert (Hs : walking_inside start
                   {| parser := p; builder := b; value := value m;
                      trace := trace m ++ [(ev, e)]; moves := moves m |}).
    { split; [now apply walking_call|].
      exists (body ++ [ev]). cbn [trace]. rewrite map_app, Hm.
      split; [reflexivity|].
      apply Forall_app. split; [exact Hb | now constructor]. }
    destruct (is_error e); auto.
  - intros m c [Hw Hi] Hc Hends. left. split; [|exact Hi].
    now apply cursor_backed_up with (c := c).
  - intros m [[Hb Hi] | [Hw [v Hv]]].
    + right. split; [exact Hb|]. right. now split.
    + left. split; [exact Hw|]. rewrite Hv. apply root_primitive_not_through.
  - intros m Hm.
    assert (H := document_end_keeps B keeps_cursor keeps_buf keeps_indexes
                   STREAMING m).
    destruct (step B STREAMING document_end m) as [l' m' | e m' | m']; auto;
      destruct H as (Hm' & Hc' & Hb' & Hi' & (e' & Ht'));
      (destruct Hm as [[(before & c & byte & Hmoves & Hmono & Hcursor
                           & (i & Hi & Hbyte) & Hends) (body & Hbody & Hinner)]
                      | [[Hmono Hlast] [v Hv]]];
       [ right; split;
         [ exists before, c, byte;
           split; [congruence|]; split; [exact Hmono|]; split; [congruence|];
           split; [exists i; split; congruence | exact Hends]
         | left; exists body; rewrite Ht', map_app, Hbody; split;
           [reflexivity | exact Hinner] ]
       | left; split;
         [ split; [now rewrite Hm' | now rewrite Hm', Hc']
         | rewrite Ht', map_app, Hv; apply root_primitive_not_through ] ]).
Qed.

End CursorPath.

(** C6, as the specification has it, fails: a call has not always one step
    back.  On [1 2 3] the streaming call returns [SUCCESS] for the scalar
    [1] with the cursor moved once, forwards: the first value goes to
    [document_end] without [generic_next]. *)
Theorem root_scalar_has_no_step_back :
  fst (parse noop_builder true 100 one_two_three tt) = returns SUCCESS
  /\ moves (snd (parse noop_builder true 100 one_two_three tt)) = [1]
  /\ ~ one_step_back
         (next_structural_index one_two_three
          :: moves (snd (parse noop_builder true 100 one_two_three tt))).
Proof.
  assert (Hm : moves (snd (parse noop_builder true 100 one_two_three tt)) = [1])
    by (vm_compute; reflexivity).
  split; [vm_compute; reflexivity|]. split; [exact Hm|].
  rewrite Hm. intros (before & c & after & H). cbn in H.
  destruct before as [|x [|y before]]; cbn in H.
  - injection H as H1 H2. lia.
  - injection H as _ H. discriminate.
  - injection H as _ _ H. destruct before; discriminate.
Qed.

(** C6, amended. During a call of [parse] with a builder that leaves the
    cursor and the memory the parser reads alone, the cursor moves back
    only as follows.  Every state other than [generic_next] leaves the
    positions the cursor took non-decreasing.  [generic_next] does so too
    unless it goes to [document_end], which it does only on a structural
    byte other than [','], [']'] and ['}']; and on such a byte it does
    move the cursor back by one, to that byte, and goes to
    [document_end].  So in a whole call the positions are non-decreasing,
    or are so up to a last move, which is that one step back; and a call
    that returns has the step back if and only if it has come to
    [document_end] from [generic_next], its callbacks being
    [start_document], callbacks of the states of [parse] and
    [end_document]: a call on a scalar, or one that returns before
    [document_end], has none. *)
Theorem cursor_backs_up_once_at_document_end
    (T : Type) (B : Builder T) (STREAMING : bool) (fuel : nat)
    (dp : dom_parser_implementation) (b : T) :
  keeps B next_structural ->
  keeps B buf ->
  keeps B (fun p => structural_indexes (dom_parser p)) ->
  (forall start l m,
      l <> generic_next ->
      walking start m ->
      walking start (machine_of (step B STREAMING l m)))
  /\ (forall start m,
        walking start m ->
        walking start (machine_of (step B STREAMING generic_next m))
        \/ exists m' c,
             step B STREAMING generic_next m = Continue document_end m'
             /\ structural_byte m c
             /\ ends_document c
             /\ backed_up start m')
  /\ (forall start m c,
        walking start m ->
        structural_byte m c ->
        ends_document c ->
        exists m',
          step B STREAMING generic_next m = Continue document_end m'
          /\ moves m'
             = moves m ++ [next_structural (parser m) + 1; next_structural (parser m)]
          /\ backed_up start m')
  /\ (walking (if STREAMING then next_structural_index dp else 0)
        (snd (parse B STREAMING fuel dp b))
      \/ backed_up (if STREAMING then next_structural_index dp else 0)
           (snd (parse B STREAMING fuel dp b)))
  /\ (fst (parse B STREAMING fuel dp b) <> out_of_fuel ->
      (backed_up (if STREAMING then next_structural_index dp else 0)
         (snd (parse B STREAMING fuel dp b))
       <-> through_generic_next (events (parse B STREAMING fuel dp b)))).
Proof.
  intros Hcursor Hbuf Hindexes.
  split; [|split; [|split]].
  - intros start l m. now apply step_walks.
  - intros start m Hm.
    destruct (generic_next_walks_or_backs_up B Hcursor STREAMING start m Hm)
      as [Hw | (m' & Hstep & Hback)]; [now left | right].
    destruct (generic_next_to_document_end B STREAMING m m' Hstep) as (c & Hc & Hends).
    now exists m', c.
  - intros start m c Hm Hc Hends.
    rewrite (generic_next_backs_up B STREAMING m c Hc Hends).
    eexists. split; [reflexivity|]. split.
    + unfold move_to. cbn [moves parser with_next_structural next_structural].
      rewrite <- app_assoc. cbn [app]. do 3 f_equal. lia.
    + now apply (cursor_backed_up start m c).
  - set (start := if STREAMING then next_structural_index dp else 0).
    assert (H : cursor_path start (fst (parse B STREAMING fuel dp b))
                  (snd (parse B STREAMING fuel dp b))).
    { unfold parse.
      apply (parse_from_phase B STREAMING _ _ _ _ _ _
               (cursor_phases B Hcursor Hbuf Hindexes STREAMING start)).
      split; [|reflexivity]. split; [exact Logic.I | reflexivity]. }
    unfold events.
    destruct H as [[Hw Hnot] | [Hb [Hthrough | [Hout _]]]].
    + split; [now left|]. intros _. split.
      * intros Hb. destruct (walking_not_backed_up start _ Hw Hb).
      * intros Ht. contradiction.
    + split; [now right|]. intros _. now split.
    + split; [now right|]. intros Hfuel. contradiction.
Qed.

Lemma cursor_backs_up_once_at_document_end_witness :
  keeps noop_builder next_structural
  /\ keeps noop_builder buf
  /\ keeps noop_builder (fun p => structural_indexes (dom_parser p))
  /\ fst (parse noop_builder false 100 scenario1 tt) <> out_of_fuel
  /\ backed_up 0 (snd (parse noop_builder false 100 scenario1 tt))
  /\ moves (snd (parse noop_builder false 100 scenario1 tt))
     = [1; 2; 3; 4; 5; 6; 7; 8; 9; 10; 11; 12; 13; 14; 13].
Proof.
  repeat (split; [apply noop_builder_keeps|]).
  assert (Hfuel : fst (parse noop_builder false 100 scenario1 tt) <> out_of_fuel)
    by (vm_compute; discriminate).
  split; [exact Hfuel|]. split; [|vm_compute; reflexivity].
  destruct (cursor_backs_up_once_at_document_end unit noop_builder false 100
              scenario1 tt (noop_builder_keeps _ _) (noop_builder_keeps _ _)
              (noop_builder_keeps _ _)) as (_ & _ & _ & _ & Hiff).
  apply (Hiff Hfuel).
  exists [start_object; primitive_field 1 5; start_array_field 7; primitive 12;
          primitive 17; end_array; try_end_object].
  split; [vm_compute; reflexivity | repeat constructor].
Defined.

(** ** The depth is left to the builder *)

Section DepthFrame.

Context {T : Type}.
Variable B : Builder T.
Variable P : list (event * error_code) -> T -> Z -> Prop.
Hypothesis B_maintains : maintains B P.

Lemma depth_holds_call (ev : event) (m : machine T) p b e :
  depth_holds P m ->
  B ev (parser m) (builder m) = (e, (p, b)) ->
  depth_holds P {| parser := p; builder := b; value := value m;
                   trace := trace m ++ [(ev, e)]; moves := moves m |}.
Proof.
  unfold depth_holds. intros Hm HB. cbn [parser trace builder].
  assert (H := B_maintains ev (parser m) (builder m) (trace m) Hm).
  rewrite HB in H. exact H.
Qed.

Lemma depth_frame_invariant :
  invariant B (depth_holds P) (depth_holds P) (fun _ => depth_holds P).
Proof.
  constructor; auto.
  intros ev _ m Hm. unfold TRY.
  destruct (B ev (parser m) (builder m)) as [e [p b]] eqn:HB.
  assert (H := depth_holds_call ev m p b e Hm HB).
  destruct (is_error e); exact H.
Qed.

Lemma depth_frame_ends (STREAMING : bool) :
  ends B STREAMING (depth_holds P) (fun _ => depth_holds P).
Proof.
  split; [auto|].
  intros m Hm. rewrite step_document_end.
  destruct (B end_document (parser m) (builder m)) as [e [p b]] eqn:HB.
  assert (H := depth_holds_call end_document m p b e Hm HB).
  destruct (is_error e); [exact H|].
  unfold depth_holds in *. cbn [parser trace builder] in *.
  rewrite finish_leaves. exact H.
Qed.

(** What the callbacks maintain of the depth holds when the call ends. *)
Lemma parse_frames_depth (STREAMING : bool) (fuel : nat)
    (dp : dom_parser_implementation) (b : T) :
  P [] b 0 ->
  P (trace (snd (parse B STREAMING fuel dp b)))
    (builder (snd (parse B STREAMING fuel dp b)))
    (depth (parser (snd (parse B STREAMING fuel dp b)))).
Proof.
  intros H0. unfold parse.
  apply (parse_from_invariant B STREAMING _ _ _ depth_frame_invariant).
  - intros m c Hm _ _. exact Hm.
  - apply depth_frame_ends.
  - exact H0.
Qed.

End DepthFrame.

(** C9, as the specification has it, fails: the object of [{"x":1] that is
    left open is detected with a builder that leaves the depth alone.  The
    depth is 0 and [end_document] is not invoked: it is [object_next] that
    returns [TAPE_ERROR], on the byte it reads after the value. *)
Theorem unclosed_object_is_detected_without_depth :
  keeps noop_builder depth
  /\ fst (parse noop_builder true 100 unclosed_object tt) = returns TAPE_ERROR
  /\ fst (parse noop_builder false 100 unclosed_object tt) = returns TAPE_ERROR
  /\ depth (parser (snd (parse noop_builder true 100 unclosed_object tt))) = 0
  /\ events (parse noop_builder true 100 unclosed_object tt)
     = [start_document; start_object; primitive_field 1 5].
Proof.
  split; [apply noop_builder_keeps|]. vm_compute. repeat split; reflexivity.
Qed.

(** C9, amended. [parse] does not write [depth]: it starts at 0 and only
    the callbacks of the builder change it, so that whatever the callbacks
    maintain between the callbacks invoked, the state of the builder and
    the depth holds when the call ends, of the depth that [finish] has
    checked.  With a builder whose callbacks leave the depth as they find
    it, it is then 0 when the call ends and the check [depth != 0] of
    [finish] does not fire: a call in which [end_document] succeeded
    returns [SUCCESS] in streaming mode, and in non-streaming mode
    [SUCCESS] or [TAPE_ERROR] by the position of the cursor alone. *)
Theorem depth_is_left_to_the_builder
    (T : Type) (B : Builder T) (STREAMING : bool) (fuel : nat)
    (dp : dom_parser_implementation) (b : T)
    (P : list (event * error_code) -> T -> Z -> Prop) :
  P [] b 0 ->
  maintains B P ->
  P (trace (snd (parse B STREAMING fuel dp b)))
    (builder (snd (parse B STREAMING fuel dp b)))
    (depth (parser (snd (parse B STREAMING fuel dp b))))
  /\ (keeps B depth ->
      depth (parser (snd (parse B STREAMING fuel dp b))) = 0
      /\ forall t,
           trace (snd (parse B STREAMING fuel dp b)) = t ++ [(end_document, SUCCESS)] ->
           fst (parse B STREAMING fuel dp b)
           = returns (cursor_verdict STREAMING
                        (parser (snd (parse B STREAMING fuel dp b))))).
Proof.
  intros H0 HP. split.
  - now apply parse_frames_depth.
  - intros Hk. exact (parse_keeps_depth T B Hk STREAMING fuel dp b).
Qed.

Lemma depth_is_left_to_the_builder_witness :
  (maintains noop_builder (fun _ _ d => d = 0)
   /\ keeps noop_builder depth
   /\ depth (parser (snd (parse noop_builder false 100 unclosed_array tt))) = 0
   /\ fst (parse noop_builder false 100 unclosed_array tt) = returns SUCCESS)
  /\ (maintains depth_builder
        (fun t _ d => d = uint32_t (balance (map fst t)))
      /\ depth (parser (snd (parse depth_builder false 100 unclosed_array tt)))
         = uint32_t (balance (events (parse depth_builder false 100 unclosed_array tt)))
      /\ balance (events (parse depth_builder false 100 unclosed_array tt)) = 1
      /\ fst (parse depth_builder false 100 unclosed_array tt) = returns TAPE_ERROR).
Proof.
  assert (Hnoop : maintains noop_builder (fun _ _ d => d = 0)).
  { intros ev p b t Hd. exact Hd. }
  assert (Hcount : maintains depth_builder
                     (fun t _ d => d = uint32_t (balance (map fst t)))).
  { intros ev p b t Hd. rewrite balance_snoc. rewrite (depth_builder_counts ev p b), Hd.
    destruct (opens ev =? 0) eqn:Ho.
    - apply Z.eqb_eq in Ho. rewrite Ho. f_equal. lia.
    - unfold uint32_t. now rewrite Zplus_mod_idemp_l. }
  split.
  - destruct (depth_is_left_to_the_builder unit noop_builder false 100
                unclosed_array tt (fun _ _ d => d = 0) eq_refl Hnoop)
      as [_ Hidle].
    destruct (Hidle (noop_builder_keeps _ depth)) as [Hd Hcode].
    split; [exact Hnoop|]. split; [apply noop_builder_keeps|].
    split; [exact Hd|].
    rewrite (Hcode [(start_document, SUCCESS); (start_array, SUCCESS);
                    (start_array, SUCCESS); (primitive 2, SUCCESS);
                    (end_array, SUCCESS)] eq_refl).
    reflexivity.
  - split; [exact Hcount|].
    split; [|split; reflexivity].
    exact (proj1 (depth_is_left_to_the_builder unit depth_builder false 100
                    unclosed_array tt
                    (fun t _ d => d = uint32_t (balance (map fst t)))
                    eq_refl Hcount)).
Defined.
